(** * VerusCoin PBaaS: cross-chain proof container, merge-mined chain
registry and proof-of-stake nonce

A shallow embedding of
    - [src/primitives/nonce.cpp]   (CPOSNonce::SetPOSEntropy, CheckPOSEntropy)
    - [src/pbaas/pbaas.h]          (COpRetProof, CCrossChainProof and its
codec, CCompositeChainObject,
DehydrateChainObject,
CConnectedChains::LowestTarget)
together with the properties the specification states about them. *)

From Stdlib Require Import String.
From Stdlib.Strings Require Import Byte.
From Stdlib Require Import ZArith List Bool Lia.
Import ListNotations.
Local Open Scope Z_scope.

(* ================================================================== *)
(** * Machine integers *)

Module MachineInt.

  (** An unsigned [w]-bit integer holds its value modulo [2^w]. *)
Definition wrap_unsigned (w z : Z) : Z := z mod 2 ^ w.

  (** A signed [w]-bit integer (two's complement). *)
Definition wrap_signed (w z : Z) : Z :=
    (z + 2 ^ (w - 1)) mod 2 ^ w - 2 ^ (w - 1).

Definition to_uint8 : Z -> Z := wrap_unsigned 8.
Definition to_uint16 : Z -> Z := wrap_unsigned 16.
Definition to_uint32 : Z -> Z := wrap_unsigned 32.
Definition to_int32 : Z -> Z := wrap_signed 32.

End MachineInt.

(* ================================================================== *)
(** * primitives/nonce.cpp *)

Module Nonce.

  (** [arith_uint256]: a 256-bit unsigned integer as a [Z], with the
operators the nonce code uses.  A left shift drops the bits that
leave the 256-bit word. *)
Definition arith_uint256 := Z.

Definition arith_and (a b : arith_uint256) : arith_uint256 := Z.land a b.
Definition arith_or (a b : arith_uint256) : arith_uint256 := Z.lor a b.
Definition arith_shl (a : arith_uint256) (n : Z) : arith_uint256 :=
MachineInt.wrap_unsigned 256 (Z.shiftl a n).

  (** uint256S("0000000000000000000000000000000000000000ffffffffffffffffffffffff") *)
Definition low96 : arith_uint256 := 0xffffffffffffffffffffffff.

  (** What is streamed into a [CVerusHashWriter] with [<<]. *)
Inductive hashed_item : Type :=
  | item_uint256 (v : Z)
  | item_int32 (v : Z).

Section POSEntropy.

    (** [CVerusHashWriter::GetHash] of the items written so far; the hash
itself lives in hash.h and is left abstract. *)
Variable GetHash : list hashed_item -> Z.

    (** The 128 low bits both functions compute: the low 32 bits of the
nonce, and above them 96 bits of the hash of the entropy sources. *)
Definition arNonce (this pastHash txid voutNum : Z) : arith_uint256 :=
      arith_or
        (arith_and this 0xffffffff)
        (arith_shl
           (arith_and
              (GetHash [item_uint256 pastHash; item_uint256 txid; item_int32 voutNum])
              low96)
           32).

    (** [void CPOSNonce::SetPOSEntropy(pastHash, txid, voutNum)]: the new
value of [*this]. *)
Definition SetPOSEntropy (this pastHash txid voutNum : Z) : Z :=
      let ar := arNonce this pastHash txid voutNum in
      arith_or (arith_shl (GetHash [item_uint256 ar]) 128) ar.

    (** [bool CPOSNonce::CheckPOSEntropy(pastHash, txid, voutNum)]. *)
Definition CheckPOSEntropy (this pastHash txid voutNum : Z) : bool :=
      let ar := arNonce this pastHash txid voutNum in
      this =? arith_or (arith_shl (GetHash [item_uint256 ar]) 128) ar.

End POSEntropy.

End Nonce.

(* ================================================================== *)
(** * Streams (streams.h, serialize.h) *)

Module Stream.

(** How a call can end without a value.  [StdException] is a C++
    [std::exception] thrown by a stream read; the other two are not C++
    exceptions and no [catch] sees them: [BadCast] marks a cast of a chain
    object to a payload type it does not hold (what the program does then
    depends on memory layout), [OutOfFuel] that the recursion bound of the
    embedding was reached. *)
Inductive fault : Type :=
| StdException
| BadCast
| OutOfFuel.

Inductive result (A : Type) : Type :=
| Returns (a : A)
| Raises (f : fault).

Arguments Returns {A} a.
Arguments Raises {A} f.

(** The bytes still to be read from the stream, and the lines written by
    [printf] and [LogPrintf] so far, in the order of the calls. *)
Record State : Type := mkState { stream : list byte; log : list string }.

(** A read operation: it moves the stream, may log, and returns or raises.
    The state after a raise is the state at the throw. *)
Definition M (A : Type) : Type := State -> result A * State.

Definition ret {A} (a : A) : M A := fun st => (Returns a, st).

Definition bind {A B} (m : M A) (k : A -> M B) : M B :=
  fun st =>
    match m st with
    | (Returns a, st') => k a st'
    | (Raises f, st') => (Raises f, st')
    end.

Definition raise {A} (f : fault) : M A := fun st => (Raises f, st).

Definition printf (line : string) : M unit :=
  fun st => (Returns tt, mkState (stream st) (log st ++ [line])).

Definition LogPrintf (line : string) : M unit :=
  fun st => (Returns tt, mkState (stream st) (log st ++ [line])).

(** The two directions of one [READWRITE(x)]: the bytes a write appends,
    and a read, which yields the value or throws ([None]) and leaves the
    rest of the stream.  [fits] is the set of values the wire format
    represents. *)
Record Codec (T : Type) : Type := mkCodec {
  put : T -> list byte;
  get : list byte -> option T * list byte;
  fits : T -> Prop
}.

Arguments put {T} c x.
Arguments get {T} c s.
Arguments fits {T} c x.

(** [s >> x] *)
Definition read {T} (c : Codec T) : M T :=
  fun st =>
    match get c (stream st) with
    | (Some x, s') => (Returns x, mkState s' (log st))
    | (None, s') => (Raises StdException, mkState s' (log st))
    end.

(** A value written and read back is the same value, and the read stops
    where the write stopped. *)
Definition roundtrips {T} (c : Codec T) : Prop :=
  forall x rest, fits c x -> get c (put c x ++ rest) = (Some x, rest).

End Stream.

Declare Scope stream_scope.
Delimit Scope stream_scope with stream.
Notation "x <- m ;; k" := (Stream.bind m (fun x => k))
  (at level 61, m at next level, right associativity) : stream_scope.

(** The stream primitives and the payload classes that pbaas.h includes
    from other headers (serialize.h, uint256.h, primitives/block.h,
    pbaas/reserves.h, ...): each comes with its serialization only. *)
Class Wire : Type := {
  uint16_codec : Stream.Codec Z;               (* READWRITE of a uint16_t *)
  uint32_codec : Stream.Codec Z;               (* READWRITE of a uint32_t *)
  varint_int32_codec : Stream.Codec Z;         (* READWRITE(VARINT(x)), x an int32_t *)
  uint256 : Type;
  uint256_codec : Stream.Codec uint256;
  vector_uint256_codec : Stream.Codec (list uint256);
  CBlockHeaderAndProof : Type;
  CBlockHeaderAndProof_codec : Stream.Codec CBlockHeaderAndProof;
  CPartialTransactionProof : Type;
  CPartialTransactionProof_codec : Stream.Codec CPartialTransactionProof;
  CBlockHeaderProof : Type;
  CBlockHeaderProof_codec : Stream.Codec CBlockHeaderProof;
  CReserveTransfer : Type;
  CReserveTransfer_codec : Stream.Codec CReserveTransfer
}.

(** What the container code relies on: every primitive reads back what it
    wrote, and the integer primitives represent the whole range of their
    C++ type that the container can hold (a count is never negative). *)
Record WireOK (W : Wire) : Prop := {
  uint16_ok : Stream.roundtrips uint16_codec;
  uint16_range : forall z, 0 <= z < 2 ^ 16 -> Stream.fits uint16_codec z;
  uint32_ok : Stream.roundtrips uint32_codec;
  uint32_range : forall z, 0 <= z < 2 ^ 32 -> Stream.fits uint32_codec z;
  varint_int32_ok : Stream.roundtrips varint_int32_codec;
  varint_int32_range : forall z, 0 <= z < 2 ^ 31 -> Stream.fits varint_int32_codec z;
  uint256_ok : Stream.roundtrips uint256_codec;
  vector_uint256_ok : Stream.roundtrips vector_uint256_codec;
  CBlockHeaderAndProof_ok : Stream.roundtrips CBlockHeaderAndProof_codec;
  CPartialTransactionProof_ok : Stream.roundtrips CPartialTransactionProof_codec;
  CBlockHeaderProof_ok : Stream.roundtrips CBlockHeaderProof_codec;
  CReserveTransfer_ok : Stream.roundtrips CReserveTransfer_codec
}.

(** The other direction: what a read returns is a value of the wire
    format; a [uint32_t] and an [int32_t] are in the range of their type. *)
Record WireSound (W : Wire) : Prop := {
  uint32_sound : forall s v s',
    Stream.get uint32_codec s = (Some v, s') -> 0 <= v < 2 ^ 32;
  varint_int32_sound : forall s v s',
    Stream.get varint_int32_codec s = (Some v, s') -> v < 2 ^ 31;
  uint256_sound : forall s x s',
    Stream.get uint256_codec s = (Some x, s') -> Stream.fits uint256_codec x;
  vector_uint256_sound : forall s x s',
    Stream.get vector_uint256_codec s = (Some x, s') ->
    Stream.fits vector_uint256_codec x;
  CBlockHeaderAndProof_sound : forall s x s',
    Stream.get CBlockHeaderAndProof_codec s = (Some x, s') ->
    Stream.fits CBlockHeaderAndProof_codec x;
  CPartialTransactionProof_sound : forall s x s',
    Stream.get CPartialTransactionProof_codec s = (Some x, s') ->
    Stream.fits CPartialTransactionProof_codec x;
  CBlockHeaderProof_sound : forall s x s',
    Stream.get CBlockHeaderProof_codec s = (Some x, s') ->
    Stream.fits CBlockHeaderProof_codec x;
  CReserveTransfer_sound : forall s x s',
    Stream.get CReserveTransfer_codec s = (Some x, s') ->
    Stream.fits CReserveTransfer_codec x
}.

(* ================================================================== *)
(** * pbaas/pbaas.h: chain objects *)

Module PBaaS.
Import Stream.
Local Open Scope stream_scope.

(** [enum CHAIN_OBJECT_TYPES] *)
Inductive CHAIN_OBJECT_TYPES : Type :=
| CHAINOBJ_INVALID
| CHAINOBJ_HEADER
| CHAINOBJ_HEADER_REF
| CHAINOBJ_TRANSACTION_PROOF
| CHAINOBJ_PROOF_ROOT
| CHAINOBJ_PRIORBLOCKS
| CHAINOBJ_RESERVETRANSFER
| CHAINOBJ_COMPOSITEOBJECT
| CHAINOBJ_CROSSCHAINPROOF.

(** The value of each enumerator. *)
Definition type_code (t : CHAIN_OBJECT_TYPES) : Z :=
  match t with
  | CHAINOBJ_INVALID => 0
  | CHAINOBJ_HEADER => 1
  | CHAINOBJ_HEADER_REF => 2
  | CHAINOBJ_TRANSACTION_PROOF => 3
  | CHAINOBJ_PROOF_ROOT => 4
  | CHAINOBJ_PRIORBLOCKS => 5
  | CHAINOBJ_RESERVETRANSFER => 6
  | CHAINOBJ_COMPOSITEOBJECT => 7
  | CHAINOBJ_CROSSCHAINPROOF => 8
  end.

(** The enumerator a [switch] on an integer selects, if any. *)
Definition chain_object_type (code : Z) : option CHAIN_OBJECT_TYPES :=
  match code with
  | 0 => Some CHAINOBJ_INVALID
  | 1 => Some CHAINOBJ_HEADER
  | 2 => Some CHAINOBJ_HEADER_REF
  | 3 => Some CHAINOBJ_TRANSACTION_PROOF
  | 4 => Some CHAINOBJ_PROOF_ROOT
  | 5 => Some CHAINOBJ_PRIORBLOCKS
  | 6 => Some CHAINOBJ_RESERVETRANSFER
  | 7 => Some CHAINOBJ_COMPOSITEOBJECT
  | 8 => Some CHAINOBJ_CROSSCHAINPROOF
  | _ => None
  end.

(** ** COpRetProof *)

Section OpRetProof.
Context {W : Wire}.

Record COpRetProof : Type := mkCOpRetProof {
  orIndex : Z;
  types : list Z;            (* std::vector<uint8_t> *)
  hashes : list uint256
}.

(** [COpRetProof() : orIndex(0), types(0), hashes(0)] *)
Definition COpRetProof_default : COpRetProof := mkCOpRetProof 0 [] [].

(** [void AddObject(CHAIN_OBJECT_TYPES typeCode, uint256 objHash)] *)
Definition AddObject (this : COpRetProof) (typeCode : CHAIN_OBJECT_TYPES)
  (objHash : uint256) : COpRetProof :=
  mkCOpRetProof (orIndex this)
    (types this ++ [MachineInt.to_uint8 (type_code typeCode)])
    (hashes this ++ [objHash]).

(** [template <typename CHAINOBJTYPE> void AddObject(CHAINOBJTYPE &co,
    uint256 objHash)]; [ObjTypeCode] is declared in pbaas.h and defined
    elsewhere, so the code it returns for [co] is an argument here. *)
Definition AddObject_of (this : COpRetProof) (ObjTypeCode_co : Z)
  (objHash : uint256) : COpRetProof :=
  mkCOpRetProof (orIndex this)
    (types this ++ [MachineInt.to_uint8 ObjTypeCode_co])
    (hashes this ++ [objHash]).

(** One call of either overload. *)
Inductive AddObject_call : Type :=
| call_AddObject (typeCode : CHAIN_OBJECT_TYPES) (objHash : uint256)
| call_AddObject_of (ObjTypeCode_co : Z) (objHash : uint256).

Definition run_call (this : COpRetProof) (c : AddObject_call) : COpRetProof :=
  match c with
  | call_AddObject t h => AddObject this t h
  | call_AddObject_of t h => AddObject_of this t h
  end.

Definition run_calls (this : COpRetProof) (cs : list AddObject_call) : COpRetProof :=
  fold_left run_call cs this.

End OpRetProof.

(** ** Chain objects and the cross-chain proof container *)

Section ChainObjects.
Context {W : Wire}.
Local Set Warnings "-register-all".

Record CPriorBlocksCommitment : Type := mkCPriorBlocksCommitment {
  priorBlocks : list uint256;
  pastBlockType : uint256
}.

(** [CPriorBlocksCommitment::SerializationOp]:
    [READWRITE(priorBlocks); READWRITE(pastBlockType);] *)
Definition CPriorBlocksCommitment_codec : Codec CPriorBlocksCommitment :=
  mkCodec CPriorBlocksCommitment
    (fun o => put vector_uint256_codec (priorBlocks o)
              ++ put uint256_codec (pastBlockType o))
    (fun s =>
       match get vector_uint256_codec s with
       | (Some priors, s1) =>
           match get uint256_codec s1 with
           | (Some pastTypes, s2) => (Some (mkCPriorBlocksCommitment priors pastTypes), s2)
           | (None, s2) => (None, s2)
           end
       | (None, s1) => (None, s1)
       end)
    (fun o => fits vector_uint256_codec (priorBlocks o)
              /\ fits uint256_codec (pastBlockType o)).

(** The [object] member of a [CChainObject<SERIALIZABLE>], one constructor
    for each SERIALIZABLE the header instantiates.  [CCompositeChainObject]
    derives from [CCrossChainProof] and adds no member (the two "must remain
    cast/data compatible"), so both are held by [ObjCrossChainProof]. *)
Inductive Object (Proof : Type) : Type :=
| ObjBlockHeaderAndProof (o : CBlockHeaderAndProof)
| ObjPartialTransactionProof (o : CPartialTransactionProof)
| ObjUint256 (o : uint256)
| ObjBlockHeaderProof (o : CBlockHeaderProof)
| ObjPriorBlocksCommitment (o : CPriorBlocksCommitment)
| ObjReserveTransfer (o : CReserveTransfer)
| ObjCrossChainProof (o : Proof).

Arguments ObjBlockHeaderAndProof {Proof} o.
Arguments ObjPartialTransactionProof {Proof} o.
Arguments ObjUint256 {Proof} o.
Arguments ObjBlockHeaderProof {Proof} o.
Arguments ObjPriorBlocksCommitment {Proof} o.
Arguments ObjReserveTransfer {Proof} o.
Arguments ObjCrossChainProof {Proof} o.

(** What a [CBaseChainObject *] of the container points to: the
    [objectType] of the base class and the [object] of the
    [CChainObject<SERIALIZABLE>] that was allocated.  Nothing ties the
    two together. *)
Record CChainObject (Proof : Type) : Type := mkCChainObject {
  objectType : Z;                       (* uint16_t *)
  object : Object Proof
}.

Arguments mkCChainObject {Proof} objectType object.
Arguments objectType {Proof} c.
Arguments object {Proof} c.

Inductive CCrossChainProof : Type := mkCCrossChainProof {
  version : Z;                                         (* uint32_t *)
  chainObjects : list (CChainObject CCrossChainProof)
}.

Definition VERSION_INVALID : Z := 0.
Definition VERSION_FIRST : Z := 1.
Definition VERSION_CURRENT : Z := 1.
Definition VERSION_LAST : Z := 1.

(** [CCrossChainProof() : version(VERSION_CURRENT) {}] *)
Definition CCrossChainProof_default : CCrossChainProof :=
  mkCCrossChainProof VERSION_CURRENT [].

(** Modelled from the spec: [DeleteOpRetObjects] is declared in pbaas.h and
    defined elsewhere; the spec has the container "discard all
    already-decoded elements", so it frees the objects and leaves the
    vector empty. *)
Definition DeleteOpRetObjects
  (ora : list (CChainObject CCrossChainProof)) : list (CChainObject CCrossChainProof) := [].

(** *** Writing *)

(** [CBaseChainObject::SerializationOp]: [READWRITE(objectType);] *)
Definition CBaseChainObject_Serialize (objType : Z) : list byte :=
  put uint16_codec objType.

(** [CChainObject<SERIALIZABLE>::SerializationOp]:
    [READWRITE( *(CBaseChainObject * )this); READWRITE(object);] *)
Definition CChainObject_Serialize (objType : Z) (object_bytes : list byte) : list byte :=
  CBaseChainObject_Serialize objType ++ object_bytes.

(** [s << obj; return true;] for an object of type
    [CChainObject<SERIALIZABLE>], given the bytes of its [object] member. *)
Definition written (objType : Z) (object_bytes : option (list byte))
  : option (list byte * bool) :=
  match object_bytes with
  | Some b => Some (CChainObject_Serialize objType b, true)
  | None => None
  end.

Section Dehydrate.
Variable Proof : Type.
(** [s << x] for a [CCrossChainProof] and for a [CCompositeChainObject]. *)
Variable Serialize_proof : Proof -> option (list byte).
Variable Serialize_composite : Proof -> option (list byte).

(** [bool DehydrateChainObject(OStream &s, const CBaseChainObject *pobj)]:
    the bytes appended to [s] and the value returned.  Each case casts
    [pobj] to the [CChainObject<SERIALIZABLE>] of its tag; the result is
    [None] when the object is not one. *)
Definition DehydrateChainObject_with (pobj : CChainObject Proof)
  : option (list byte * bool) :=
  match pobj with
  | mkCChainObject objType obj =>
    match chain_object_type objType with
    | Some CHAINOBJ_HEADER =>
        match obj with
        | ObjBlockHeaderAndProof x =>
            written objType (Some (put CBlockHeaderAndProof_codec x))
        | _ => None
        end
    | Some CHAINOBJ_TRANSACTION_PROOF =>
        match obj with
        | ObjPartialTransactionProof x =>
            written objType (Some (put CPartialTransactionProof_codec x))
        | _ => None
        end
    | Some CHAINOBJ_PROOF_ROOT =>
        match obj with
        | ObjUint256 x => written objType (Some (put uint256_codec x))
        | _ => None
        end
    | Some CHAINOBJ_HEADER_REF =>
        match obj with
        | ObjBlockHeaderProof x =>
            written objType (Some (put CBlockHeaderProof_codec x))
        | _ => None
        end
    | Some CHAINOBJ_PRIORBLOCKS =>
        match obj with
        | ObjPriorBlocksCommitment x =>
            written objType (Some (put CPriorBlocksCommitment_codec x))
        | _ => None
        end
    | Some CHAINOBJ_RESERVETRANSFER =>
        match obj with
        | ObjReserveTransfer x =>
            written objType (Some (put CReserveTransfer_codec x))
        | _ => None
        end
    | Some CHAINOBJ_CROSSCHAINPROOF =>
        match obj with
        | ObjCrossChainProof x => written objType (Serialize_proof x)
        | _ => None
        end
    | Some CHAINOBJ_COMPOSITEOBJECT =>
        match obj with
        | ObjCrossChainProof x => written objType (Serialize_composite x)
        | _ => None
        end
    | Some CHAINOBJ_INVALID | None => Some ([], false)
    end
  end.

(** [for (auto &oneVal : chainObjects) DehydrateChainObject(s, oneVal);]
    The value [DehydrateChainObject] returns is dropped. *)
Fixpoint Dehydrate_all (objs : list (CChainObject Proof)) : option (list byte) :=
  match objs with
  | [] => Some []
  | oneVal :: rest =>
      match DehydrateChainObject_with oneVal with
      | Some (b, _) =>
          match Dehydrate_all rest with
          | Some bs => Some (b ++ bs)
          | None => None
          end
      | None => None
      end
  end.

End Dehydrate.

(** [CCrossChainProof::SerializationOp], the branch taken when writing.
    [CCompositeChainObject::SerializationOp] is
    [READWRITE( *(CCrossChainProof * )this);], the same function. *)
Fixpoint CCrossChainProof_Serialize (this : CCrossChainProof) : option (list byte) :=
  match this with
  | mkCCrossChainProof ver objs =>
      let proofSize := MachineInt.to_int32 (Z.of_nat (length objs)) in
      match Dehydrate_all CCrossChainProof
              CCrossChainProof_Serialize CCrossChainProof_Serialize objs with
      | Some body =>
          Some (put uint32_codec ver ++ put varint_int32_codec proofSize ++ body)
      | None => None
      end
  end.

(** [class CCompositeChainObject : public CCrossChainProof] *)
Definition CCompositeChainObject : Type := CCrossChainProof.

Definition CCompositeChainObject_Serialize (this : CCompositeChainObject)
  : option (list byte) :=
  CCrossChainProof_Serialize this.

Definition DehydrateChainObject (pobj : CChainObject CCrossChainProof)
  : option (list byte * bool) :=
  DehydrateChainObject_with CCrossChainProof
    CCrossChainProof_Serialize CCompositeChainObject_Serialize pobj.

(** *** Reading *)

(** The line written, by [printf] and by [LogPrintf], when an element
    fails to decode ([__func__] is [SerializationOp]). *)
Definition corrupt_opret : string :=
  "SerializationOp: ERROR: opret is likely corrupt".

Section Unserialize.
(** [s >> x] into a [CCrossChainProof] whose [chainObjects] are given. *)
Variable Unserialize_nested :
  list (CChainObject CCrossChainProof) -> M CCrossChainProof.

(** [CDataStream s(SER_NETWORK, PROTOCOL_VERSION); s << operand; s >> *this;]
    on a stream of its own: the caller's stream does not move, the log is
    shared.  [this_objects] is what [chainObjects] holds when the read
    starts. *)
Definition through_stream (operand : CCrossChainProof)
  (this_objects : list (CChainObject CCrossChainProof)) : M CCrossChainProof :=
  fun st =>
    match CCrossChainProof_Serialize operand with
    | None => (Raises BadCast, st)
    | Some s =>
        match Unserialize_nested this_objects (mkState s (log st)) with
        | (r, st') => (r, mkState (stream st) (log st'))
        end
    end.

(** [const CCrossChainProof &operator=(const CCrossChainProof &operand)] *)
Definition assign (this operand : CCrossChainProof) : M CCrossChainProof :=
  through_stream operand (DeleteOpRetObjects (chainObjects this)).

(** [CCrossChainProof obj; READWRITE(obj);
     pCrossChainProof = new CChainObject<CCrossChainProof>();
     pCrossChainProof->objectType = objType; pCrossChainProof->object = obj;] *)
Definition read_nested (objType : Z) : M (option (CChainObject CCrossChainProof)) :=
  obj <- Unserialize_nested (chainObjects CCrossChainProof_default) ;;
  new_object <- assign CCrossChainProof_default obj ;;
  ret (Some (mkCChainObject objType (ObjCrossChainProof new_object))).

(** The body of the [try] block: one element, or no object ([pobj] stays
    [nullptr]) when no case of the [switch] is selected. *)
Definition read_element : M (option (CChainObject CCrossChainProof)) :=
  objType <- read uint16_codec ;;
  match chain_object_type objType with
  | Some CHAINOBJ_HEADER =>
      obj <- read CBlockHeaderAndProof_codec ;;
      ret (Some (mkCChainObject objType (ObjBlockHeaderAndProof obj)))
  | Some CHAINOBJ_TRANSACTION_PROOF =>
      obj <- read CPartialTransactionProof_codec ;;
      ret (Some (mkCChainObject objType (ObjPartialTransactionProof obj)))
  | Some CHAINOBJ_PROOF_ROOT =>
      obj <- read uint256_codec ;;
      ret (Some (mkCChainObject objType (ObjUint256 obj)))
  | Some CHAINOBJ_HEADER_REF =>
      obj <- read CBlockHeaderProof_codec ;;
      ret (Some (mkCChainObject objType (ObjBlockHeaderProof obj)))
  | Some CHAINOBJ_PRIORBLOCKS =>
      obj <- read CPriorBlocksCommitment_codec ;;
      ret (Some (mkCChainObject objType (ObjPriorBlocksCommitment obj)))
  | Some CHAINOBJ_RESERVETRANSFER =>
      obj <- read CReserveTransfer_codec ;;
      ret (Some (mkCChainObject objType (ObjReserveTransfer obj)))
  | Some CHAINOBJ_CROSSCHAINPROOF =>
      read_nested objType
  | Some CHAINOBJ_COMPOSITEOBJECT =>
      read_nested (type_code CHAINOBJ_COMPOSITEOBJECT)
  | Some CHAINOBJ_INVALID | None =>
      ret None
  end.

(** [for (int i = 0; i < proofSize && !error; i++) { try { ... } catch
    (const std::exception& e) { error = true; break; } }] with [n]
    iterations left: the value of [error] and of [chainObjects] after the
    loop. *)
Fixpoint read_elements (n : nat) (objs : list (CChainObject CCrossChainProof))
  : M (bool * list (CChainObject CCrossChainProof)) :=
  match n with
  | O => ret (false, objs)
  | S n' =>
      fun st =>
        match read_element st with
        | (Returns (Some pobj), st') => read_elements n' (objs ++ [pobj]) st'
        | (Returns None, st') => read_elements n' objs st'
        | (Raises StdException, st') => (Returns (true, objs), st')
        | (Raises f, st') => (Raises f, st')
        end
  end.

(** [CCrossChainProof::SerializationOp], the branch taken when reading. *)
Definition Unserialize_body (this_objects : list (CChainObject CCrossChainProof))
  : M CCrossChainProof :=
  ver <- read uint32_codec ;;
  proofSize <- read varint_int32_codec ;;
  r <- read_elements (Z.to_nat proofSize) this_objects ;;
  if fst r
  then _ <- printf corrupt_opret ;;
       _ <- LogPrintf corrupt_opret ;;
       ret (mkCCrossChainProof ver (DeleteOpRetObjects (snd r)))
  else ret (mkCCrossChainProof ver (snd r)).

End Unserialize.

(** A container inside a container is read by the same function; [fuel]
    bounds the nesting the embedding follows. *)
Fixpoint CCrossChainProof_Unserialize (fuel : nat)
  (this_objects : list (CChainObject CCrossChainProof)) : M CCrossChainProof :=
  match fuel with
  | O => raise OutOfFuel
  | S fuel' => Unserialize_body (CCrossChainProof_Unserialize fuel') this_objects
  end.

(** [CCrossChainProof(const CCrossChainProof &oldObj)] *)
Definition CCrossChainProof_copy (fuel : nat) (oldObj : CCrossChainProof)
  : M CCrossChainProof :=
  through_stream (CCrossChainProof_Unserialize fuel) oldObj [].

(** [operator=] *)
Definition CCrossChainProof_assign (fuel : nat) (this operand : CCrossChainProof)
  : M CCrossChainProof :=
  assign (CCrossChainProof_Unserialize fuel) this operand.

(** *** The other members *)

(** [bool IsValid() const] *)
Definition IsValid (this : CCrossChainProof) : bool :=
  (VERSION_FIRST <=? version this) || (version this <=? VERSION_LAST).

(** [bool Empty() const] *)
Definition Empty (this : CCrossChainProof) : bool :=
  (length (chainObjects this) =? 0)%nat.

(** [const std::vector<uint16_t> TypeVector() const] *)
Definition TypeVector (this : CCrossChainProof) : list Z :=
  map objectType (chainObjects this).

(** [chainObjects.push_back(new CChainObject<SERIALIZABLE>(objType, rObject))] *)
Definition push_back_new (this : CCrossChainProof) (objType : CHAIN_OBJECT_TYPES)
  (rObject : Object CCrossChainProof) : CCrossChainProof :=
  mkCCrossChainProof (version this)
    (chainObjects this ++ [mkCChainObject (type_code objType) rObject]).

(** The overloads of [operator<<], named by the type of their operand. *)
Definition append_CPartialTransactionProof this (partialTxProof : CPartialTransactionProof) :=
  push_back_new this CHAINOBJ_TRANSACTION_PROOF (ObjPartialTransactionProof partialTxProof).

Definition append_CBlockHeaderAndProof this (headerRefProof : CBlockHeaderAndProof) :=
  push_back_new this CHAINOBJ_HEADER_REF (ObjBlockHeaderAndProof headerRefProof).

Definition append_CBlockHeaderProof this (headerProof : CBlockHeaderProof) :=
  push_back_new this CHAINOBJ_HEADER (ObjBlockHeaderProof headerProof).

Definition append_CPriorBlocksCommitment this (priorBlocks : CPriorBlocksCommitment) :=
  push_back_new this CHAINOBJ_PRIORBLOCKS (ObjPriorBlocksCommitment priorBlocks).

Definition append_uint256 this (proofRoot : uint256) :=
  push_back_new this CHAINOBJ_PROOF_ROOT (ObjUint256 proofRoot).

Definition append_CReserveTransfer this (reserveTransfer : CReserveTransfer) :=
  push_back_new this CHAINOBJ_RESERVETRANSFER (ObjReserveTransfer reserveTransfer).

(** [new CChainObject<CCrossChainProof>(CHAINOBJ_CROSSCHAINPROOF, crossChainProof)]:
    the constructor of [CChainObject] initialises [object(rObject)], and
    the copy constructor of [CCrossChainProof] writes its operand to a
    stream and reads the copy from it; what is pushed is that copy.  An
    exception of the copy leaves the operator before anything is pushed. *)
Definition append_CCrossChainProof (fuel : nat) this
  (crossChainProof : CCrossChainProof) : M CCrossChainProof :=
  object <- CCrossChainProof_copy fuel crossChainProof ;;
  ret (push_back_new this CHAINOBJ_CROSSCHAINPROOF (ObjCrossChainProof object)).

(** [CCompositeChainObject::operator<<(const CCompositeChainObject &)]:
    the copy constructor of [CCompositeChainObject] is the implicit one,
    which copies the [CCrossChainProof] base with its copy constructor. *)
Definition append_CCompositeChainObject (fuel : nat) (this : CCompositeChainObject)
  (compositeChainObject : CCompositeChainObject) : M CCompositeChainObject :=
  object <- CCrossChainProof_copy fuel compositeChainObject ;;
  ret (push_back_new this CHAINOBJ_COMPOSITEOBJECT (ObjCrossChainProof object)).

(** *** Vocabulary of the statements *)

(** The SERIALIZABLE types. *)
Inductive SERIALIZABLE : Type :=
| T_CBlockHeaderAndProof
| T_CPartialTransactionProof
| T_uint256
| T_CBlockHeaderProof
| T_CPriorBlocksCommitment
| T_CReserveTransfer
| T_CCrossChainProof.

Definition type_of {Proof} (o : Object Proof) : SERIALIZABLE :=
  match o with
  | ObjBlockHeaderAndProof _ => T_CBlockHeaderAndProof
  | ObjPartialTransactionProof _ => T_CPartialTransactionProof
  | ObjUint256 _ => T_uint256
  | ObjBlockHeaderProof _ => T_CBlockHeaderProof
  | ObjPriorBlocksCommitment _ => T_CPriorBlocksCommitment
  | ObjReserveTransfer _ => T_CReserveTransfer
  | ObjCrossChainProof _ => T_CCrossChainProof
  end.

(** The type of the local [obj] that the case of a tag reads in the
    [switch] of [CCrossChainProof::SerializationOp]. *)
Definition decode_branch (t : CHAIN_OBJECT_TYPES) : option SERIALIZABLE :=
  match t with
  | CHAINOBJ_HEADER => Some T_CBlockHeaderAndProof
  | CHAINOBJ_TRANSACTION_PROOF => Some T_CPartialTransactionProof
  | CHAINOBJ_PROOF_ROOT => Some T_uint256
  | CHAINOBJ_HEADER_REF => Some T_CBlockHeaderProof
  | CHAINOBJ_PRIORBLOCKS => Some T_CPriorBlocksCommitment
  | CHAINOBJ_RESERVETRANSFER => Some T_CReserveTransfer
  | CHAINOBJ_CROSSCHAINPROOF => Some T_CCrossChainProof
  | CHAINOBJ_COMPOSITEOBJECT => Some T_CCrossChainProof
  | CHAINOBJ_INVALID => None
  end.

(** A supported tag together with a payload of that tag's type, each
    payload being a value its serialization represents. *)
Definition well_tagged (inner : CCrossChainProof -> Prop)
  (o : CChainObject CCrossChainProof) : Prop :=
  match object o with
  | ObjBlockHeaderAndProof x =>
      objectType o = type_code CHAINOBJ_HEADER /\ fits CBlockHeaderAndProof_codec x
  | ObjPartialTransactionProof x =>
      objectType o = type_code CHAINOBJ_TRANSACTION_PROOF
      /\ fits CPartialTransactionProof_codec x
  | ObjUint256 x =>
      objectType o = type_code CHAINOBJ_PROOF_ROOT /\ fits uint256_codec x
  | ObjBlockHeaderProof x =>
      objectType o = type_code CHAINOBJ_HEADER_REF /\ fits CBlockHeaderProof_codec x
  | ObjPriorBlocksCommitment x =>
      objectType o = type_code CHAINOBJ_PRIORBLOCKS /\ fits CPriorBlocksCommitment_codec x
  | ObjReserveTransfer x =>
      objectType o = type_code CHAINOBJ_RESERVETRANSFER /\ fits CReserveTransfer_codec x
  | ObjCrossChainProof p =>
      (objectType o = type_code CHAINOBJ_CROSSCHAINPROOF
       \/ objectType o = type_code CHAINOBJ_COMPOSITEOBJECT) /\ inner p
  end.

(** The containers the codec is made for: [version] is a [uint32_t], the
    number of objects fits the [int32_t] it is written as, and every object,
    at every depth, is well tagged. *)
Fixpoint Decodable (c : CCrossChainProof) : Prop :=
  match c with
  | mkCCrossChainProof ver objs =>
      0 <= ver < 2 ^ 32 /\
      Z.of_nat (length objs) < 2 ^ 31 /\
      (fix all (l : list (CChainObject CCrossChainProof)) : Prop :=
         match l with
         | [] => True
         | o :: l' => well_tagged Decodable o /\ all l'
         end) objs
  end.

(** Containers nested in [c], counting [c]. *)
Fixpoint depth (c : CCrossChainProof) : nat :=
  match c with
  | mkCCrossChainProof _ objs =>
      S (list_max
           (map (fun o =>
                   match o with
                   | mkCChainObject _ (ObjCrossChainProof p) => depth p
                   | _ => O
                   end) objs))
  end.

(** The container [p] is written, and a reader that follows [fuel] levels
    of nesting reads it back from what was written, appending its objects
    to those it starts with. *)
Definition reads_back (fuel : nat) (p : CCrossChainProof) : Prop :=
  exists b,
    CCrossChainProof_Serialize p = Some b /\
    forall objs0 rest lg,
      CCrossChainProof_Unserialize fuel objs0 (mkState (b ++ rest) lg)
      = (Returns (mkCCrossChainProof (version p) (objs0 ++ chainObjects p)),
         mkState rest lg).

(** Containers nested in an object. *)
Definition object_depth (o : CChainObject CCrossChainProof) : nat :=
  match object o with
  | ObjCrossChainProof p => depth p
  | _ => O
  end.

(** Whether the [switch] of the reader has a case for [objType]. *)
Definition has_case (objType : Z) : bool :=
  match chain_object_type objType with
  | Some CHAINOBJ_INVALID | None => false
  | Some _ => true
  end.

(** [element_raises read_one n st st']: in a loop with [n] iterations left
    that starts in state [st], the elements before some element are read
    and the read of that element throws a [std::exception], in state
    [st']. *)
Inductive element_raises (read_one : M (option (CChainObject CCrossChainProof)))
  : nat -> State -> State -> Prop :=
| raises_here n st st' :
    read_one st = (Raises StdException, st') ->
    element_raises read_one (S n) st st'
| raises_later n st pobj st1 st' :
    read_one st = (Returns pobj, st1) ->
    element_raises read_one n st1 st' ->
    element_raises read_one (S n) st st'.

End ChainObjects.

Arguments ObjBlockHeaderAndProof {W Proof} o.
Arguments ObjPartialTransactionProof {W Proof} o.
Arguments ObjUint256 {W Proof} o.
Arguments ObjBlockHeaderProof {W Proof} o.
Arguments ObjPriorBlocksCommitment {W Proof} o.
Arguments ObjReserveTransfer {W Proof} o.
Arguments ObjCrossChainProof {W Proof} o.
Arguments mkCChainObject {W Proof} objectType object.
Arguments objectType {W Proof} c.
Arguments object {W Proof} c.

End PBaaS.

(* ================================================================== *)
(** * pbaas/pbaas.h: the merge-mined chain registry *)

Module Registry.

(** [std::map<Key, T>] with integer keys ([uint160], [arith_uint256]
    compared as numbers): its elements in iteration order, which is the
    order of the keys. *)
Definition std_map (T : Type) : Type := list (Z * T).

(** The invariant of a [std::map]: keys strictly increase along the
    iteration. *)
Fixpoint map_ok {T} (m : std_map T) : Prop :=
  match m with
  | [] => True
  | (k, _) :: m' =>
      match m' with
      | [] => True
      | (k', _) :: _ => k < k'
      end /\ map_ok m'
  end.

Definition map_size {T} (m : std_map T) : nat := length m.

(** [m.begin()], when there is an element. *)
Definition map_begin {T} (m : std_map T) : option (Z * T) :=
  match m with
  | [] => None
  | e :: _ => Some e
  end.

Fixpoint map_find {T} (k : Z) (m : std_map T) : option T :=
  match m with
  | [] => None
  | (k', v) :: m' => if k' =? k then Some v else map_find k m'
  end.

(** [m.erase(k)] *)
Fixpoint map_erase {T} (k : Z) (m : std_map T) : std_map T :=
  match m with
  | [] => []
  | (k', v) :: m' => if k' =? k then m' else (k', v) :: map_erase k m'
  end.

(** [class CPBaaSMergeMinedChainData : public CRPCChainData], with the
    chain definition seen through [GetID()] and the candidate block
    through the target it has to meet. *)
Record CPBaaSMergeMinedChainData : Type := mkCPBaaSMergeMinedChainData {
  GetID : Z;                 (* chainDefinition.GetID(), a uint160 *)
  rpcHost : string;
  rpcPort : Z;
  rpcUserPass : string;
  blockTarget : Z            (* the target of [block], an arith_uint256 *)
}.

(** [class CConnectedChains]: the two maps of the merge-mined chains.  A
    [CPBaaSMergeMinedChainData *] of the target index is the key of the
    element of [mergeMinedChains] it points to. *)
Record CConnectedChains : Type := mkCConnectedChains {
  mergeMinedChains : std_map CPBaaSMergeMinedChainData;
  mergeMinedTargets : std_map Z
}.

(** [arith_uint256 LowestTarget()] *)
Definition LowestTarget (this : CConnectedChains) : Z :=
  if (0 <? map_size (mergeMinedTargets this))%nat
  then match map_begin (mergeMinedTargets this) with
       | Some e => fst e
       | None => 0
       end
  else 0.

(** Modelled from the spec: [RemoveMergedBlock] is declared in pbaas.h and
    defined elsewhere.  "removeChain(chainID): remove from both the chain
    map and target index; safe to call for an absent ID (no-op)". *)
Definition RemoveMergedBlock (this : CConnectedChains) (chainID : Z)
  : bool * CConnectedChains :=
  match map_find chainID (mergeMinedChains this) with
  | None => (false, this)
  | Some _ =>
      (true,
       mkCConnectedChains
         (map_erase chainID (mergeMinedChains this))
         (filter (fun e => negb (snd e =? chainID)) (mergeMinedTargets this)))
  end.

(** The targets that are registered. *)
Definition registered_targets (this : CConnectedChains) : list Z :=
  map fst (mergeMinedTargets this).

End Registry.

(* ================================================================== *)
(** * A wire layout to run the codec on *)

(** Modelled from the spec: serialize.h, streams.h and the payload classes
    are not part of the sources at hand.  The spec fixes "a 2-byte tag" and
    an "element count as a variable-length integer"; the layout below is
    the one of the Bitcoin code base the program descends from
    (little-endian integers of fixed width, [VARINT], [CompactSize]).  The
    classes [CBlockHeaderAndProof], [CPartialTransactionProof],
    [CBlockHeaderProof] and [CReserveTransfer] are stood in for by a 4-byte
    integer each.  The statements about the container hold for every
    [Wire]; this one serves to evaluate it on concrete streams. *)
Module Layout.
Import Stream.

Definition byte_of_Z (z : Z) : byte :=
  match Byte.of_N (Z.to_N (z mod 256)) with
  | Some b => b
  | None => x00
  end.

Definition Z_of_byte (b : byte) : Z := Z.of_N (Byte.to_N b).

(** [ser_writedata16], [ser_writedata32], ...: [n] bytes, least
    significant first. *)
Fixpoint le_put (n : nat) (z : Z) : list byte :=
  match n with
  | O => []
  | S n' => byte_of_Z z :: le_put n' (z / 256)
  end.

Fixpoint le_value (bs : list byte) : Z :=
  match bs with
  | [] => 0
  | b :: bs' => Z_of_byte b + 256 * le_value bs'
  end.

(** [CDataStream::read]: throws when fewer than [n] bytes are left, and
    then does not move. *)
Definition read_bytes (n : nat) (s : list byte) : option (list byte) * list byte :=
  if (length s <? n)%nat then (None, s) else (Some (firstn n s), skipn n s).

Definition le_get (n : nat) (s : list byte) : option Z * list byte :=
  match read_bytes n s with
  | (Some bs, s') => (Some (le_value bs), s')
  | (None, s') => (None, s')
  end.

Definition le_codec (n : nat) : Codec Z :=
  mkCodec Z (le_put n) (le_get n) (fun z => 0 <= z < 256 ^ Z.of_nat n).

(** [WriteVarInt]: the bytes in the order they are written; [len] is the
    index in [tmp] of the byte computed from [n]. *)
Fixpoint WriteVarInt (fuel : nat) (n : Z) (len : Z) : list byte :=
  let b := byte_of_Z (Z.lor (Z.land n 0x7F) (if len =? 0 then 0x00 else 0x80)) in
  if n <=? 0x7F then [b]
  else match fuel with
       | O => [b]
       | S fuel' => WriteVarInt fuel' (Z.shiftr n 7 - 1) (len + 1) ++ [b]
       end.

(** [ReadVarInt<Stream, int32_t>] with [n] read so far. *)
Fixpoint ReadVarInt (s : list byte) (n : Z) : option Z * list byte :=
  match s with
  | [] => (None, [])
  | chData :: s' =>
      let n1 := MachineInt.to_int32
                  (Z.lor (Z.shiftl n 7) (Z.land (Z_of_byte chData) 0x7F)) in
      if Z.land (Z_of_byte chData) 0x80 =? 0
      then (Some n1, s')
      else ReadVarInt s' (MachineInt.to_int32 (n1 + 1))
  end.

(** [VARINT(x)] for an [int32_t]: [tmp] has [(sizeof(n)*8+6)/7 = 5] bytes. *)
Definition VARINT_int32 : Codec Z :=
  mkCodec Z (fun n => WriteVarInt 4 n 0) (fun s => ReadVarInt s 0)
    (fun z => 0 <= z < 2 ^ 31).

Definition MAX_SIZE : Z := 0x02000000.

(** [WriteCompactSize] *)
Definition WriteCompactSize (nSize : Z) : list byte :=
  if nSize <? 253 then [byte_of_Z nSize]
  else if nSize <=? 0xFFFF then byte_of_Z 253 :: le_put 2 nSize
  else if nSize <=? 0xFFFFFFFF then byte_of_Z 254 :: le_put 4 nSize
  else byte_of_Z 255 :: le_put 8 nSize.

(** [ReadCompactSize]: throws on an encoding that is not the shortest and
    on a size above [MAX_SIZE]. *)
Definition ReadCompactSize (s : list byte) : option Z * list byte :=
  match s with
  | [] => (None, [])
  | chSize :: s1 =>
      let wide (n : nat) (least : Z) :=
        match le_get n s1 with
        | (Some v, s2) =>
            if v <? least then (None, s2)
            else if MAX_SIZE <? v then (None, s2)
            else (Some v, s2)
        | (None, s2) => (None, s2)
        end in
      let c := Z_of_byte chSize in
      if c <? 253 then (Some c, s1)
      else if c =? 253 then wide 2%nat 253
      else if c =? 254 then wide 4%nat 0x10000
      else wide 8%nat 0x100000000
  end.

(** [n] elements read one after the other. *)
Fixpoint get_many {T} (c : Codec T) (n : nat) (s : list byte) : option (list T) * list byte :=
  match n with
  | O => (Some [], s)
  | S n' =>
      match get c s with
      | (Some x, s1) =>
          match get_many c n' s1 with
          | (Some xs, s2) => (Some (x :: xs), s2)
          | (None, s2) => (None, s2)
          end
      | (None, s1) => (None, s1)
      end
  end.

(** [std::vector<T>]: its size, then its elements. *)
Definition vector_codec {T} (c : Codec T) : Codec (list T) :=
  mkCodec (list T)
    (fun v => WriteCompactSize (Z.of_nat (length v)) ++ concat (map (put c) v))
    (fun s =>
       match ReadCompactSize s with
       | (Some n, s1) => get_many c (Z.to_nat n) s1
       | (None, s1) => (None, s1)
       end)
    (fun v => Z.of_nat (length v) <= MAX_SIZE /\ Forall (fits c) v).

(** Modelled from the spec: the primitives of serialize.h in the layout
    described above, and 4-byte stand-ins for the payload classes that are
    defined in other headers. *)
Definition wire : Wire := {|
  uint16_codec := le_codec 2;
  uint32_codec := le_codec 4;
  varint_int32_codec := VARINT_int32;
  uint256 := Z;
  uint256_codec := le_codec 32;
  vector_uint256_codec := vector_codec (le_codec 32);
  CBlockHeaderAndProof := Z;
  CBlockHeaderAndProof_codec := le_codec 4;
  CPartialTransactionProof := Z;
  CPartialTransactionProof_codec := le_codec 4;
  CBlockHeaderProof := Z;
  CBlockHeaderProof_codec := le_codec 4;
  CReserveTransfer := Z;
  CReserveTransfer_codec := le_codec 4
|}.

(** A stream from its bytes, with an empty log. *)
Definition stream_of (bytes : list Z) : State :=
  mkState (map byte_of_Z bytes) [].

End Layout.

(* ================================================================== *)
(** * Concrete containers, streams and registries *)

Module Examples.
Import Stream PBaaS Layout Registry.
#[local] Existing Instance wire.

Definition proof_root (r : Z) : CChainObject CCrossChainProof :=
  mkCChainObject (type_code CHAINOBJ_PROOF_ROOT) (ObjUint256 r).

Definition inner_proof : CCrossChainProof :=
  mkCCrossChainProof 1 [proof_root 7].

(** A cross-chain proof held as an object of a container. *)
Definition nested_object : CChainObject CCrossChainProof :=
  mkCChainObject (type_code CHAINOBJ_CROSSCHAINPROOF) (ObjCrossChainProof inner_proof).

(** A container with a proof root, an empty composite object, a nested
    cross-chain proof and a prior-blocks commitment. *)
Definition outer_proof : CCrossChainProof :=
  mkCCrossChainProof 1
    [ proof_root 5;
      mkCChainObject (type_code CHAINOBJ_COMPOSITEOBJECT)
        (ObjCrossChainProof (mkCCrossChainProof 1 []));
      nested_object;
      mkCChainObject (type_code CHAINOBJ_PRIORBLOCKS)
        (ObjPriorBlocksCommitment (mkCPriorBlocksCommitment [1; 2] 3)) ].

(** Version 1, two elements announced; the first is a proof root of 32
    bytes, the second a proof root cut after 3 bytes. *)
Definition truncated_stream : State :=
  stream_of ([1; 0; 0; 0; 2; 4; 0] ++ repeat 7 32 ++ [4; 0; 1; 2; 3]).

(** [truncated_stream] once [version] and [proofSize] are read ... *)
Definition truncated_elements : State :=
  stream_of ([4; 0] ++ repeat 7 32 ++ [4; 0; 1; 2; 3]).

(** ... and where the read of the second element throws. *)
Definition truncated_at_throw : State := stream_of [1; 2; 3].

(** Version 1, two elements announced; the first has tag 9, which is no
    chain object type, the second is a proof root. *)
Definition unknown_tag_stream : State :=
  stream_of ([1; 0; 0; 0; 2; 9; 0; 4; 0] ++ repeat 0 32).

Definition unknown_tag_elements : State :=
  stream_of ([9; 0; 4; 0] ++ repeat 0 32).

Definition after_unknown_tag : State :=
  stream_of ([4; 0] ++ repeat 0 32).

Definition chain (id target : Z) : CPBaaSMergeMinedChainData :=
  mkCPBaaSMergeMinedChainData id "127.0.0.1" 27486 "user:pass" target.

(** Three chains, with targets 10 < 20 < 30. *)
Definition three_chains : CConnectedChains :=
  mkCConnectedChains
    [(1, chain 1 10); (2, chain 2 20); (3, chain 3 30)]
    [(10, 1); (20, 2); (30, 3)].

End Examples.

(* ================================================================== *)
(** * primitives/nonce.cpp: activation heights *)

Module NonceActivation.

Section Symbol.

(** [extern char ASSETCHAINS_SYMBOL[65]], the name of the running chain. *)
Variable ASSETCHAINS_SYMBOL : string.

(** [bool CPOSNonce::NewPOSActive(int32_t height)]; [strcmp(a, b) == 0]
    is equality of the two strings. *)
Definition NewPOSActive (height : Z) : bool :=
  if (ASSETCHAINS_SYMBOL =? "VRSC")%string || (height <? 96480 + 100) then false
  else if (ASSETCHAINS_SYMBOL =? "VRSCTEST")%string && (height <? 1000 + 100) then false
  else true.

(** [bool CPOSNonce::NewNonceActive(int32_t height)] *)
Definition NewNonceActive (height : Z) : bool :=
  if (ASSETCHAINS_SYMBOL =? "VRSC")%string || (height <? 96480) then false
  else if (ASSETCHAINS_SYMBOL =? "VRSCTEST")%string && (height <? 1000) then false
  else true.

End Symbol.

End NonceActivation.

(** A stand-in for the hash of a [CVerusHashWriter], to run the nonce
    functions on: it mixes the items written, nothing more. *)
Module NonceExamples.
Import Nonce.

Definition toy_hash (items : list hashed_item) : Z :=
  fold_left
    (fun acc i =>
       match i with
       | item_uint256 v => acc * 0x100000001b3 + v + 1
       | item_int32 v => acc * 0x100000001b3 + v + 2
       end)
    items 0xcbf29ce484222325.

End NonceExamples.

(* ================================================================== *)
(** * pbaas/pbaas.h: the other readers, writers and members *)

(** More of serialize.h: the primitives the members below use besides those
    of [Wire]. *)
Class MoreWire : Type := {
  int16_codec : Stream.Codec Z;                (* s >> x, x an int16_t *)
  int32_codec : Stream.Codec Z;                (* READWRITE of an int32_t *)
  vector_uint8_codec : Stream.Codec (list Z)   (* READWRITE of a std::vector<uint8_t> *)
}.

Module PBaaSMore.
Import Stream PBaaS.
Local Open Scope stream_scope.

Section Members.
Context {W : Wire} {MW : MoreWire}.

(** ** COpRetProof on the wire *)

(** [COpRetProof::SerializationOp]:
    [READWRITE(orIndex); READWRITE(types); READWRITE(hashes);] *)
Definition COpRetProof_codec : Codec COpRetProof :=
  mkCodec COpRetProof
    (fun o => put uint32_codec (orIndex o)
              ++ put vector_uint8_codec (types o)
              ++ put vector_uint256_codec (hashes o))
    (fun s =>
       match get uint32_codec s with
       | (Some index, s1) =>
           match get vector_uint8_codec s1 with
           | (Some ts, s2) =>
               match get vector_uint256_codec s2 with
               | (Some hs, s3) => (Some (mkCOpRetProof index ts hs), s3)
               | (None, s3) => (None, s3)
               end
           | (None, s2) => (None, s2)
           end
       | (None, s1) => (None, s1)
       end)
    (fun o => 0 <= orIndex o < 2 ^ 32
              /\ fits vector_uint8_codec (types o)
              /\ fits vector_uint256_codec (hashes o)).

(** The type code and the hash a call of [AddObject] is given. *)
Definition call_type (c : AddObject_call) : Z :=
  match c with
  | call_AddObject t _ => type_code t
  | call_AddObject_of t _ => t
  end.

Definition call_hash (c : AddObject_call) : uint256 :=
  match c with
  | call_AddObject _ h => h
  | call_AddObject_of _ h => h
  end.

(** ** The operands of [operator<<] *)

(** One constructor for each overload of [CCrossChainProof::operator<<]. *)
Inductive operand : Type :=
| op_CPartialTransactionProof (partialTxProof : CPartialTransactionProof)
| op_CBlockHeaderAndProof (headerRefProof : CBlockHeaderAndProof)
| op_CBlockHeaderProof (headerProof : CBlockHeaderProof)
| op_CPriorBlocksCommitment (priorBlocks : CPriorBlocksCommitment)
| op_uint256 (proofRoot : uint256)
| op_CReserveTransfer (reserveTransfer : CReserveTransfer)
| op_CCrossChainProof (crossChainProof : CCrossChainProof).

(** [this << x]; only the overload for a container runs code that reads
    and writes, the copy of its operand. *)
Definition append (fuel : nat) (this : CCrossChainProof) (x : operand)
  : M CCrossChainProof :=
  match x with
  | op_CPartialTransactionProof o => ret (append_CPartialTransactionProof this o)
  | op_CBlockHeaderAndProof o => ret (append_CBlockHeaderAndProof this o)
  | op_CBlockHeaderProof o => ret (append_CBlockHeaderProof this o)
  | op_CPriorBlocksCommitment o => ret (append_CPriorBlocksCommitment this o)
  | op_uint256 o => ret (append_uint256 this o)
  | op_CReserveTransfer o => ret (append_CReserveTransfer this o)
  | op_CCrossChainProof o => append_CCrossChainProof fuel this o
  end.

(** [this << x1 << x2 << ...] *)
Fixpoint append_all (fuel : nat) (this : CCrossChainProof) (xs : list operand)
  : M CCrossChainProof :=
  match xs with
  | [] => ret this
  | x :: xs' =>
      this' <- append fuel this x ;;
      append_all fuel this' xs'
  end.

(** The tag each overload passes to the [CChainObject] it allocates. *)
Definition stored_tag (x : operand) : CHAIN_OBJECT_TYPES :=
  match x with
  | op_CPartialTransactionProof _ => CHAINOBJ_TRANSACTION_PROOF
  | op_CBlockHeaderAndProof _ => CHAINOBJ_HEADER_REF
  | op_CBlockHeaderProof _ => CHAINOBJ_HEADER
  | op_CPriorBlocksCommitment _ => CHAINOBJ_PRIORBLOCKS
  | op_uint256 _ => CHAINOBJ_PROOF_ROOT
  | op_CReserveTransfer _ => CHAINOBJ_RESERVETRANSFER
  | op_CCrossChainProof _ => CHAINOBJ_CROSSCHAINPROOF
  end.

(** The object each overload gives to the constructor of [CChainObject],
    which copies it. *)
Definition stored_object (x : operand) : Object CCrossChainProof :=
  match x with
  | op_CPartialTransactionProof o => ObjPartialTransactionProof o
  | op_CBlockHeaderAndProof o => ObjBlockHeaderAndProof o
  | op_CBlockHeaderProof o => ObjBlockHeaderProof o
  | op_CPriorBlocksCommitment o => ObjPriorBlocksCommitment o
  | op_uint256 o => ObjUint256 o
  | op_CReserveTransfer o => ObjReserveTransfer o
  | op_CCrossChainProof o => ObjCrossChainProof o
  end.

(** ** RehydrateChainObject *)

(** [s >> pNew->object; pNew->objectType = objType;] for a payload read by
    [read_object]; [objType] is an [int16_t] and [objectType] a
    [uint16_t]. *)
Definition rehydrated {T} (objType : Z) (read_object : M T)
  (as_object : T -> Object CCrossChainProof)
  : M (option (CChainObject CCrossChainProof)) :=
  obj <- read_object ;;
  ret (Some (mkCChainObject (MachineInt.to_uint16 objType) (as_object obj))).

(** [template <typename OStream> CBaseChainObject *RehydrateChainObject(OStream &s)]:
    [None] is the [NULL] it returns.  Only the read of the tag is inside a
    [try]; what the read of the object throws leaves the function.  A
    container is read into the default-constructed [object], following
    [fuel] levels of nesting. *)
Definition RehydrateChainObject (fuel : nat)
  : M (option (CChainObject CCrossChainProof)) :=
  fun st =>
    match read int16_codec st with
    | (Raises StdException, st') => (Returns None, st')
    | (Raises f, st') => (Raises f, st')
    | (Returns objType, st1) =>
        match chain_object_type objType with
        | Some CHAINOBJ_HEADER =>
            rehydrated objType (read CBlockHeaderAndProof_codec) ObjBlockHeaderAndProof st1
        | Some CHAINOBJ_TRANSACTION_PROOF =>
            rehydrated objType (read CPartialTransactionProof_codec)
              ObjPartialTransactionProof st1
        | Some CHAINOBJ_PROOF_ROOT =>
            rehydrated objType (read uint256_codec) ObjUint256 st1
        | Some CHAINOBJ_HEADER_REF =>
            rehydrated objType (read CBlockHeaderProof_codec) ObjBlockHeaderProof st1
        | Some CHAINOBJ_PRIORBLOCKS =>
            rehydrated objType (read CPriorBlocksCommitment_codec)
              ObjPriorBlocksCommitment st1
        | Some CHAINOBJ_RESERVETRANSFER =>
            rehydrated objType (read CReserveTransfer_codec) ObjReserveTransfer st1
        | Some CHAINOBJ_CROSSCHAINPROOF =>
            rehydrated objType
              (CCrossChainProof_Unserialize fuel (chainObjects CCrossChainProof_default))
              ObjCrossChainProof st1
        | Some CHAINOBJ_COMPOSITEOBJECT =>
            rehydrated objType
              (CCrossChainProof_Unserialize fuel (chainObjects CCrossChainProof_default))
              ObjCrossChainProof st1
        | Some CHAINOBJ_INVALID | None => (Returns None, st1)
        end
    end.

(** ** Vocabulary of the statements *)

(** An object whose tag is the tag of its payload's type, so that the cast
    of [DehydrateChainObject] fits, and so at every depth. *)
Definition cast_fits (inner : CCrossChainProof -> Prop)
  (o : CChainObject CCrossChainProof) : Prop :=
  match chain_object_type (objectType o) with
  | Some t =>
      decode_branch t = Some (type_of (object o)) /\
      match object o with
      | ObjCrossChainProof p => inner p
      | _ => True
      end
  | None => False
  end.

Fixpoint Writable (c : CCrossChainProof) : Prop :=
  match c with
  | mkCCrossChainProof _ objs =>
      (fix all (l : list (CChainObject CCrossChainProof)) : Prop :=
         match l with
         | [] => True
         | o :: l' => cast_fits Writable o /\ all l'
         end) objs
  end.

(** A reader of containers that meets no cast that does not fit, and that
    returns a writable container when the objects it starts with are. *)
Definition reader_keeps_writable
  (u : list (CChainObject CCrossChainProof) -> M CCrossChainProof) : Prop :=
  forall objs st r st',
    u objs st = (r, st') ->
    r <> Raises BadCast /\
    forall c, r = Returns c -> Forall (cast_fits Writable) objs -> Writable c.

(** A reader that does not run out of nesting on a stream shorter than
    [bound], and that leaves no more bytes than it found. *)
Definition follows_nesting
  (u : list (CChainObject CCrossChainProof) -> M CCrossChainProof)
  (bound : nat) : Prop :=
  forall objs st r st',
    (length (stream st) < bound)%nat ->
    u objs st = (r, st') ->
    r <> Raises OutOfFuel /\ (length (stream st') <= length (stream st))%nat.

(** An operand whose copy can be followed: a container that the codec is
    made for and that is no deeper than the reader may go. *)
Definition canonical_operand (fuel : nat) (x : operand) : Prop :=
  match x with
  | op_CCrossChainProof p => Decodable p /\ (depth p <= fuel)%nat
  | _ => True
  end.

(** A read never leaves more bytes in the stream than it found, whether
    it returns or throws, and a [uint16_t] that is read takes at least one
    byte. *)
Record WireAdvances : Prop := {
  uint16_advances : forall s v s',
    get uint16_codec s = (Some v, s') -> (length s' < length s)%nat;
  uint16_no_longer : forall s, (length (snd (get uint16_codec s)) <= length s)%nat;
  uint32_no_longer : forall s, (length (snd (get uint32_codec s)) <= length s)%nat;
  varint_int32_no_longer : forall s,
    (length (snd (get varint_int32_codec s)) <= length s)%nat;
  uint256_no_longer : forall s, (length (snd (get uint256_codec s)) <= length s)%nat;
  vector_uint256_no_longer : forall s,
    (length (snd (get vector_uint256_codec s)) <= length s)%nat;
  CBlockHeaderAndProof_no_longer : forall s,
    (length (snd (get CBlockHeaderAndProof_codec s)) <= length s)%nat;
  CPartialTransactionProof_no_longer : forall s,
    (length (snd (get CPartialTransactionProof_codec s)) <= length s)%nat;
  CBlockHeaderProof_no_longer : forall s,
    (length (snd (get CBlockHeaderProof_codec s)) <= length s)%nat;
  CReserveTransfer_no_longer : forall s,
    (length (snd (get CReserveTransfer_codec s)) <= length s)%nat
}.

(** An [int16_t] is read from the bytes a [uint16_t] is read from, as the
    two's complement reading of the same 16 bits. *)
Definition int16_reads_as_uint16 : Prop :=
  forall s,
    get int16_codec s
    = (option_map (MachineInt.wrap_signed 16) (fst (get uint16_codec s)),
       snd (get uint16_codec s)).

(** What is read as a [uint16_t] is in the range of the type. *)
Definition uint16_in_range : Prop :=
  forall s v s', get uint16_codec s = (Some v, s') -> 0 <= v < 2 ^ 16.

End Members.

End PBaaSMore.

(** Modelled from the spec: the primitives of [MoreWire] in the layout of
    [Layout] (serialize.h is not part of the sources at hand): an
    [int16_t] and an [int32_t] as 2 and 4 bytes, least significant first,
    read as two's complement; a vector of bytes as its size and its
    bytes. *)
Module MoreLayout.
Import Stream Layout.

Definition signed_le_codec (n : nat) : Codec Z :=
  mkCodec Z
    (le_put n)
    (fun s =>
       match le_get n s with
       | (Some v, s') => (Some (MachineInt.wrap_signed (8 * Z.of_nat n) v), s')
       | (None, s') => (None, s')
       end)
    (fun z => - 2 ^ (8 * Z.of_nat n - 1) <= z < 2 ^ (8 * Z.of_nat n - 1)).

Definition more_wire : MoreWire := {|
  int16_codec := signed_le_codec 2;
  int32_codec := signed_le_codec 4;
  vector_uint8_codec := vector_codec (le_codec 1)
|}.

End MoreLayout.

(** Concrete streams and objects for the members above. *)
Module MoreExamples.
Import Stream PBaaS PBaaSMore Layout MoreLayout Examples.
#[local] Existing Instance wire.
#[local] Existing Instance more_wire.

(** Two [AddObject] calls on a default-constructed [COpRetProof]. *)
Definition two_objects : COpRetProof :=
  run_calls COpRetProof_default
    [call_AddObject CHAINOBJ_HEADER 5; call_AddObject_of 4 7].

(** Operands of three appends: a proof root, a header with its proof, a
    nested container. *)
Definition three_operands : list operand :=
  [op_uint256 5; op_CBlockHeaderAndProof 3; op_CCrossChainProof outer_proof].

(** A container that holds one default-constructed chain object, whose
    tag is [CHAINOBJ_INVALID]. *)
Definition holds_default_object : CCrossChainProof :=
  mkCCrossChainProof 1 [mkCChainObject (type_code CHAINOBJ_INVALID) (ObjUint256 0)].

(** An outer container that announces one element, a cross-chain proof;
    the nested proof announces one element, a proof root cut after 3
    bytes. *)
Definition nested_truncated_element : State :=
  stream_of [8; 0; 1; 0; 0; 0; 1; 4; 0; 1; 2; 3].

End MoreExamples.


(* ================================================================== *)
(** * Theorems *)

Module MachineIntFacts.
Import MachineInt.

Lemma wrap_unsigned_small w z :
    0 <= z < 2 ^ w -> wrap_unsigned w z = z.
Proof. intros H. unfold wrap_unsigned. now apply Z.mod_small. Qed.

Lemma wrap_signed_small w z :
0 < w -> - 2 ^ (w - 1) <= z < 2 ^ (w - 1) -> wrap_signed w z = z.
Proof.
    intros Hw H. unfold wrap_signed.
    replace (2 ^ w) with (2 * 2 ^ (w - 1)).
    - rewrite Z.mod_small; lia.
    - rewrite <- Z.pow_succ_r by lia. f_equal. lia.
Qed.

Lemma to_int32_small z : 0 <= z < 2 ^ 31 -> to_int32 z = z.
Proof.
    intros H. unfold to_int32. apply wrap_signed_small; [lia|].
    change (32 - 1) with 31. lia.
Qed.

End MachineIntFacts.

Module NonceFacts.
Import Nonce.

Lemma testbit_low32 n : 0 <= n -> Z.testbit 0xffffffff n = (n <? 32).
Proof.
    intros Hn. change 0xffffffff with (Z.ones 32).
    now apply Z.testbit_ones_nonneg.
Qed.

Lemma arith_shl_testbit a k n :
    0 <= k -> 0 <= n ->
    Z.testbit (arith_shl a k) n = (n <? 256) && Z.testbit a (n - k).
Proof.
    intros Hk Hn. unfold arith_shl, MachineInt.wrap_unsigned.
    destruct (Z.ltb_spec n 256) as [Hlt|Hge]; cbn [andb].
    - rewrite Z.mod_pow2_bits_low by lia. now apply Z.shiftl_spec.
    - apply Z.mod_pow2_bits_high. lia.
Qed.

  (** Bits below the shift amount of a shifted word are clear. *)
Lemma arith_shl_low_bits a k n :
    0 <= k -> 0 <= n < k -> Z.testbit (arith_shl a k) n = false.
Proof.
    intros Hk Hn. rewrite arith_shl_testbit by lia.
    rewrite (Z.testbit_neg_r a (n - k)) by lia. apply andb_false_r.
Qed.

Section WithHash.
Variable GetHash : list hashed_item -> Z.

    (** The low 32 bits of the nonce survive [SetPOSEntropy]. *)
Lemma SetPOSEntropy_low32 this pastHash txid voutNum :
      arith_and (SetPOSEntropy GetHash this pastHash txid voutNum) 0xffffffff
      = arith_and this 0xffffffff.
Proof.
      unfold SetPOSEntropy, arNonce, arith_and, arith_or.
      apply Z.bits_inj'. intros n Hn.
      rewrite !Z.land_spec, !Z.lor_spec, !Z.land_spec, testbit_low32 by assumption.
      destruct (Z.ltb_spec n 32) as [Hlt|Hge].
      - rewrite (arith_shl_low_bits _ 128 n), (arith_shl_low_bits _ 32 n) by lia.
        cbn. now destruct (Z.testbit this n).
      - now rewrite !andb_false_r.
Qed.

Lemma arNonce_SetPOSEntropy this pastHash txid voutNum :
arNonce GetHash (SetPOSEntropy GetHash this pastHash txid voutNum)
              pastHash txid voutNum
      = arNonce GetHash this pastHash txid voutNum.
Proof.
      unfold arNonce at 1. rewrite SetPOSEntropy_low32. reflexivity.
Qed.

    (** C9: whatever the nonce held before and whatever the entropy sources
are, a nonce on which [SetPOSEntropy pastHash txid voutNum] has run
passes [CheckPOSEntropy pastHash txid voutNum]. *)
Theorem CheckPOSEntropy_after_SetPOSEntropy this pastHash txid voutNum :
      CheckPOSEntropy GetHash
        (SetPOSEntropy GetHash this pastHash txid voutNum)
        pastHash txid voutNum = true.
Proof.
      unfold CheckPOSEntropy. rewrite arNonce_SetPOSEntropy.
      apply Z.eqb_eq. reflexivity.
Qed.

End WithHash.

End NonceFacts.

Module OpRetFacts.
Import PBaaS.

Section WithWire.
Context {W : Wire}.

Lemma run_call_types this c :
  length (types (run_call this c)) = S (length (types this)).
Proof. destruct c; cbn; rewrite length_app; cbn; lia. Qed.

Lemma run_call_hashes this c :
  length (hashes (run_call this c)) = S (length (hashes this)).
Proof. destruct c; cbn; rewrite length_app; cbn; lia. Qed.

Lemma run_calls_sizes cs : forall this,
  length (types (run_calls this cs)) = (length (types this) + length cs)%nat /\
  length (hashes (run_calls this cs)) = (length (hashes this) + length cs)%nat.
Proof.
  induction cs as [|c cs IH]; intros this; cbn [run_calls fold_left length].
  - split; lia.
  - fold (run_calls (run_call this c) cs).
    destruct (IH (run_call this c)) as [Ht Hh].
    rewrite Ht, Hh, run_call_types, run_call_hashes. split; lia.
Qed.

(** C10: starting from a default-constructed [COpRetProof], each
    [AddObject] call (either overload) appends exactly one entry to [types]
    and exactly one to [hashes], so after any sequence of calls the two
    vectors have the same size. *)
Theorem AddObject_keeps_sizes_equal (cs : list AddObject_call) (c : AddObject_call) :
  let p := run_calls COpRetProof_default cs in
  length (types p) = length (hashes p) /\
  (exists t, types (run_call p c) = types p ++ [t]) /\
  (exists h, hashes (run_call p c) = hashes p ++ [h]) /\
  length (types (run_call p c)) = length (hashes (run_call p c)).
Proof.
  cbn zeta. destruct (run_calls_sizes cs COpRetProof_default) as [Ht Hh].
  rewrite run_call_types, run_call_hashes, Ht, Hh. cbn.
  repeat split; destruct c; cbn; eauto.
Qed.

End WithWire.

End OpRetFacts.

Module ChainObjectFacts.
Import Stream PBaaS.
Local Open Scope stream_scope.

Section Monad.

Lemma bind_Returns {A B} (m : M A) (k : A -> M B) st a st' :
  m st = (Returns a, st') -> bind m k st = k a st'.
Proof. intros H. unfold bind. now rewrite H. Qed.

Lemma bind_Raises {A B} (m : M A) (k : A -> M B) st f st' :
  m st = (Raises f, st') -> bind m k st = (Raises f, st').
Proof. intros H. unfold bind. now rewrite H. Qed.

Lemma read_put {T} (c : Codec T) x rest lg :
  roundtrips c -> fits c x ->
  read c (mkState (put c x ++ rest) lg) = (Returns x, mkState rest lg).
Proof. intros Hc Hx. unfold read. cbn. now rewrite (Hc x rest Hx). Qed.

End Monad.

Section WithWire.
Context {W : Wire}.

Lemma Decodable_unfold ver objs :
  Decodable (mkCCrossChainProof ver objs) <->
  0 <= ver < 2 ^ 32 /\ Z.of_nat (length objs) < 2 ^ 31 /\
  Forall (well_tagged Decodable) objs.
Proof.
  cbn [Decodable].
  assert (Hall : forall l,
    (fix all (l : list (CChainObject CCrossChainProof)) : Prop :=
       match l with
       | [] => True
       | o :: l' => well_tagged Decodable o /\ all l'
       end) l <-> Forall (well_tagged Decodable) l).
  { induction l as [|o l IH].
    - split; auto.
    - split.
      + intros [Ho Hl]. constructor; [exact Ho | now apply IH].
      + intros H. inversion H; subst. split; [assumption | now apply IH]. }
  rewrite Hall. tauto.
Qed.

Lemma depth_positive c : (1 <= depth c)%nat.
Proof. destruct c. cbn. lia. Qed.

Lemma object_depth_lt ver objs o :
  In o objs -> (object_depth o < depth (mkCCrossChainProof ver objs))%nat.
Proof.
  intros Hin. cbn [depth]. apply Nat.lt_succ_r.
  set (f := fun o : CChainObject CCrossChainProof =>
              match o with
              | mkCChainObject _ (ObjCrossChainProof p) => depth p
              | _ => O
              end).
  assert (Hf : object_depth o = f o) by (destruct o as [t []]; reflexivity).
  rewrite Hf.
  assert (Hmax : Forall (fun k => (k <= list_max (map f objs))%nat) (map f objs))
    by now apply list_max_le.
  rewrite Forall_forall in Hmax. apply Hmax. now apply in_map.
Qed.

Lemma CCrossChainProof_eta (c : CCrossChainProof) :
  mkCCrossChainProof (version c) (chainObjects c) = c.
Proof. now destruct c. Qed.

End WithWire.

Section RoundTrip.
Context {W : Wire}.
Hypothesis OK : WireOK W.

Lemma CPriorBlocksCommitment_roundtrips : roundtrips CPriorBlocksCommitment_codec.
Proof.
  intros [priors pastTypes] rest [Hv Hp]. cbn in *.
  rewrite <- app_assoc, (vector_uint256_ok W OK priors _ Hv).
  now rewrite (uint256_ok W OK pastTypes rest Hp).
Qed.

Lemma fits_type_code t : fits uint16_codec (type_code t).
Proof. apply (uint16_range W OK). destruct t; cbn; lia. Qed.

Ltac read_back :=
  repeat first
    [ rewrite <- app_assoc
    | erewrite bind_Returns by
        (apply read_put;
         [ first [ apply (uint16_ok W OK) | apply (uint32_ok W OK)
                 | apply (varint_int32_ok W OK) | apply (uint256_ok W OK)
                 | apply (CBlockHeaderAndProof_ok W OK)
                 | apply (CPartialTransactionProof_ok W OK)
                 | apply (CBlockHeaderProof_ok W OK)
                 | apply (CReserveTransfer_ok W OK)
                 | apply CPriorBlocksCommitment_roundtrips ]
         | first [ assumption | apply fits_type_code ] ]) ].

Lemma read_nested_back fuel p objType rest lg :
  reads_back fuel p ->
  exists b,
    CCrossChainProof_Serialize p = Some b /\
    read_nested (CCrossChainProof_Unserialize fuel) objType (mkState (b ++ rest) lg)
    = (Returns (Some (mkCChainObject objType (ObjCrossChainProof p))), mkState rest lg).
Proof.
  intros (b & Hser & Hread). exists b. split; [assumption|].
  unfold read_nested.
  erewrite bind_Returns by apply Hread.
  change (chainObjects CCrossChainProof_default ++ chainObjects p)
    with (chainObjects p).
  rewrite CCrossChainProof_eta.
  erewrite bind_Returns.
  - reflexivity.
  - unfold assign, through_stream. rewrite Hser. cbn [log stream].
    rewrite <- (app_nil_r b) at 1. rewrite Hread.
    cbn. now rewrite CCrossChainProof_eta.
Qed.

Lemma element_reads_back fuel o :
  (forall p, (depth p <= fuel)%nat -> Decodable p -> reads_back fuel p) ->
  well_tagged Decodable o -> (object_depth o <= fuel)%nat ->
  exists b,
    DehydrateChainObject o = Some (b, true) /\
    forall rest lg,
      read_element (CCrossChainProof_Unserialize fuel) (mkState (b ++ rest) lg)
      = (Returns (Some o), mkState rest lg).
Proof.
  intros IH Hwt Hd. destruct o as [t obj].
  unfold well_tagged in Hwt. cbn [object objectType] in Hwt.
  destruct obj as [x|x|x|x|x|x|p].
  1-6: destruct Hwt as [-> Hfit]; eexists; split;
       [ reflexivity
       | intros rest lg; unfold read_element, written, CChainObject_Serialize,
           CBaseChainObject_Serialize; read_back;
         cbv beta iota delta [type_code chain_object_type]; read_back;
         reflexivity ].
  destruct Hwt as [Ht Hp]. cbn in Hd.
  destruct Ht as [-> | ->].
  - destruct (read_nested_back fuel p (type_code CHAINOBJ_CROSSCHAINPROOF)
                [] [] (IH p Hd Hp)) as (b & Hser & _).
    exists (CChainObject_Serialize (type_code CHAINOBJ_CROSSCHAINPROOF) b). split.
    + unfold DehydrateChainObject. cbn. now rewrite Hser.
    + intros rest lg.
      destruct (read_nested_back fuel p (type_code CHAINOBJ_CROSSCHAINPROOF)
                  rest lg (IH p Hd Hp)) as (b' & Hser' & Hread).
      assert (b' = b) by congruence. subst b'.
      unfold read_element, CChainObject_Serialize, CBaseChainObject_Serialize.
      read_back. exact Hread.
  - destruct (read_nested_back fuel p (type_code CHAINOBJ_COMPOSITEOBJECT)
                [] [] (IH p Hd Hp)) as (b & Hser & _).
    exists (CChainObject_Serialize (type_code CHAINOBJ_COMPOSITEOBJECT) b). split.
    + unfold DehydrateChainObject, CCompositeChainObject_Serialize. cbn.
      now rewrite Hser.
    + intros rest lg.
      destruct (read_nested_back fuel p (type_code CHAINOBJ_COMPOSITEOBJECT)
                  rest lg (IH p Hd Hp)) as (b' & Hser' & Hread).
      assert (b' = b) by congruence. subst b'.
      unfold read_element, CChainObject_Serialize, CBaseChainObject_Serialize.
      read_back. exact Hread.
Qed.

Lemma elements_read_back fuel objs :
  (forall p, (depth p <= fuel)%nat -> Decodable p -> reads_back fuel p) ->
  Forall (well_tagged Decodable) objs ->
  Forall (fun o => (object_depth o <= fuel)%nat) objs ->
  exists body,
    Dehydrate_all CCrossChainProof
      CCrossChainProof_Serialize CCrossChainProof_Serialize objs = Some body /\
    forall objs0 rest lg,
      read_elements (CCrossChainProof_Unserialize fuel) (length objs) objs0
        (mkState (body ++ rest) lg)
      = (Returns (false, objs0 ++ objs), mkState rest lg).
Proof.
  intros IH Hwt Hd. induction objs as [|o objs IHobjs].
  - exists []. split; [reflexivity|]. intros objs0 rest lg. cbn.
    now rewrite app_nil_r.
  - inversion Hwt as [|? ? Ho Hobjs]; subst.
    inversion Hd as [|? ? Hdo Hdobjs]; subst.
    destruct (element_reads_back fuel o IH Ho Hdo) as (b & Hb & Hread).
    destruct (IHobjs Hobjs Hdobjs) as (body & Hbody & Hreads).
    exists (b ++ body). split.
    + cbn [Dehydrate_all]. unfold DehydrateChainObject in Hb.
      unfold CCompositeChainObject_Serialize in Hb.
      change (fun this => CCrossChainProof_Serialize this)
        with CCrossChainProof_Serialize in Hb.
      now rewrite Hb, Hbody.
    + intros objs0 rest lg. cbn [length read_elements].
      rewrite <- app_assoc, Hread, Hreads, <- app_assoc. reflexivity.
Qed.

Lemma container_reads_back fuel : forall c,
  (depth c <= fuel)%nat -> Decodable c -> reads_back fuel c.
Proof.
  induction fuel as [|fuel IH]; intros c Hd Hc.
  - pose proof (depth_positive c). lia.
  - destruct c as [ver objs].
    apply Decodable_unfold in Hc. destruct Hc as (Hver & Hsize & Hobjs).
    assert (Hdepths : Forall (fun o => (object_depth o <= fuel)%nat) objs).
    { apply Forall_forall. intros o Hin.
      pose proof (object_depth_lt ver objs o Hin). lia. }
    destruct (elements_read_back fuel objs IH Hobjs Hdepths)
      as (body & Hbody & Hreads).
    assert (Hcount : MachineInt.to_int32 (Z.of_nat (length objs))
                     = Z.of_nat (length objs))
      by (apply MachineIntFacts.to_int32_small; lia).
    eexists. split.
    + cbn [CCrossChainProof_Serialize]. rewrite Hbody, Hcount. reflexivity.
    + intros objs0 rest lg. cbn [CCrossChainProof_Unserialize version chainObjects].
      unfold Unserialize_body.
      rewrite <- !app_assoc.
      erewrite bind_Returns
        by (apply read_put; [apply (uint32_ok W OK) | now apply (uint32_range W OK)]).
      erewrite bind_Returns
        by (apply read_put;
            [apply (varint_int32_ok W OK) | apply (varint_int32_range W OK); lia]).
      rewrite Nat2Z.id.
      erewrite bind_Returns by apply Hreads.
      reflexivity.
Qed.

Lemma container_roundtrip c :
  Decodable c ->
  exists bytes,
    CCrossChainProof_Serialize c = Some bytes /\
    forall fuel rest lg,
      (depth c <= fuel)%nat ->
      CCrossChainProof_Unserialize fuel [] (mkState (bytes ++ rest) lg)
      = (Returns c, mkState rest lg).
Proof.
  intros Hc.
  destruct (container_reads_back (depth c) c (Nat.le_refl _) Hc) as (b & Hb & _).
  exists b. split; [assumption|]. intros fuel rest lg Hfuel.
  destruct (container_reads_back fuel c Hfuel Hc) as (b' & Hb' & Hread).
  assert (b' = b) by congruence. subst b'.
  rewrite Hread. cbn [app]. now rewrite CCrossChainProof_eta.
Qed.

(** X18: a chain object that carries a supported tag and a payload of that
    tag's type is written by [DehydrateChainObject], and the reader gives
    the same object back (same tag, same payload, same elements in the
    same order, at every depth of nesting), stopping where the write
    stopped; so does a whole container, an empty one included.  The reader
    has to be allowed as many levels of nesting as the object has. *)
Theorem chain_object_roundtrip (o : CChainObject CCrossChainProof)
  (c : CCrossChainProof) :
  well_tagged Decodable o -> Decodable c ->
  (exists bytes,
     DehydrateChainObject o = Some (bytes, true) /\
     forall fuel rest lg,
       (object_depth o <= fuel)%nat ->
       read_element (CCrossChainProof_Unserialize fuel) (mkState (bytes ++ rest) lg)
       = (Returns (Some o), mkState rest lg)) /\
  (exists bytes,
     CCrossChainProof_Serialize c = Some bytes /\
     forall fuel rest lg,
       (depth c <= fuel)%nat ->
       CCrossChainProof_Unserialize fuel [] (mkState (bytes ++ rest) lg)
       = (Returns c, mkState rest lg)).
Proof.
  intros Ho Hc. split; [|now apply container_roundtrip].
  destruct (element_reads_back (object_depth o) o
              (container_reads_back _) Ho (Nat.le_refl _)) as (b & Hb & _).
  exists b. split; [assumption|]. intros fuel rest lg Hfuel.
  destruct (element_reads_back fuel o (container_reads_back _) Ho Hfuel)
    as (b' & Hb' & Hread).
  assert (b' = b) by congruence. subst b'. apply Hread.
Qed.

(** C6: a copy of a container, made by the copy constructor or by the
    assignment operator (both write the source to a stream and read the
    copy from it), is written to the same bytes as the source. *)
Theorem copy_fidelity (c this : CCrossChainProof) (fuel : nat) (st : State) :
  Decodable c -> (depth c <= fuel)%nat ->
  exists copy bytes,
    CCrossChainProof_copy fuel c st = (Returns copy, st) /\
    CCrossChainProof_assign fuel this c st = (Returns copy, st) /\
    CCrossChainProof_Serialize c = Some bytes /\
    CCrossChainProof_Serialize copy = Some bytes.
Proof.
  intros Hc Hfuel.
  destruct (container_roundtrip c Hc) as (bytes & Hbytes & Hread).
  specialize (Hread fuel [] (log st) Hfuel). rewrite app_nil_r in Hread.
  exists c, bytes.
  unfold CCrossChainProof_copy, CCrossChainProof_assign, assign, through_stream.
  rewrite Hbytes. unfold DeleteOpRetObjects. rewrite Hread.
  destruct st; cbn. auto.
Qed.

End RoundTrip.

(** What the reader returns is [Decodable]. *)
Section Sound.
Context {W : Wire}.
Hypothesis Sound : WireSound W.

Lemma read_Returns {T} (c : Codec T) st x st' :
  read c st = (Returns x, st') ->
  get c (stream st) = (Some x, stream st') /\ log st' = log st.
Proof.
  unfold read. destruct (get c (stream st)) as [[y|] s1]; [|discriminate].
  intros H. injection H as <- <-. cbn. auto.
Qed.

Lemma chain_object_type_code z t :
  chain_object_type z = Some t -> z = type_code t.
Proof.
  unfold chain_object_type.
  destruct z as [|p|p]; try discriminate;
    [ | repeat (destruct p as [p|p|]; try discriminate) ];
    intros H; injection H as <-; reflexivity.
Qed.

Lemma CPriorBlocksCommitment_sound s x s' :
  get CPriorBlocksCommitment_codec s = (Some x, s') ->
  fits CPriorBlocksCommitment_codec x.
Proof.
  cbn [get CPriorBlocksCommitment_codec].
  destruct (get vector_uint256_codec s) as [[priors|] s1] eqn:E1; [|discriminate].
  destruct (get uint256_codec s1) as [[pastTypes|] s2] eqn:E2; [|discriminate].
  intros H. injection H as <- <-. split; cbn.
  - exact (vector_uint256_sound W Sound _ _ _ E1).
  - exact (uint256_sound W Sound _ _ _ E2).
Qed.

Lemma read_element_sound fuel st o st' :
  (forall st c st',
     CCrossChainProof_Unserialize fuel [] st = (Returns c, st') ->
     Decodable c /\ (depth c <= fuel)%nat) ->
  read_element (CCrossChainProof_Unserialize fuel) st = (Returns (Some o), st') ->
  well_tagged Decodable o /\ (object_depth o <= fuel)%nat.
Proof.
  intros IH. unfold read_element, bind.
  destruct (read uint16_codec st) as [[objType|f] st1]; [|discriminate].
  destruct (chain_object_type objType) as [t|] eqn:Ht; [|discriminate].
  apply chain_object_type_code in Ht. subst objType.
  destruct t; try discriminate.
  1-6: match goal with
       | |- context [read ?c ?s] => destruct (read c s) as [[x|f] st2] eqn:E
       end; [|discriminate];
       apply read_Returns in E; destruct E as [E _];
       unfold ret; intros H; injection H as <- <-;
       (split; [|cbn; lia]); (split; [reflexivity|]);
       first [ exact (CBlockHeaderAndProof_sound W Sound _ _ _ E)
             | exact (CPartialTransactionProof_sound W Sound _ _ _ E)
             | exact (uint256_sound W Sound _ _ _ E)
             | exact (CBlockHeaderProof_sound W Sound _ _ _ E)
             | exact (CPriorBlocksCommitment_sound _ _ _ E)
             | exact (CReserveTransfer_sound W Sound _ _ _ E) ].
  all: unfold read_nested, bind, assign, through_stream;
       destruct (CCrossChainProof_Unserialize fuel _ st1) as [[obj|f] st2];
         [|discriminate];
       destruct (CCrossChainProof_Serialize obj) as [b|]; [|discriminate];
       destruct (CCrossChainProof_Unserialize fuel _ (mkState b (log st2)))
         as [[new_object|f] st3] eqn:E; [|discriminate];
       unfold ret; intros H; injection H as <- <-;
       destruct (IH _ _ _ E) as [Hnew Hdepth];
       (split; [|exact Hdepth]);
       (split; [ first [ now left | now right ] | exact Hnew ]).
Qed.

Lemma read_elements_sound fuel n :
  (forall st c st',
     CCrossChainProof_Unserialize fuel [] st = (Returns c, st') ->
     Decodable c /\ (depth c <= fuel)%nat) ->
  forall objs st error objs' st',
    Forall (fun o => well_tagged Decodable o /\ (object_depth o <= fuel)%nat) objs ->
    read_elements (CCrossChainProof_Unserialize fuel) n objs st
    = (Returns (error, objs'), st') ->
    Forall (fun o => well_tagged Decodable o /\ (object_depth o <= fuel)%nat) objs' /\
    (length objs' <= length objs + n)%nat.
Proof.
  intros IH. induction n as [|n IHn]; intros objs st error objs' st' Hobjs;
    cbn [read_elements].
  - unfold ret. intros H. injection H as <- <- <-. split; [assumption|lia].
  - destruct (read_element (CCrossChainProof_Unserialize fuel) st)
      as [[[pobj|]|[]] st1] eqn:E; try discriminate.
    + intros H. apply IHn in H.
      * rewrite length_app in H. cbn in H. split; [tauto|lia].
      * apply Forall_app. split; [assumption|]. constructor; [|constructor].
        exact (read_element_sound fuel _ _ _ IH E).
    + intros H. apply IHn in H; [|assumption]. split; [tauto|lia].
    + intros H. injection H as <- <- <-. split; [assumption|lia].
Qed.

Lemma depth_le ver objs fuel :
  Forall (fun o => (object_depth o <= fuel)%nat) objs ->
  (depth (mkCCrossChainProof ver objs) <= S fuel)%nat.
Proof.
  intros H. cbn [depth]. apply le_n_S, list_max_le, Forall_map.
  eapply Forall_impl; [|exact H].
  intros [t []]; unfold object_depth; cbn; lia.
Qed.

(** Whatever the reader returns is [Decodable], and no deeper than the
    reader was allowed to go. *)
Lemma Unserialize_sound fuel : forall st c st',
  CCrossChainProof_Unserialize fuel [] st = (Returns c, st') ->
  Decodable c /\ (depth c <= fuel)%nat.
Proof.
  induction fuel as [|fuel IH]; intros st c st'; [discriminate|].
  cbn [CCrossChainProof_Unserialize]. unfold Unserialize_body, bind.
  destruct (read uint32_codec st) as [[ver|f] st1] eqn:Ever; [|discriminate].
  destruct (read varint_int32_codec st1) as [[proofSize|f] st2] eqn:Esize;
    [|discriminate].
  apply read_Returns in Ever, Esize. destruct Ever as [Ever _], Esize as [Esize _].
  pose proof (uint32_sound W Sound _ _ _ Ever) as Hver.
  pose proof (varint_int32_sound W Sound _ _ _ Esize) as Hsize.
  destruct (read_elements _ _ [] st2) as [[[error objs]|f] st3] eqn:E;
    [|discriminate].
  apply (read_elements_sound fuel _ IH) in E; [|constructor].
  destruct E as [Hobjs Hlen]. cbn [length] in Hlen. cbn [fst snd].
  assert (Hwt : Forall (well_tagged Decodable) objs)
    by (eapply Forall_impl; [|exact Hobjs]; cbn; tauto).
  assert (Hd : Forall (fun o => (object_depth o <= fuel)%nat) objs)
    by (eapply Forall_impl; [|exact Hobjs]; cbn; tauto).
  destruct error; cbn; unfold ret; intros H; injection H as <- <-;
    (split; [apply Decodable_unfold | apply depth_le]);
    unfold DeleteOpRetObjects; cbn [length];
    repeat split; try constructor; try lia; assumption.
Qed.

End Sound.

(** A container that a read has returned is copied to itself, by a copy
    that follows the same depth of nesting. *)
Section Decoded.
Context {W : Wire}.
Hypothesis OK : WireOK W.
Hypothesis Sound : WireSound W.

Lemma copy_of_decoded fuel st c st' st0 :
  CCrossChainProof_Unserialize fuel [] st = (Returns c, st') ->
  exists bytes,
    CCrossChainProof_Serialize c = Some bytes /\
    CCrossChainProof_copy fuel c st0 = (Returns c, st0).
Proof.
  intros Hread. destruct (Unserialize_sound Sound fuel _ _ _ Hread) as [Hc Hd].
  destruct (container_roundtrip OK c Hc) as (bytes & Hbytes & Hback).
  exists bytes. split; [assumption|].
  unfold CCrossChainProof_copy, through_stream. rewrite Hbytes.
  specialize (Hback fuel [] (log st0) Hd). rewrite app_nil_r in Hback.
  rewrite Hback. now destruct st0.
Qed.

End Decoded.

(** More fuel changes nothing once the reader has an outcome other than
    [OutOfFuel]. *)
Section Fuel.
Context {W : Wire}.
Variables u1 u2 : list (CChainObject CCrossChainProof) -> M CCrossChainProof.
Hypothesis u1_u2 : forall objs st r st',
  u1 objs st = (r, st') -> r <> Raises OutOfFuel -> u2 objs st = (r, st').

Lemma through_stream_fuel operand objs st r st' :
  through_stream u1 operand objs st = (r, st') -> r <> Raises OutOfFuel ->
  through_stream u2 operand objs st = (r, st').
Proof.
  unfold through_stream. destruct (CCrossChainProof_Serialize operand); [|auto].
  destruct (u1 objs _) as [r1 st1] eqn:E. intros H Hr. injection H as <- <-.
  now rewrite (u1_u2 _ _ _ _ E Hr).
Qed.

Lemma read_nested_fuel objType st r st' :
  read_nested u1 objType st = (r, st') -> r <> Raises OutOfFuel ->
  read_nested u2 objType st = (r, st').
Proof.
  unfold read_nested, bind, assign.
  destruct (u1 _ st) as [[obj|f] st1] eqn:E1.
  - rewrite (u1_u2 _ _ _ _ E1) by discriminate.
    destruct (through_stream u1 obj _ st1) as [[new_object|f] st2] eqn:E2.
    + rewrite (through_stream_fuel _ _ _ _ _ E2) by discriminate. auto.
    + intros H Hr. injection H as <- <-.
      assert (Hf : f <> OutOfFuel) by (intros ->; now apply Hr).
      rewrite (through_stream_fuel _ _ _ _ _ E2) by congruence. reflexivity.
  - intros H Hr. injection H as <- <-.
    assert (Hf : f <> OutOfFuel) by (intros ->; now apply Hr).
    rewrite (u1_u2 _ _ _ _ E1) by congruence. reflexivity.
Qed.

Lemma read_element_fuel st r st' :
  read_element u1 st = (r, st') -> r <> Raises OutOfFuel ->
  read_element u2 st = (r, st').
Proof.
  unfold read_element, bind.
  destruct (read uint16_codec st) as [[objType|f] st1]; [|auto].
  destruct (chain_object_type objType) as [[]|]; auto using read_nested_fuel.
Qed.

Lemma read_elements_fuel n : forall objs st r st',
  read_elements u1 n objs st = (r, st') -> r <> Raises OutOfFuel ->
  read_elements u2 n objs st = (r, st').
Proof.
  induction n as [|n IH]; intros objs st r st'; cbn [read_elements]; [auto|].
  destruct (read_element u1 st) as [[pobj|f] st1] eqn:E.
  - rewrite (read_element_fuel _ _ _ E) by discriminate.
    destruct pobj; apply IH.
  - intros H Hr.
    assert (Hf : f <> OutOfFuel)
      by (intros ->; injection H as <- <-; now apply Hr).
    rewrite (read_element_fuel _ _ _ E) by congruence. exact H.
Qed.

Lemma Unserialize_body_fuel objs st r st' :
  Unserialize_body u1 objs st = (r, st') -> r <> Raises OutOfFuel ->
  Unserialize_body u2 objs st = (r, st').
Proof.
  unfold Unserialize_body, bind.
  destruct (read uint32_codec st) as [[ver|f] st1]; [|auto].
  destruct (read varint_int32_codec st1) as [[proofSize|f] st2]; [|auto].
  destruct (read_elements u1 _ objs st2) as [[[error objs']|f] st3] eqn:E.
  - rewrite (read_elements_fuel _ _ _ _ _ E) by discriminate. auto.
  - intros H Hr. injection H as <- <-.
    assert (Hf : f <> OutOfFuel) by (intros ->; now apply Hr).
    rewrite (read_elements_fuel _ _ _ _ _ E) by congruence. reflexivity.
Qed.

End Fuel.

Section Container.
Context {W : Wire}.

Lemma Unserialize_more_fuel fuel : forall objs st r st',
  CCrossChainProof_Unserialize fuel objs st = (r, st') ->
  r <> Raises OutOfFuel ->
  CCrossChainProof_Unserialize (S fuel) objs st = (r, st').
Proof.
  induction fuel as [|fuel IH]; intros objs st r st' H Hr.
  - cbn in H. injection H as <- <-. now contradiction Hr.
  - change (Unserialize_body (CCrossChainProof_Unserialize (S fuel)) objs st
            = (r, st')).
    change (Unserialize_body (CCrossChainProof_Unserialize fuel) objs st
            = (r, st')) in H.
    eapply Unserialize_body_fuel; eauto.
Qed.

(** C1 (the code departs from it): [IsValid] is a disjunction, so it holds
    of every version; it accepts a container whose version is
    [VERSION_INVALID], which lies outside [VERSION_FIRST, VERSION_LAST]. *)
Theorem IsValid_accepts_VERSION_INVALID :
  (forall c : CCrossChainProof, IsValid c = true) /\
  IsValid (mkCCrossChainProof VERSION_INVALID []) = true /\
  VERSION_INVALID < VERSION_FIRST.
Proof.
  split; [|split].
  - intros [ver objs]. unfold IsValid, VERSION_FIRST, VERSION_LAST. cbn.
    apply orb_true_iff.
    destruct (Z.leb_spec 1 ver); [now left|right]. apply Z.leb_le. lia.
  - reflexivity.
  - reflexivity.
Qed.

(** What the reader stores under a tag is of the type [decode_branch]
    gives for the tag. *)
Lemma read_element_type unser st o st' :
  read_element unser st = (Returns (Some o), st') ->
  exists t,
    chain_object_type (objectType o) = Some t /\
    decode_branch t = Some (type_of (object o)).
Proof.
  unfold read_element, bind.
  destruct (read uint16_codec st) as [[objType|f] st1]; [|discriminate].
  destruct (chain_object_type objType) as [t|] eqn:Ht; [|discriminate].
  destruct t; try discriminate.
  1-6: match goal with
       | |- context [read ?c ?s] => destruct (read c s) as [[x|f] st2]
       end; [|discriminate];
       unfold ret; intros H; injection H as <- <-; eexists; split;
       [ exact Ht | reflexivity ].
  all: unfold read_nested, bind;
       destruct (unser _ _) as [[x|f] st2]; [|discriminate];
       destruct (assign _ _ _ _) as [[y|f] st3]; [|discriminate];
       unfold ret; intros H; injection H as <- <-; eexists; split;
       [ first [ exact Ht | reflexivity ] | reflexivity ].
Qed.

(** C3 (the code departs from it): [operator<<] stores a
    [CBlockHeaderAndProof] under [CHAINOBJ_HEADER_REF], the tag whose
    case reads a [CBlockHeaderProof], and a [CBlockHeaderProof] under
    [CHAINOBJ_HEADER], the tag whose case reads a [CBlockHeaderAndProof];
    [DehydrateChainObject] then casts either object to a type it is
    not. *)
Theorem append_header_tags_swapped (this : CCrossChainProof)
  (headerRefProof : CBlockHeaderAndProof) (headerProof : CBlockHeaderProof) :
  let stored1 := mkCChainObject (type_code CHAINOBJ_HEADER_REF)
                   (ObjBlockHeaderAndProof headerRefProof) in
  let stored2 := mkCChainObject (type_code CHAINOBJ_HEADER)
                   (ObjBlockHeaderProof headerProof) in
  chainObjects (append_CBlockHeaderAndProof this headerRefProof)
    = chainObjects this ++ [stored1] /\
  decode_branch CHAINOBJ_HEADER_REF = Some T_CBlockHeaderProof /\
  type_of (object stored1) = T_CBlockHeaderAndProof /\
  DehydrateChainObject stored1 = None /\
  chainObjects (append_CBlockHeaderProof this headerProof)
    = chainObjects this ++ [stored2] /\
  decode_branch CHAINOBJ_HEADER = Some T_CBlockHeaderAndProof /\
  type_of (object stored2) = T_CBlockHeaderProof /\
  DehydrateChainObject stored2 = None.
Proof. cbn. repeat split. Qed.

(** The other overloads store the tag of their operand's type. *)
Lemma append_other_tags_agree (this : CCrossChainProof) :
  (forall x, exists o,
      chainObjects (append_CPartialTransactionProof this x) = chainObjects this ++ [o] /\
      chain_object_type (objectType o) = Some CHAINOBJ_TRANSACTION_PROOF /\
      decode_branch CHAINOBJ_TRANSACTION_PROOF = Some (type_of (object o))) /\
  (forall x, exists o,
      chainObjects (append_CPriorBlocksCommitment this x) = chainObjects this ++ [o] /\
      chain_object_type (objectType o) = Some CHAINOBJ_PRIORBLOCKS /\
      decode_branch CHAINOBJ_PRIORBLOCKS = Some (type_of (object o))) /\
  (forall x, exists o,
      chainObjects (append_uint256 this x) = chainObjects this ++ [o] /\
      chain_object_type (objectType o) = Some CHAINOBJ_PROOF_ROOT /\
      decode_branch CHAINOBJ_PROOF_ROOT = Some (type_of (object o))) /\
  (forall x, exists o,
      chainObjects (append_CReserveTransfer this x) = chainObjects this ++ [o] /\
      chain_object_type (objectType o) = Some CHAINOBJ_RESERVETRANSFER /\
      decode_branch CHAINOBJ_RESERVETRANSFER = Some (type_of (object o))) /\
  (forall fuel x st c st',
      append_CCrossChainProof fuel this x st = (Returns c, st') ->
      exists o,
        chainObjects c = chainObjects this ++ [o] /\
        chain_object_type (objectType o) = Some CHAINOBJ_CROSSCHAINPROOF /\
        decode_branch CHAINOBJ_CROSSCHAINPROOF = Some (type_of (object o))).
Proof.
  split; [|split; [|split; [|split]]];
    try (intros x; eexists; repeat split; fail).
  intros fuel x st c st'. unfold append_CCrossChainProof, bind.
  destruct (CCrossChainProof_copy fuel x st) as [[copy|f] st1]; [|discriminate].
  unfold ret. intros H. injection H as <- <-. eexists. repeat split.
Qed.

(** C7: the same container written as the object of a
    [CHAINOBJ_COMPOSITEOBJECT] (through [CCompositeChainObject]) and as
    the object of a [CHAINOBJ_CROSSCHAINPROOF] gives, after the two bytes
    of the tag, the same bytes: those of the container itself. *)
Theorem composite_equivalence (c : CCrossChainProof) :
  CCompositeChainObject_Serialize c = CCrossChainProof_Serialize c /\
  match CCrossChainProof_Serialize c with
  | Some payload =>
      DehydrateChainObject
        (mkCChainObject (type_code CHAINOBJ_COMPOSITEOBJECT) (ObjCrossChainProof c))
      = Some (put uint16_codec (type_code CHAINOBJ_COMPOSITEOBJECT) ++ payload, true) /\
      DehydrateChainObject
        (mkCChainObject (type_code CHAINOBJ_CROSSCHAINPROOF) (ObjCrossChainProof c))
      = Some (put uint16_codec (type_code CHAINOBJ_CROSSCHAINPROOF) ++ payload, true)
  | None =>
      DehydrateChainObject
        (mkCChainObject (type_code CHAINOBJ_COMPOSITEOBJECT) (ObjCrossChainProof c))
      = None /\
      DehydrateChainObject
        (mkCChainObject (type_code CHAINOBJ_CROSSCHAINPROOF) (ObjCrossChainProof c))
      = None
  end.
Proof.
  split; [reflexivity|].
  unfold DehydrateChainObject, CCompositeChainObject_Serialize. cbn.
  destruct (CCrossChainProof_Serialize c); split; reflexivity.
Qed.

(** Once an element has thrown, the loop ends with [error] set. *)
Lemma read_elements_raises read_nested_container n : forall st st' objs,
  element_raises (read_element read_nested_container) n st st' ->
  exists objs',
    read_elements read_nested_container n objs st = (Returns (true, objs'), st').
Proof.
  intros st st' objs H. revert objs.
  induction H as [n st st' Hraise | n st pobj st1 st' Hret _ IH]; intros objs.
  - exists objs. cbn [read_elements]. now rewrite Hraise.
  - cbn [read_elements]. rewrite Hret. destruct pobj as [pobj|]; apply IH.
Qed.

(** C4, as the code has it: when the read of an element throws, the
    container is left with no object at all, the elements read before the
    failing one included; the exception is caught, [printf] and
    [LogPrintf] report it, and the read returns normally: its caller is
    given the empty container, not an error. *)
Theorem element_failure_empties_container (fuel : nat)
  (this_objects : list (CChainObject CCrossChainProof))
  (st st1 st2 st3 : State) (ver proofSize : Z) :
  read uint32_codec st = (Returns ver, st1) ->
  read varint_int32_codec st1 = (Returns proofSize, st2) ->
  element_raises (read_element (CCrossChainProof_Unserialize fuel))
    (Z.to_nat proofSize) st2 st3 ->
  CCrossChainProof_Unserialize (S fuel) this_objects st
  = (Returns (mkCCrossChainProof ver []),
     mkState (stream st3) (log st3 ++ [corrupt_opret; corrupt_opret])).
Proof.
  intros Hver Hsize Hraise.
  destruct (read_elements_raises _ _ _ _ this_objects Hraise) as (objs' & Hloop).
  cbn [CCrossChainProof_Unserialize]. unfold Unserialize_body.
  erewrite bind_Returns by exact Hver.
  erewrite bind_Returns by exact Hsize.
  erewrite bind_Returns by exact Hloop.
  cbn [fst snd]. unfold bind, printf, LogPrintf, ret. cbn [stream log].
  now rewrite <- app_assoc.
Qed.

(** C5, as the code has it: an element whose tag has no case in the
    [switch] yields no object and no error; only the two bytes of the tag
    are consumed and the loop goes on with the next element from there. *)
Theorem unknown_tag_is_skipped (fuel n : nat)
  (objs : list (CChainObject CCrossChainProof)) (st st1 : State) (objType : Z) :
  read uint16_codec st = (Returns objType, st1) ->
  has_case objType = false ->
  read_element (CCrossChainProof_Unserialize fuel) st = (Returns None, st1) /\
  read_elements (CCrossChainProof_Unserialize fuel) (S n) objs st
  = read_elements (CCrossChainProof_Unserialize fuel) n objs st1.
Proof.
  intros Htag Hcase.
  assert (Hone : read_element (CCrossChainProof_Unserialize fuel) st
                 = (Returns None, st1)).
  { unfold read_element. erewrite bind_Returns by exact Htag.
    unfold has_case in Hcase.
    destruct (chain_object_type objType) as [[]|]; try discriminate; reflexivity. }
  split; [exact Hone|]. cbn [read_elements]. now rewrite Hone.
Qed.

End Container.

End ChainObjectFacts.

(** The layout of [Layout] is a [Wire] the container can rely on. *)
Module LayoutFacts.
Import Stream Layout.

Lemma Z_of_byte_of_Z z : Z_of_byte (byte_of_Z z) = z mod 256.
Proof.
  unfold Z_of_byte, byte_of_Z.
  pose proof (Z.mod_pos_bound z 256 ltac:(lia)) as Hm.
  destruct (Byte.of_N (Z.to_N (z mod 256))) as [b|] eqn:Hb.
  - apply Byte.to_of_N in Hb. rewrite Hb. apply Z2N.id. lia.
  - apply Byte.of_N_None_iff in Hb. lia.
Qed.

Lemma Z_of_byte_small z : 0 <= z < 256 -> Z_of_byte (byte_of_Z z) = z.
Proof. intros H. rewrite Z_of_byte_of_Z. now apply Z.mod_small. Qed.

Lemma length_le_put n : forall z, length (le_put n z) = n.
Proof. induction n as [|n IH]; intros z; cbn; [reflexivity | now rewrite IH]. Qed.

Lemma le_value_le_put n : forall z, le_value (le_put n z) = z mod 256 ^ Z.of_nat n.
Proof.
  induction n as [|n IH]; intros z.
  - cbn. now rewrite Z.mod_1_r.
  - cbn [le_put le_value]. rewrite Z_of_byte_of_Z, IH.
    rewrite Nat2Z.inj_succ, Z.pow_succ_r by lia.
    rewrite Z.rem_mul_r; [reflexivity | lia | ]. apply Z.pow_pos_nonneg; lia.
Qed.

Lemma read_bytes_app bs rest :
  read_bytes (length bs) (bs ++ rest) = (Some bs, rest).
Proof.
  unfold read_bytes.
  assert (Hlen : (length (bs ++ rest) <? length bs)%nat = false)
    by (apply Nat.ltb_ge; rewrite length_app; lia).
  rewrite Hlen, firstn_app, skipn_app, firstn_all, skipn_all, Nat.sub_diag.
  cbn. now rewrite app_nil_r.
Qed.

Lemma le_get_le_put n z rest :
  0 <= z < 256 ^ Z.of_nat n -> le_get n (le_put n z ++ rest) = (Some z, rest).
Proof.
  intros Hz. unfold le_get.
  rewrite <- (length_le_put n z) at 1. rewrite read_bytes_app.
  now rewrite le_value_le_put, Z.mod_small.
Qed.

Lemma le_roundtrips n : roundtrips (le_codec n).
Proof. intros z rest Hz. now apply le_get_le_put. Qed.

(** *** VARINT *)

Lemma low7_range n : 0 <= Z.land n 0x7F < 128.
Proof.
  change 0x7F with (Z.ones 7). rewrite Z.land_ones by lia.
  apply Z.mod_pos_bound. reflexivity.
Qed.

Lemma low7_small n : 0 <= n <= 0x7F -> Z.land n 0x7F = n.
Proof.
  intros H. change 0x7F with (Z.ones 7). rewrite Z.land_ones by lia.
  apply Z.mod_small. change (2 ^ 7) with 128. lia.
Qed.

Lemma low7_flag n : Z.land (Z.land n 0x7F) 0x80 = 0.
Proof. rewrite <- Z.land_assoc. cbn [Z.land Pos.land]. apply Z.land_0_r. Qed.

Lemma lor_flag n : Z.lor (Z.land n 0x7F) 0x80 = Z.land n 0x7F + 128.
Proof.
  rewrite <- Z.lxor_lor by apply low7_flag.
  symmetry. apply Z.add_nocarry_lxor, low7_flag.
Qed.

(** The byte [WriteVarInt] computes from [n], as [ReadVarInt] sees it. *)
Lemma varint_byte n (continued : bool) :
  let b := byte_of_Z (Z.lor (Z.land n 0x7F) (if continued then 0x80 else 0x00)) in
  Z.land (Z_of_byte b) 0x7F = Z.land n 0x7F /\
  (Z.land (Z_of_byte b) 0x80 =? 0) = negb continued.
Proof.
  cbn zeta. pose proof (low7_range n) as Hr. destruct continued.
  - rewrite lor_flag, Z_of_byte_small by lia. rewrite <- lor_flag.
    rewrite !Z.land_lor_distr_l, <- !Z.land_assoc. cbn [Z.land Pos.land].
    rewrite Z.land_0_r, !Z.lor_0_r, Z.lor_0_l. split; reflexivity.
  - rewrite Z.lor_0_r, Z_of_byte_small by lia.
    rewrite low7_flag, <- Z.land_assoc. cbn [Z.land Pos.land]. split; reflexivity.
Qed.

Lemma shift_in acc n :
  Z.lor (Z.shiftl acc 7) (Z.land n 0x7F) = acc * 128 + n mod 128.
Proof.
  assert (Hdisjoint : Z.land (Z.shiftl acc 7) (Z.land n 0x7F) = 0).
  { apply Z.bits_inj'. intros i Hi.
    change 0x7F with (Z.ones 7).
    rewrite !Z.land_spec, Z.testbit_ones_nonneg, Z.bits_0 by lia.
    destruct (Z.ltb_spec i 7).
    - now rewrite Z.shiftl_spec_low.
    - now rewrite !andb_false_r. }
  rewrite <- Z.lxor_lor, <- Z.add_nocarry_lxor by assumption.
  rewrite Z.shiftl_mul_pow2 by lia.
  change 0x7F with (Z.ones 7). rewrite Z.land_ones by lia. reflexivity.
Qed.

Lemma WriteVarInt_eq fuel n len :
  WriteVarInt fuel n len =
  let b := byte_of_Z (Z.lor (Z.land n 0x7F) (if len =? 0 then 0x00 else 0x80)) in
  if n <=? 0x7F then [b]
  else match fuel with
       | O => [b]
       | S fuel' => WriteVarInt fuel' (Z.shiftr n 7 - 1) (len + 1) ++ [b]
       end.
Proof. destruct fuel; reflexivity. Qed.

(** One byte of a number read with [acc] read before it. *)
Lemma ReadVarInt_byte n (continued : bool) acc rest :
  0 <= acc * 128 + n mod 128 ->
  acc * 128 + n mod 128 + (if continued then 1 else 0) < 2 ^ 31 ->
  ReadVarInt
    (byte_of_Z (Z.lor (Z.land n 0x7F) (if continued then 0x80 else 0x00)) :: rest) acc
  = if continued then ReadVarInt rest (acc * 128 + n mod 128 + 1)
    else (Some (acc * 128 + n mod 128), rest).
Proof.
  intros Hr Hmax. cbn [ReadVarInt].
  destruct (varint_byte n continued) as [Hlow Hflag]. cbn zeta in Hlow, Hflag.
  rewrite Hlow, Hflag, shift_in.
  rewrite (MachineIntFacts.to_int32_small (acc * 128 + n mod 128))
    by (destruct continued; lia).
  destruct continued; cbn [negb]; [|reflexivity].
  now rewrite MachineIntFacts.to_int32_small by lia.
Qed.

Lemma div_mod_128 k : k / 128 * 128 + k mod 128 = k.
Proof. pose proof (Z.div_mod k 128 ltac:(lia)). lia. Qed.

(** The bytes that precede the last one, read from the start, leave
    [k + 1] as the number read so far. *)
Lemma ReadVarInt_continuation fuel : forall k len rest,
  0 <= k < 128 ^ (Z.of_nat fuel + 1) -> k < 2 ^ 31 - 2 -> 0 < len ->
  ReadVarInt (WriteVarInt fuel k len ++ rest) 0 = ReadVarInt rest (k + 1).
Proof.
  induction fuel as [|fuel IH]; intros k len rest Hk Hmax Hlen;
    rewrite WriteVarInt_eq; cbn zeta;
    assert (Hz : (len =? 0) = false) by (apply Z.eqb_neq; lia); rewrite Hz;
    destruct (Z.leb_spec k 0x7F) as [Hsmall|Hbig].
  - cbn [app]. rewrite (ReadVarInt_byte k true 0 rest); rewrite Z.mod_small; try lia.
    reflexivity.
  - cbn in Hk. lia.
  - cbn [app]. rewrite (ReadVarInt_byte k true 0 rest); rewrite Z.mod_small; try lia.
    reflexivity.
  - rewrite <- app_assoc. cbn [app].
    rewrite Z.shiftr_div_pow2 by lia. change (2 ^ 7) with 128.
    assert (Hdiv : 1 <= k / 128) by (apply Z.div_le_lower_bound; lia).
    assert (Hup : k / 128 < 128 ^ (Z.of_nat fuel + 1)).
    { apply Z.div_lt_upper_bound; [lia|].
      rewrite <- Z.pow_succ_r by lia.
      replace (Z.succ (Z.of_nat fuel + 1)) with (Z.of_nat (S fuel) + 1) by lia.
      lia. }
    assert (Hle : k / 128 <= k) by (apply Z.div_le_upper_bound; lia).
    rewrite IH by lia.
    replace (k / 128 - 1 + 1) with (k / 128) by lia.
    rewrite (ReadVarInt_byte k true (k / 128) rest); rewrite div_mod_128; try lia.
    reflexivity.
Qed.

Lemma VARINT_roundtrips : roundtrips VARINT_int32.
Proof.
  intros z rest Hz.
  change (0 <= z < 2 ^ 31) in Hz.
  change (ReadVarInt (WriteVarInt 4 z 0 ++ rest) 0 = (Some z, rest)).
  rewrite WriteVarInt_eq. cbn zeta. cbn [Z.eqb].
  destruct (Z.leb_spec z 0x7F) as [Hsmall|Hbig].
  - cbn [app]. rewrite (ReadVarInt_byte z false 0 rest); rewrite Z.mod_small; try lia.
    reflexivity.
  - rewrite <- app_assoc. cbn [app].
    rewrite Z.shiftr_div_pow2 by lia. change (2 ^ 7) with 128.
    assert (Hdiv : 1 <= z / 128) by (apply Z.div_le_lower_bound; lia).
    assert (Hup : z / 128 < 2 ^ 24) by (apply Z.div_lt_upper_bound; lia).
    rewrite ReadVarInt_continuation; [ | cbn; lia | lia | lia ].
    replace (z / 128 - 1 + 1) with (z / 128) by lia.
    rewrite (ReadVarInt_byte z false (z / 128) rest); rewrite div_mod_128; try lia.
    reflexivity.
Qed.

(** *** CompactSize and vectors *)

Lemma ReadCompactSize_Write n rest :
  0 <= n <= MAX_SIZE ->
  ReadCompactSize (WriteCompactSize n ++ rest) = (Some n, rest).
Proof.
  unfold MAX_SIZE. intros Hn. unfold WriteCompactSize.
  destruct (Z.ltb_spec n 253) as [H1|H1];
    [|destruct (Z.leb_spec n 0xFFFF) as [H2|H2];
      [|destruct (Z.leb_spec n 0xFFFFFFFF) as [H3|H3]; [|lia]]];
    cbn [app ReadCompactSize]; rewrite Z_of_byte_small by lia.
  - assert (Hc : (n <? 253) = true) by (apply Z.ltb_lt; lia). now rewrite Hc.
  - cbn [Z.ltb Z.eqb Z.compare Pos.compare Pos.compare_cont Pos.eqb].
    rewrite le_get_le_put by (cbn; lia).
    assert (Hc : (n <? 253) = false) by (apply Z.ltb_ge; lia). rewrite Hc.
    assert (Hm : (MAX_SIZE <? n) = false) by (apply Z.ltb_ge; unfold MAX_SIZE; lia).
    now rewrite Hm.
  - cbn [Z.ltb Z.eqb Z.compare Pos.compare Pos.compare_cont Pos.eqb].
    rewrite le_get_le_put by (cbn; lia).
    assert (Hc : (n <? 0x10000) = false) by (apply Z.ltb_ge; lia). rewrite Hc.
    assert (Hm : (MAX_SIZE <? n) = false) by (apply Z.ltb_ge; unfold MAX_SIZE; lia).
    now rewrite Hm.
Qed.

Lemma get_many_put {T} (c : Codec T) (v : list T) rest :
  roundtrips c -> Forall (fits c) v ->
  get_many c (length v) (concat (map (put c) v) ++ rest) = (Some v, rest).
Proof.
  intros Hc Hv. induction Hv as [|x v Hx Hv IH]; [reflexivity|].
  cbn [length map concat get_many].
  rewrite <- app_assoc, (Hc x _ Hx), IH. reflexivity.
Qed.

Lemma vector_roundtrips {T} (c : Codec T) :
  roundtrips c -> roundtrips (vector_codec c).
Proof.
  intros Hc v rest [Hsize Hv].
  change (match ReadCompactSize
                  ((WriteCompactSize (Z.of_nat (length v))
                    ++ concat (map (put c) v)) ++ rest) with
          | (Some n, s1) => get_many c (Z.to_nat n) s1
          | (None, s1) => (None, s1)
          end = (Some v, rest)).
  rewrite <- app_assoc, ReadCompactSize_Write by lia.
  rewrite Nat2Z.id. now apply get_many_put.
Qed.

(** *** What the reads return *)

Lemma Z_of_byte_range b : 0 <= Z_of_byte b < 256.
Proof. unfold Z_of_byte. pose proof (Byte.to_N_bounded b). lia. Qed.

Lemma le_value_range bs : 0 <= le_value bs < 256 ^ Z.of_nat (length bs).
Proof.
  induction bs as [|b bs IH].
  - cbn. lia.
  - cbn [le_value length]. rewrite Nat2Z.inj_succ, Z.pow_succ_r by lia.
    pose proof (Z_of_byte_range b). lia.
Qed.

Lemma le_get_sound n s v s' :
  le_get n s = (Some v, s') -> 0 <= v < 256 ^ Z.of_nat n.
Proof.
  unfold le_get, read_bytes.
  destruct (Nat.ltb_spec (length s) n) as [Hlt|Hge]; [discriminate|].
  intros H. injection H as <- <-.
  pose proof (le_value_range (firstn n s)) as Hr.
  rewrite length_firstn, Nat.min_l in Hr by assumption. exact Hr.
Qed.

Lemma to_int32_range z : - 2 ^ 31 <= MachineInt.to_int32 z < 2 ^ 31.
Proof.
  unfold MachineInt.to_int32, MachineInt.wrap_signed.
  pose proof (Z.mod_pos_bound (z + 2 ^ (32 - 1)) (2 ^ 32) ltac:(lia)).
  change (32 - 1) with 31 in *. lia.
Qed.

Lemma ReadVarInt_sound s : forall n v s',
  ReadVarInt s n = (Some v, s') -> v < 2 ^ 31.
Proof.
  induction s as [|chData s IH]; intros n v s'; cbn [ReadVarInt]; [discriminate|].
  destruct (_ =? 0).
  - intros H. injection H as <- <-. apply to_int32_range.
  - apply IH.
Qed.

Lemma ReadCompactSize_sound s n s' :
  ReadCompactSize s = (Some n, s') -> 0 <= n <= MAX_SIZE.
Proof.
  assert (Hwide : forall k least s1,
    match le_get k s1 with
    | (Some v, s2) =>
        if v <? least then (None, s2)
        else if MAX_SIZE <? v then (None, s2) else (Some v, s2)
    | (None, s2) => (None, s2)
    end = (Some n, s') -> 0 <= n <= MAX_SIZE).
  { intros k least s1. destruct (le_get k s1) as [[v|] s2] eqn:E; [|discriminate].
    apply le_get_sound in E.
    destruct (v <? least); [discriminate|].
    destruct (Z.ltb_spec MAX_SIZE v) as [Hlarge|Hmax]; [discriminate|].
    intros Heq. injection Heq as <- <-. lia. }
  destruct s as [|chSize s1]; cbn [ReadCompactSize]; [discriminate|].
  pose proof (Z_of_byte_range chSize) as Hb.
  destruct (Z.ltb_spec (Z_of_byte chSize) 253) as [Hsmall|Hbig].
  - intros H. injection H as <- <-. unfold MAX_SIZE. lia.
  - destruct (_ =? 253); [apply Hwide|].
    destruct (_ =? 254); apply Hwide.
Qed.

Lemma get_many_sound {T} (c : Codec T) n :
  (forall s x s', get c s = (Some x, s') -> fits c x) ->
  forall s xs s', get_many c n s = (Some xs, s') ->
                  length xs = n /\ Forall (fits c) xs.
Proof.
  intros Hc. induction n as [|n IH]; intros s xs s'; cbn [get_many].
  - intros H. injection H as <- <-. split; [reflexivity|constructor].
  - destruct (get c s) as [[x|] s1] eqn:E; [|discriminate].
    destruct (get_many c n s1) as [[xs'|] s2] eqn:E'; [|discriminate].
    intros H. injection H as <- <-. destruct (IH _ _ _ E') as [Hlen Hall].
    split; [cbn; now rewrite Hlen|]. constructor; [now apply (Hc _ _ _ E)|assumption].
Qed.

Lemma vector_sound {T} (c : Codec T) :
  (forall s x s', get c s = (Some x, s') -> fits c x) ->
  forall s xs s', get (vector_codec c) s = (Some xs, s') -> fits (vector_codec c) xs.
Proof.
  intros Hc s xs s'. cbn [get vector_codec].
  destruct (ReadCompactSize s) as [[n|] s1] eqn:E; [|discriminate].
  apply ReadCompactSize_sound in E. intros H.
  destruct (get_many_sound c _ Hc _ _ _ H) as [Hlen Hall].
  split; [|assumption]. rewrite Hlen. lia.
Qed.

Lemma wire_Sound : WireSound wire.
Proof.
  constructor; cbn [uint32_codec varint_int32_codec uint256_codec
                    vector_uint256_codec CBlockHeaderAndProof_codec
                    CPartialTransactionProof_codec CBlockHeaderProof_codec
                    CReserveTransfer_codec wire].
  - intros s v s' H. exact (le_get_sound 4 s v s' H).
  - intros s v s' H. exact (ReadVarInt_sound s 0 v s' H).
  - intros s v s' H. exact (le_get_sound 32 s v s' H).
  - apply vector_sound. intros s v s' H. exact (le_get_sound 32 s v s' H).
  - intros s v s' H. exact (le_get_sound 4 s v s' H).
  - intros s v s' H. exact (le_get_sound 4 s v s' H).
  - intros s v s' H. exact (le_get_sound 4 s v s' H).
  - intros s v s' H. exact (le_get_sound 4 s v s' H).
Qed.

Lemma wire_OK : WireOK wire.
Proof.
  constructor; cbn [uint16_codec uint32_codec varint_int32_codec uint256_codec
                    vector_uint256_codec CBlockHeaderAndProof_codec
                    CPartialTransactionProof_codec CBlockHeaderProof_codec
                    CReserveTransfer_codec wire];
    try apply le_roundtrips; try apply VARINT_roundtrips;
    try (apply vector_roundtrips, le_roundtrips);
    intros z Hz; exact Hz.
Qed.

End LayoutFacts.

Module RegistryFacts.
Import Registry.

Lemma map_ok_cons_iff {T} k (v : T) (m : std_map T) :
  map_ok ((k, v) :: m) <-> Forall (fun e => k < fst e) m /\ map_ok m.
Proof.
  revert k v. induction m as [|[k' v'] m IH]; intros k v.
  - cbn. split; auto.
  - change (map_ok ((k, v) :: (k', v') :: m))
      with (k < k' /\ map_ok ((k', v') :: m)).
    rewrite (IH k' v'). split.
    + intros (Hlt & Hall & Hok). split; [|tauto].
      constructor; [assumption|].
      eapply Forall_impl; [|exact Hall]. cbn. intros e He. lia.
    + intros (Hall & Hrest). inversion Hall; subst. cbn in *. tauto.
Qed.

Lemma map_ok_filter {T} (f : Z * T -> bool) (m : std_map T) :
  map_ok m -> map_ok (filter f m).
Proof.
  induction m as [|[k v] m IH]; intros Hok; [exact I|].
  apply map_ok_cons_iff in Hok. destruct Hok as [Hall Hok].
  cbn [filter]. destruct (f (k, v)); [|now apply IH].
  apply map_ok_cons_iff. split; [|now apply IH].
  apply Forall_forall. intros e He. apply filter_In in He.
  rewrite Forall_forall in Hall. now apply Hall.
Qed.

(** The first key of a [std::map] is its least key. *)
Lemma LowestTarget_least chains (targets : std_map Z) :
  map_ok targets ->
  forall t, In t (map fst targets) ->
    In (LowestTarget (mkCConnectedChains chains targets)) (map fst targets) /\
    LowestTarget (mkCConnectedChains chains targets) <= t.
Proof.
  intros Hok t Ht. destruct targets as [|[k v] m]; [contradiction|].
  unfold LowestTarget. cbn. split; [now left|].
  apply map_ok_cons_iff in Hok. destruct Hok as [Hall _].
  cbn in Ht. destruct Ht as [<-|Ht]; [lia|].
  apply in_map_iff in Ht. destruct Ht as (e & <- & He).
  rewrite Forall_forall in Hall. specialize (Hall e He). lia.
Qed.

(** The lowest target is the registered target below all the others. *)
Lemma LowestTarget_unique chains (targets : std_map Z) T :
  map_ok targets -> In T (map fst targets) ->
  (forall t, In t (map fst targets) -> T <= t) ->
  LowestTarget (mkCConnectedChains chains targets) = T.
Proof.
  intros Hok HT Hmin.
  destruct (LowestTarget_least chains targets Hok T HT) as [Hin Hle].
  specialize (Hmin _ Hin). lia.
Qed.

(** C8: [LowestTarget] is the sentinel zero when no target is registered;
    otherwise it is a registered target and no registered target is below
    it; and in a registry that holds the targets [T1 < T2 < T3], whose
    smallest is owned by a registered chain that owns no other, it is [T1],
    and [T2] once that chain has been removed. *)
Theorem LowestTarget_is_smallest (this : CConnectedChains) :
  map_ok (mergeMinedTargets this) ->
  (registered_targets this = [] -> LowestTarget this = 0) /\
  (forall t, In t (registered_targets this) ->
     In (LowestTarget this) (registered_targets this) /\ LowestTarget this <= t) /\
  (forall T1 T2 T3 c1 c2 c3,
     T1 < T2 < T3 -> c2 <> c1 -> c3 <> c1 ->
     (forall e, In e (mergeMinedTargets this)
                <-> In e [(T1, c1); (T2, c2); (T3, c3)]) ->
     map_find c1 (mergeMinedChains this) <> None ->
     LowestTarget this = T1 /\
     LowestTarget (snd (RemoveMergedBlock this c1)) = T2).
Proof.
  intros Hok. destruct this as [chains targets]. cbn [mergeMinedTargets] in Hok.
  unfold registered_targets. cbn [mergeMinedTargets mergeMinedChains].
  split; [|split].
  - intros Hnone. destruct targets; [reflexivity|discriminate].
  - now apply LowestTarget_least.
  - intros T1 T2 T3 c1 c2 c3 HT Hc2 Hc3 Hmem Hreg.
    assert (Hkeys : forall (m : std_map Z) (P : Z * Z -> Prop) t,
               (forall e, In e m <-> P e) ->
               In t (map fst m) <-> exists c, P (t, c)).
    { intros m P t HP. rewrite in_map_iff. split.
      - intros ([t' c] & <- & He). exists c. now apply HP.
      - intros (c & Hc). exists (t, c). split; [reflexivity | now apply HP]. }
    split.
    + apply LowestTarget_unique; [assumption| |].
      * apply (Hkeys _ _ _ Hmem). exists c1. now left.
      * intros t Ht. apply (Hkeys _ _ _ Hmem) in Ht. destruct Ht as (c & Hc).
        cbn in Hc. destruct Hc as [Hc|[Hc|[Hc|[]]]]; injection Hc as <- _; lia.
    + unfold RemoveMergedBlock. cbn [mergeMinedChains mergeMinedTargets].
      destruct (map_find c1 chains) as [data|]; [|contradiction]. cbn [snd].
      set (keep := fun e : Z * Z => negb (snd e =? c1)).
      assert (Hmem' : forall e, In e (filter keep targets)
                                <-> In e [(T2, c2); (T3, c3)]).
      { intros e. rewrite filter_In, Hmem. unfold keep. cbn [In]. split.
        - intros [[<-|[<-|[<-|[]]]] Hkeep]; cbn [snd] in Hkeep.
          + rewrite Z.eqb_refl in Hkeep. discriminate.
          + now left.
          + right. now left.
        - intros [<-|[<-|[]]]; cbn [snd]; (split; [tauto|]);
            apply negb_true_iff, Z.eqb_neq; assumption. }
      apply LowestTarget_unique; [now apply map_ok_filter| |].
      * apply (Hkeys _ _ _ Hmem'). exists c2. now left.
      * intros t Ht. apply (Hkeys _ _ _ Hmem') in Ht. destruct Ht as (c & Hc).
        cbn in Hc. destruct Hc as [Hc|[Hc|[]]]; injection Hc as <- _; lia.
Qed.

End RegistryFacts.

Module ExampleFacts.
Import Stream PBaaS Layout Registry Examples.
#[local] Existing Instance wire.

Ltac fits_all :=
  cbv delta [outer_proof nested_object inner_proof proof_root]; cbn;
  repeat match goal with
         | |- _ /\ _ => split
         | |- Forall _ _ => constructor
         | |- True => exact I
         | |- _ = _ \/ _ => first [ left; reflexivity | right; reflexivity ]
         end;
  try reflexivity; try (unfold MAX_SIZE; lia).

(** The container of one proof root on the wire, and back. *)
Example inner_proof_written :
  CCrossChainProof_Serialize inner_proof
  = Some (map byte_of_Z ([1; 0; 0; 0; 1; 4; 0; 7] ++ repeat 0 31)).
Proof. reflexivity. Qed.

Example inner_proof_read :
  CCrossChainProof_Unserialize 1 []
    (stream_of ([1; 0; 0; 0; 1; 4; 0; 7] ++ repeat 0 31))
  = (Returns inner_proof, stream_of []).
Proof. reflexivity. Qed.

(** A container to which a header with its proof was appended cannot be
    written: the object is stored under the tag of a header reference. *)
Example appended_header_not_written :
  CCrossChainProof_Serialize
    (append_CBlockHeaderAndProof CCrossChainProof_default 5) = None /\
  TypeVector (append_CBlockHeaderAndProof CCrossChainProof_default 5)
  = [type_code CHAINOBJ_HEADER_REF].
Proof. split; reflexivity. Qed.

Lemma nested_object_well_tagged : well_tagged Decodable nested_object.
Proof. fits_all. Defined.

Lemma outer_proof_Decodable : Decodable outer_proof.
Proof. fits_all. Defined.

Lemma chain_object_roundtrip_witness :
  WireOK wire /\
  well_tagged Decodable nested_object /\
  Decodable outer_proof /\
  (exists bytes,
     DehydrateChainObject nested_object = Some (bytes, true) /\
     forall fuel rest lg,
       (object_depth nested_object <= fuel)%nat ->
       read_element (CCrossChainProof_Unserialize fuel) (mkState (bytes ++ rest) lg)
       = (Returns (Some nested_object), mkState rest lg)) /\
  (exists bytes,
     CCrossChainProof_Serialize outer_proof = Some bytes /\
     forall fuel rest lg,
       (depth outer_proof <= fuel)%nat ->
       CCrossChainProof_Unserialize fuel [] (mkState (bytes ++ rest) lg)
       = (Returns outer_proof, mkState rest lg)).
Proof.
  split; [exact LayoutFacts.wire_OK|].
  split; [exact nested_object_well_tagged|].
  split; [exact outer_proof_Decodable|].
  exact (ChainObjectFacts.chain_object_roundtrip LayoutFacts.wire_OK
           nested_object outer_proof
           nested_object_well_tagged outer_proof_Decodable).
Defined.

Lemma copy_fidelity_witness :
  WireOK wire /\
  Decodable outer_proof /\
  (depth outer_proof <= 2)%nat /\
  exists copy bytes,
    CCrossChainProof_copy 2 outer_proof (stream_of []) = (Returns copy, stream_of []) /\
    CCrossChainProof_assign 2 inner_proof outer_proof (stream_of [])
    = (Returns copy, stream_of []) /\
    CCrossChainProof_Serialize outer_proof = Some bytes /\
    CCrossChainProof_Serialize copy = Some bytes.
Proof.
  split; [exact LayoutFacts.wire_OK|].
  split; [exact outer_proof_Decodable|].
  assert (Hdepth : (depth outer_proof <= 2)%nat) by (vm_compute; lia).
  split; [exact Hdepth|].
  exact (ChainObjectFacts.copy_fidelity LayoutFacts.wire_OK
           outer_proof inner_proof 2 (stream_of [])
           outer_proof_Decodable Hdepth).
Defined.

(** In [truncated_stream] the first element is read and the read of the
    second throws. *)
Lemma truncated_element_raises :
  element_raises (read_element (CCrossChainProof_Unserialize 0))
    2 truncated_elements truncated_at_throw.
Proof.
  apply (raises_later _ 1 truncated_elements
           (Some (proof_root (le_value (map byte_of_Z (repeat 7 32)))))
           (stream_of [4; 0; 1; 2; 3])).
  - reflexivity.
  - apply raises_here. reflexivity.
Qed.

Lemma truncated_header :
  read uint32_codec truncated_stream
  = (Returns 1, stream_of ([2; 4; 0] ++ repeat 7 32 ++ [4; 0; 1; 2; 3])) /\
  read varint_int32_codec (stream_of ([2; 4; 0] ++ repeat 7 32 ++ [4; 0; 1; 2; 3]))
  = (Returns 2, truncated_elements).
Proof. split; reflexivity. Qed.

(** C4, as the specification states it, fails on [truncated_stream]: the
    read of its second element throws, and the caller is not given an
    error: the read returns, with an empty container. *)
Lemma element_failure_is_not_surfaced :
  element_raises (read_element (CCrossChainProof_Unserialize 0))
    2 truncated_elements truncated_at_throw /\
  CCrossChainProof_Unserialize 1 [] truncated_stream
  = (Returns (mkCCrossChainProof 1 []),
     mkState (stream truncated_at_throw) [corrupt_opret; corrupt_opret]) /\
  ~ (exists f st', CCrossChainProof_Unserialize 1 [] truncated_stream = (Raises f, st')).
Proof.
  split; [exact truncated_element_raises|].
  assert (H : CCrossChainProof_Unserialize 1 [] truncated_stream
              = (Returns (mkCCrossChainProof 1 []),
                 mkState (stream truncated_at_throw) [corrupt_opret; corrupt_opret]))
    by reflexivity.
  split; [exact H|].
  intros (f & st' & Hraise). rewrite H in Hraise. discriminate.
Qed.

Lemma element_failure_empties_container_witness :
  read uint32_codec truncated_stream
  = (Returns 1, stream_of ([2; 4; 0] ++ repeat 7 32 ++ [4; 0; 1; 2; 3])) /\
  read varint_int32_codec (stream_of ([2; 4; 0] ++ repeat 7 32 ++ [4; 0; 1; 2; 3]))
  = (Returns 2, truncated_elements) /\
  element_raises (read_element (CCrossChainProof_Unserialize 0))
    (Z.to_nat 2) truncated_elements truncated_at_throw /\
  CCrossChainProof_Unserialize 1 [proof_root 5] truncated_stream
  = (Returns (mkCCrossChainProof 1 []),
     mkState (stream truncated_at_throw)
       (log truncated_at_throw ++ [corrupt_opret; corrupt_opret])).
Proof.
  split; [exact (proj1 truncated_header)|].
  split; [exact (proj2 truncated_header)|].
  split; [exact truncated_element_raises|].
  exact (ChainObjectFacts.element_failure_empties_container 0 [proof_root 5]
           truncated_stream _ truncated_elements truncated_at_throw 1 2
           (proj1 truncated_header) (proj2 truncated_header)
           truncated_element_raises).
Defined.

(** The outcome on [truncated_stream] is the same however deep the reader
    may go. *)
Lemma truncated_stream_any_fuel fuel :
  CCrossChainProof_Unserialize (S fuel) [] truncated_stream
  = (Returns (mkCCrossChainProof 1 []),
     mkState (stream truncated_at_throw) [corrupt_opret; corrupt_opret]).
Proof.
  induction fuel as [|fuel IH]; [reflexivity|].
  apply ChainObjectFacts.Unserialize_more_fuel; [exact IH|discriminate].
Qed.

Lemma unknown_tag_read :
  read uint16_codec unknown_tag_elements = (Returns 9, after_unknown_tag).
Proof. reflexivity. Qed.

(** C5, as the specification states it, fails on [unknown_tag_stream]: the
    element with tag 9 is dropped without any error, nothing is logged, and
    the element after it is read into the container. *)
Lemma unknown_tag_is_not_an_error :
  has_case 9 = false /\
  CCrossChainProof_Unserialize 1 [] unknown_tag_stream
  = (Returns (mkCCrossChainProof 1 [proof_root 0]), mkState [] []) /\
  ~ (exists f st', CCrossChainProof_Unserialize 1 [] unknown_tag_stream = (Raises f, st')).
Proof.
  split; [reflexivity|].
  assert (H : CCrossChainProof_Unserialize 1 [] unknown_tag_stream
              = (Returns (mkCCrossChainProof 1 [proof_root 0]), mkState [] []))
    by reflexivity.
  split; [exact H|].
  intros (f & st' & Hraise). rewrite H in Hraise. discriminate.
Qed.

Lemma unknown_tag_stream_any_fuel fuel :
  CCrossChainProof_Unserialize (S fuel) [] unknown_tag_stream
  = (Returns (mkCCrossChainProof 1 [proof_root 0]), mkState [] []).
Proof.
  induction fuel as [|fuel IH]; [reflexivity|].
  apply ChainObjectFacts.Unserialize_more_fuel; [exact IH|discriminate].
Qed.

Lemma unknown_tag_is_skipped_witness :
  read uint16_codec unknown_tag_elements = (Returns 9, after_unknown_tag) /\
  has_case 9 = false /\
  read_element (CCrossChainProof_Unserialize 0) unknown_tag_elements
  = (Returns None, after_unknown_tag) /\
  read_elements (CCrossChainProof_Unserialize 0) 2 [] unknown_tag_elements
  = read_elements (CCrossChainProof_Unserialize 0) 1 [] after_unknown_tag.
Proof.
  split; [exact unknown_tag_read|].
  split; [reflexivity|].
  exact (ChainObjectFacts.unknown_tag_is_skipped 0 1 []
           unknown_tag_elements after_unknown_tag 9
           unknown_tag_read eq_refl).
Defined.

Lemma three_chains_ok : map_ok (mergeMinedTargets three_chains).
Proof. cbn. lia. Defined.

Lemma LowestTarget_is_smallest_witness :
  map_ok (mergeMinedTargets three_chains) /\
  LowestTarget three_chains = 10 /\
  LowestTarget (snd (RemoveMergedBlock three_chains 1)) = 20.
Proof.
  split; [exact three_chains_ok|].
  refine (proj2 (proj2 (RegistryFacts.LowestTarget_is_smallest three_chains
                          three_chains_ok))
            10 20 30 1 2 3 _ _ _ _ _).
  - lia.
  - discriminate.
  - discriminate.
  - intros e. reflexivity.
  - discriminate.
Defined.

End ExampleFacts.

(* ================================================================== *)
(** * Further properties of the code *)

Module NonceActivationFacts.
Import NonceActivation.

Lemma activation_heights_aux (ASSETCHAINS_SYMBOL : string) (height : Z) :
  NewPOSActive ASSETCHAINS_SYMBOL height
  = negb (ASSETCHAINS_SYMBOL =? "VRSC")%string && (96580 <=? height) /\
  NewNonceActive ASSETCHAINS_SYMBOL height
  = negb (ASSETCHAINS_SYMBOL =? "VRSC")%string && (96480 <=? height).
Proof.
  unfold NewPOSActive, NewNonceActive.
  destruct (ASSETCHAINS_SYMBOL =? "VRSC")%string; cbn [orb negb andb]; [auto|].
  change (96480 + 100) with 96580. change (1000 + 100) with 1100.
  destruct (Z.ltb_spec height 96580), (Z.ltb_spec height 96480),
    (Z.leb_spec 96580 height), (Z.leb_spec 96480 height); try lia;
    destruct (ASSETCHAINS_SYMBOL =? "VRSCTEST")%string; cbn [andb];
    destruct (Z.ltb_spec height 1100), (Z.ltb_spec height 1000);
    try lia; auto.
Qed.

(** X1: the new proof of stake is active exactly on a chain other than
    VRSC from height 96580 on, and the new nonce exactly on a chain other
    than VRSC from height 96480 on; the heights 1100 and 1000 written for
    VRSCTEST take no part in either answer. *)
Theorem activation_heights (ASSETCHAINS_SYMBOL : string) (height : Z) :
  NewPOSActive ASSETCHAINS_SYMBOL height
  = negb (ASSETCHAINS_SYMBOL =? "VRSC")%string && (96580 <=? height) /\
  NewNonceActive ASSETCHAINS_SYMBOL height
  = negb (ASSETCHAINS_SYMBOL =? "VRSC")%string && (96480 <=? height).
Proof. apply activation_heights_aux. Qed.

(** X2: where the new proof of stake is active the new nonce is active
    too, and both stay active at every later height. *)
Theorem activation_is_monotone (ASSETCHAINS_SYMBOL : string) (height later : Z) :
  height <= later ->
  NewPOSActive ASSETCHAINS_SYMBOL height = true ->
  NewNonceActive ASSETCHAINS_SYMBOL height = true /\
  NewPOSActive ASSETCHAINS_SYMBOL later = true /\
  NewNonceActive ASSETCHAINS_SYMBOL later = true.
Proof.
  intros Hle.
  destruct (activation_heights_aux ASSETCHAINS_SYMBOL height) as [-> ->].
  destruct (activation_heights_aux ASSETCHAINS_SYMBOL later) as [-> ->].
  destruct (ASSETCHAINS_SYMBOL =? "VRSC")%string; cbn [negb andb]; [discriminate|].
  intros H. apply Z.leb_le in H.
  repeat split; apply Z.leb_le; lia.
Qed.

Lemma activation_is_monotone_witness :
  96580 <= 100000 /\
  NewPOSActive "VRSCTEST" 96580 = true /\
  NewNonceActive "VRSCTEST" 96580 = true /\
  NewPOSActive "VRSCTEST" 100000 = true /\
  NewNonceActive "VRSCTEST" 100000 = true.
Proof.
  assert (Hle : 96580 <= 100000) by lia.
  split; [exact Hle|]. split; [reflexivity|].
  exact (activation_is_monotone "VRSCTEST" 96580 100000 Hle eq_refl).
Defined.

End NonceActivationFacts.

Module NonceEntropyFacts.
Import Nonce.

Lemma low96_testbit n : 0 <= n -> Z.testbit low96 n = (n <? 96).
Proof.
  intros Hn. change low96 with (Z.ones 96). now apply Z.testbit_ones_nonneg.
Qed.

Lemma below_pow2 a n :
  0 <= n -> 0 <= a -> (forall i, n <= i -> Z.testbit a i = false) -> a < 2 ^ n.
Proof.
  intros Hn Ha Hbits.
  assert (Hmod : a mod 2 ^ n = a).
  { apply Z.bits_inj'. intros i Hi. destruct (Z.lt_ge_cases i n).
    - now apply Z.mod_pow2_bits_low.
    - rewrite Z.mod_pow2_bits_high by lia. symmetry. now apply Hbits. }
  rewrite <- Hmod. apply Z.mod_pos_bound. now apply Z.pow_pos_nonneg.
Qed.

Section WithHash.
Variable GetHash : list hashed_item -> Z.

(** A bit of the 128 low bits both functions compute. *)
Lemma arNonce_testbit this pastHash txid voutNum i :
  0 <= i ->
  Z.testbit (arNonce GetHash this pastHash txid voutNum) i
  = if i <? 32 then Z.testbit this i
    else (i <? 128)
         && Z.testbit
              (GetHash [item_uint256 pastHash; item_uint256 txid; item_int32 voutNum])
              (i - 32).
Proof.
  intros Hi. unfold arNonce, arith_or, arith_and.
  rewrite Z.lor_spec, Z.land_spec, NonceFacts.testbit_low32,
    NonceFacts.arith_shl_testbit, Z.land_spec by lia.
  destruct (Z.ltb_spec i 32).
  - rewrite (Z.testbit_neg_r _ (i - 32)) by lia. cbn [andb].
    now rewrite andb_true_r, andb_false_r, orb_false_r.
  - rewrite low96_testbit by lia. rewrite andb_false_r. cbn [orb].
    destruct (Z.ltb_spec i 256), (Z.ltb_spec (i - 32) 96), (Z.ltb_spec i 128);
      try lia; cbn [andb]; now rewrite ?andb_true_r, ?andb_false_r.
Qed.

(** A bit of the nonce [SetPOSEntropy] leaves. *)
Lemma SetPOSEntropy_testbit this pastHash txid voutNum i :
  0 <= i ->
  Z.testbit (SetPOSEntropy GetHash this pastHash txid voutNum) i
  = if i <? 128 then Z.testbit (arNonce GetHash this pastHash txid voutNum) i
    else (i <? 256)
         && Z.testbit
              (GetHash [item_uint256 (arNonce GetHash this pastHash txid voutNum)])
              (i - 128).
Proof.
  intros Hi. unfold SetPOSEntropy. cbn zeta. unfold arith_or at 1.
  rewrite Z.lor_spec, NonceFacts.arith_shl_testbit by lia.
  destruct (Z.ltb_spec i 128).
  - rewrite (Z.testbit_neg_r _ (i - 128)) by lia. now rewrite andb_false_r.
  - rewrite (arNonce_testbit _ _ _ _ i) by lia.
    destruct (Z.ltb_spec i 32), (Z.ltb_spec i 128); try lia.
    all: cbn [andb]; now rewrite orb_false_r.
Qed.

Lemma SetPOSEntropy_nonneg this pastHash txid voutNum :
  0 <= SetPOSEntropy GetHash this pastHash txid voutNum.
Proof.
  unfold SetPOSEntropy, arNonce, arith_or, arith_and, arith_shl,
    MachineInt.wrap_unsigned. cbn zeta.
  repeat (apply Z.lor_nonneg; split);
    try (apply Z.mod_pos_bound; reflexivity).
  apply Z.land_nonneg. right. discriminate.
Qed.

(** Where the nonce [SetPOSEntropy] leaves holds what. *)
Lemma entropy_layout this pastHash txid voutNum :
  let nonce := SetPOSEntropy GetHash this pastHash txid voutNum in
  0 <= nonce < 2 ^ 256 /\
  Z.land nonce 0xffffffff = Z.land this 0xffffffff /\
  Z.land (Z.shiftr nonce 32) low96
  = Z.land (GetHash [item_uint256 pastHash; item_uint256 txid; item_int32 voutNum])
      low96 /\
  Z.shiftr nonce 128
  = GetHash [item_uint256 (Z.land nonce (Z.ones 128))] mod 2 ^ 128.
Proof.
  cbn zeta.
  assert (Hlow128 : Z.land (SetPOSEntropy GetHash this pastHash txid voutNum)
                      (Z.ones 128)
                    = arNonce GetHash this pastHash txid voutNum).
  { apply Z.bits_inj'. intros i Hi.
    rewrite Z.land_spec, Z.testbit_ones_nonneg, SetPOSEntropy_testbit by lia.
    destruct (Z.ltb_spec i 128); [now rewrite andb_true_r|].
    rewrite andb_false_r, arNonce_testbit by lia.
    destruct (Z.ltb_spec i 32), (Z.ltb_spec i 128); try lia; reflexivity. }
  split; [|split; [|split]].
  - split; [apply SetPOSEntropy_nonneg|].
    apply below_pow2; [lia | apply SetPOSEntropy_nonneg | ].
    intros i Hi. rewrite SetPOSEntropy_testbit by lia.
    destruct (Z.ltb_spec i 128), (Z.ltb_spec i 256); try lia; reflexivity.
  - apply NonceFacts.SetPOSEntropy_low32.
  - apply Z.bits_inj'. intros i Hi.
    rewrite !Z.land_spec, Z.shiftr_spec, SetPOSEntropy_testbit,
      low96_testbit by lia.
    destruct (Z.ltb_spec i 96); [|now rewrite !andb_false_r].
    rewrite !andb_true_r.
    destruct (Z.ltb_spec (i + 32) 128); [|lia].
    rewrite arNonce_testbit by lia.
    destruct (Z.ltb_spec (i + 32) 32), (Z.ltb_spec (i + 32) 128); try lia.
    all: cbn [andb]; f_equal; lia.
  - rewrite Hlow128. apply Z.bits_inj'. intros i Hi.
    rewrite Z.shiftr_spec, SetPOSEntropy_testbit by lia.
    destruct (Z.ltb_spec (i + 128) 128); [lia|].
    replace (i + 128 - 128) with i by lia.
    destruct (Z.ltb_spec (i + 128) 256).
    + rewrite Z.mod_pow2_bits_low by lia. reflexivity.
    + rewrite Z.mod_pow2_bits_high by lia. reflexivity.
Qed.

(** X3: [SetPOSEntropy] run twice with the same entropy sources gives what
    one run gives, and of the nonce it starts from only the 32 low bits
    matter. *)
Theorem SetPOSEntropy_idempotent this pastHash txid voutNum :
  SetPOSEntropy GetHash (SetPOSEntropy GetHash this pastHash txid voutNum)
    pastHash txid voutNum
  = SetPOSEntropy GetHash this pastHash txid voutNum /\
  SetPOSEntropy GetHash (Z.land this 0xffffffff) pastHash txid voutNum
  = SetPOSEntropy GetHash this pastHash txid voutNum.
Proof.
  split.
  - unfold SetPOSEntropy at 1 3. cbn zeta.
    now rewrite NonceFacts.arNonce_SetPOSEntropy.
  - assert (H : arNonce GetHash (Z.land this 0xffffffff) pastHash txid voutNum
                = arNonce GetHash this pastHash txid voutNum).
    { unfold arNonce, arith_and. rewrite <- Z.land_assoc.
      now rewrite (Z.land_diag 0xffffffff). }
    unfold SetPOSEntropy. cbn zeta. now rewrite H.
Qed.

(** X4: the nonce [SetPOSEntropy] leaves is a 256-bit number whose bits
    0..31 are those of the nonce before, whose bits 32..127 are the 96 low
    bits of the hash of pastHash, txid and voutNum, and whose bits 128..255
    are the 128 low bits of the hash of its own 128 low bits. *)
Theorem SetPOSEntropy_layout this pastHash txid voutNum :
  let nonce := SetPOSEntropy GetHash this pastHash txid voutNum in
  0 <= nonce < 2 ^ 256 /\
  Z.land nonce 0xffffffff = Z.land this 0xffffffff /\
  Z.land (Z.shiftr nonce 32) low96
  = Z.land (GetHash [item_uint256 pastHash; item_uint256 txid; item_int32 voutNum])
      low96 /\
  Z.shiftr nonce 128
  = GetHash [item_uint256 (Z.land nonce (Z.ones 128))] mod 2 ^ 128.
Proof. apply entropy_layout. Qed.

(** X5: a nonce passes [CheckPOSEntropy] only if it is bound to the
    entropy sources: it is a 256-bit number, its bits 32..127 are the 96
    low bits of the hash of pastHash, txid and voutNum, and its bits
    128..255 the 128 low bits of the hash of its 128 low bits. *)
Theorem CheckPOSEntropy_binds this pastHash txid voutNum :
  CheckPOSEntropy GetHash this pastHash txid voutNum = true ->
  0 <= this < 2 ^ 256 /\
  Z.land (Z.shiftr this 32) low96
  = Z.land (GetHash [item_uint256 pastHash; item_uint256 txid; item_int32 voutNum])
      low96 /\
  Z.shiftr this 128
  = GetHash [item_uint256 (Z.land this (Z.ones 128))] mod 2 ^ 128.
Proof.
  intros Hcheck. unfold CheckPOSEntropy in Hcheck. cbn zeta in Hcheck.
  apply Z.eqb_eq in Hcheck.
  change (this = SetPOSEntropy GetHash this pastHash txid voutNum) in Hcheck.
  destruct (entropy_layout this pastHash txid voutNum) as (Hr & _ & Hmid & Htop).
  cbn zeta in Hr, Hmid, Htop. rewrite <- Hcheck in Hr, Hmid, Htop. auto.
Qed.

End WithHash.

Lemma CheckPOSEntropy_binds_witness :
  let nonce := SetPOSEntropy NonceExamples.toy_hash 99 11 22 3 in
  CheckPOSEntropy NonceExamples.toy_hash nonce 11 22 3 = true /\
  0 <= nonce < 2 ^ 256 /\
  Z.land (Z.shiftr nonce 32) low96
  = Z.land (NonceExamples.toy_hash [item_uint256 11; item_uint256 22; item_int32 3])
      low96 /\
  Z.shiftr nonce 128
  = NonceExamples.toy_hash [item_uint256 (Z.land nonce (Z.ones 128))] mod 2 ^ 128.
Proof.
  cbn zeta.
  assert (H : CheckPOSEntropy NonceExamples.toy_hash
                (SetPOSEntropy NonceExamples.toy_hash 99 11 22 3) 11 22 3 = true)
    by (vm_compute; reflexivity).
  split; [exact H|].
  exact (CheckPOSEntropy_binds NonceExamples.toy_hash _ 11 22 3 H).
Defined.

End NonceEntropyFacts.

Module MemberFacts.
Import Stream PBaaS PBaaSMore.
Local Open Scope stream_scope.

Section OpRet.
Context {W : Wire} {MW : MoreWire}.

Lemma run_calls_lists cs : forall this,
  types (run_calls this cs)
  = types this ++ map (fun c => MachineInt.to_uint8 (call_type c)) cs /\
  hashes (run_calls this cs) = hashes this ++ map call_hash cs /\
  orIndex (run_calls this cs) = orIndex this.
Proof.
  induction cs as [|c cs IH]; intros this; cbn [run_calls fold_left map].
  - now rewrite !app_nil_r.
  - fold (run_calls (run_call this c) cs).
    destruct (IH (run_call this c)) as (-> & -> & ->).
    destruct c; cbn; rewrite <- !app_assoc; auto.
Qed.

(** X6: after any sequence of [AddObject] calls on a default-constructed
    [COpRetProof], [types] and [hashes] list the calls in the order they
    were made, the i-th type beside the i-th hash; each type is stored as
    a byte, [orIndex] stays 0, and the code of an enumerator is stored as
    it is. *)
Theorem AddObject_records_calls (cs : list AddObject_call) :
  let p := run_calls COpRetProof_default cs in
  types p = map (fun c => MachineInt.to_uint8 (call_type c)) cs /\
  hashes p = map call_hash cs /\
  combine (types p) (hashes p)
  = map (fun c => (MachineInt.to_uint8 (call_type c), call_hash c)) cs /\
  orIndex p = 0 /\
  Forall (fun t => 0 <= t < 256) (types p) /\
  (forall t, chain_object_type (MachineInt.to_uint8 (type_code t)) = Some t).
Proof.
  cbn zeta. destruct (run_calls_lists cs COpRetProof_default) as (Ht & Hh & Hi).
  cbn [types hashes orIndex COpRetProof_default app] in Ht, Hh, Hi.
  rewrite Ht, Hh, Hi. repeat split.
  - clear. induction cs as [|c cs IH]; cbn; [reflexivity|now rewrite IH].
  - apply Forall_forall. intros t Hin. apply in_map_iff in Hin.
    destruct Hin as (c & <- & _). apply Z.mod_pos_bound. reflexivity.
  - intros t. now destruct t.
Qed.

Hypothesis OK : WireOK W.
Hypothesis vector_uint8_ok : roundtrips vector_uint8_codec.

(** X7: a [COpRetProof] written to a stream is read back as it was, and
    the read stops where the write stopped. *)
Theorem COpRetProof_roundtrip (o : COpRetProof) (rest : list byte) :
  fits COpRetProof_codec o ->
  get COpRetProof_codec (put COpRetProof_codec o ++ rest) = (Some o, rest).
Proof.
  destruct o as [index ts hs]. intros (Hi & Ht & Hh). cbn in Hi, Ht, Hh.
  cbn [get put COpRetProof_codec orIndex types hashes].
  rewrite <- !app_assoc.
  rewrite (uint32_ok W OK index _ (uint32_range W OK index Hi)).
  rewrite (vector_uint8_ok ts _ Ht).
  now rewrite (vector_uint256_ok W OK hs rest Hh).
Qed.

End OpRet.

Section Append.
Context {W : Wire} {MW : MoreWire}.

Hypothesis OK : WireOK W.

Lemma copy_of_canonical fuel c st :
  Decodable c -> (depth c <= fuel)%nat ->
  CCrossChainProof_copy fuel c st = (Returns c, st).
Proof.
  intros Hc Hfuel.
  destruct (ChainObjectFacts.container_roundtrip OK c Hc) as (bytes & Hbytes & Hread).
  specialize (Hread fuel [] (log st) Hfuel). rewrite app_nil_r in Hread.
  unfold CCrossChainProof_copy, through_stream. rewrite Hbytes, Hread.
  now destruct st.
Qed.

Lemma append_all_objects fuel xs : forall this st,
  Forall (canonical_operand fuel) xs ->
  append_all fuel this xs st
  = (Returns (mkCCrossChainProof (version this)
       (chainObjects this
        ++ map (fun x => mkCChainObject (type_code (stored_tag x)) (stored_object x))
             xs)),
     st).
Proof.
  induction xs as [|x xs IH]; intros this st Hxs; cbn [append_all map].
  - unfold ret. rewrite app_nil_r. now destruct this.
  - inversion Hxs as [|? ? Hx Hrest]; subst.
    assert (Hone : append fuel this x st
                   = (Returns (mkCCrossChainProof (version this)
                        (chainObjects this
                         ++ [mkCChainObject (type_code (stored_tag x))
                               (stored_object x)])), st)).
    { destruct x; try reflexivity.
      destruct Hx as [Hc Hd]. cbn [append]. unfold append_CCrossChainProof.
      erewrite ChainObjectFacts.bind_Returns by now apply copy_of_canonical.
      reflexivity. }
    erewrite ChainObjectFacts.bind_Returns by exact Hone.
    rewrite (IH _ st Hrest). cbn [version chainObjects].
    now rewrite <- app_assoc.
Qed.

(** X8: a chain of [operator<<] whose container operands are containers
    the codec is made for (the copy each is stored as is then the operand
    itself) returns without an exception and without a log line; it
    leaves the version as it was and the objects held before in place,
    and adds one object for each operand, in the order of the operands.
    [TypeVector] then lists the tags in that order (a
    [CBlockHeaderAndProof] under [CHAINOBJ_HEADER_REF], a
    [CBlockHeaderProof] under [CHAINOBJ_HEADER]), and the container is
    empty only if it was and nothing was appended. *)
Theorem append_all_in_order (fuel : nat) (this : CCrossChainProof)
  (xs : list operand) (st : State) :
  Forall (canonical_operand fuel) xs ->
  exists c,
    append_all fuel this xs st = (Returns c, st) /\
    version c = version this /\
    chainObjects c
    = chainObjects this
      ++ map (fun x => mkCChainObject (type_code (stored_tag x)) (stored_object x)) xs /\
    TypeVector c = TypeVector this ++ map (fun x => type_code (stored_tag x)) xs /\
    Empty c = Empty this && (length xs =? 0)%nat.
Proof.
  intros Hxs. eexists. split; [exact (append_all_objects fuel xs this st Hxs)|].
  cbn [version chainObjects]. split; [reflexivity|]. split; [reflexivity|]. split.
  - unfold TypeVector. cbn [chainObjects]. rewrite map_app, map_map. reflexivity.
  - unfold Empty. cbn [chainObjects]. rewrite length_app, length_map.
    destruct (length (chainObjects this)), (length xs); reflexivity.
Qed.

Lemma Dehydrate_all_supported objs :
  Dehydrate_all CCrossChainProof
    CCrossChainProof_Serialize CCrossChainProof_Serialize objs
  = Dehydrate_all CCrossChainProof
      CCrossChainProof_Serialize CCrossChainProof_Serialize
      (filter (fun o => has_case (objectType o)) objs).
Proof.
  set (supported := fun o : CChainObject CCrossChainProof => has_case (objectType o)).
  induction objs as [|o objs IH]; [reflexivity|].
  cbn [filter]. destruct (supported o) eqn:Hs.
  - cbn [Dehydrate_all]. now rewrite IH.
  - rewrite <- IH. cbn [Dehydrate_all].
    assert (Hnone : DehydrateChainObject_with CCrossChainProof
                      CCrossChainProof_Serialize CCrossChainProof_Serialize o
                    = Some ([], false)).
    { destruct o as [t obj]. unfold supported, has_case in Hs. cbn [objectType] in Hs.
      cbn [DehydrateChainObject_with].
      destruct (chain_object_type t) as [[]|]; try discriminate; reflexivity. }
    rewrite Hnone.
    destruct (Dehydrate_all _ _ _ objs); reflexivity.
Qed.

(** X9: an object whose tag has no case in [DehydrateChainObject] is
    counted in the [proofSize] a container writes but adds no byte: the
    container is written as its version, the number of all its objects,
    and the bytes of those objects only whose tag has a case. *)
Theorem unsupported_objects_counted_not_written (ver : Z)
  (objs : list (CChainObject CCrossChainProof)) :
  CCrossChainProof_Serialize (mkCCrossChainProof ver objs)
  = match Dehydrate_all CCrossChainProof
            CCrossChainProof_Serialize CCrossChainProof_Serialize
            (filter (fun o => has_case (objectType o)) objs) with
    | Some body =>
        Some (put uint32_codec ver
              ++ put varint_int32_codec (MachineInt.to_int32 (Z.of_nat (length objs)))
              ++ body)
    | None => None
    end /\
  Forall (fun o => DehydrateChainObject o = Some ([], false))
    (filter (fun o => negb (has_case (objectType o))) objs).
Proof.
  split.
  - cbn [CCrossChainProof_Serialize]. now rewrite <- Dehydrate_all_supported.
  - apply Forall_forall. intros [t obj] Hin. apply filter_In in Hin.
    destruct Hin as [_ Hcase]. cbn [objectType] in Hcase. unfold has_case in Hcase.
    unfold DehydrateChainObject. cbn [DehydrateChainObject_with].
    destruct (chain_object_type t) as [[]|]; try discriminate; reflexivity.
Qed.

End Append.

Section Reader.
Context {W : Wire} {MW : MoreWire}.

Lemma Writable_unfold ver objs :
  Writable (mkCCrossChainProof ver objs) <-> Forall (cast_fits Writable) objs.
Proof.
  cbn [Writable]. induction objs as [|o objs IH].
  - split; auto.
  - split.
    + intros [Ho Hl]. constructor; [exact Ho | now apply IH].
    + intros H. inversion H; subst. split; [assumption | now apply IH].
Qed.

Lemma cast_fits_written n o :
  (forall p, (depth p <= n)%nat -> Writable p ->
             exists b, CCrossChainProof_Serialize p = Some b) ->
  cast_fits Writable o -> (object_depth o <= n)%nat ->
  has_case (objectType o) = true /\
  exists b, DehydrateChainObject o = Some (b, true).
Proof.
  intros IH. destruct o as [t obj]. unfold cast_fits, has_case, object_depth.
  cbn [objectType object]. unfold DehydrateChainObject.
  cbn [DehydrateChainObject_with].
  destruct (chain_object_type t) as [T|]; [|contradiction].
  intros [Hbranch Hinner] Hd.
  destruct T, obj; cbn in Hbranch; try discriminate;
    (split; [reflexivity|]); try (eexists; reflexivity);
    unfold CCompositeChainObject_Serialize;
    destruct (IH _ Hd Hinner) as (b & ->); eexists; reflexivity.
Qed.

Lemma Writable_serializes n : forall c,
  (depth c <= n)%nat -> Writable c ->
  exists b, CCrossChainProof_Serialize c = Some b.
Proof.
  induction n as [|n IH]; intros c Hd Hc.
  - pose proof (ChainObjectFacts.depth_positive c). lia.
  - destruct c as [ver objs]. apply Writable_unfold in Hc.
    assert (Hbody : exists body,
      Dehydrate_all CCrossChainProof
        CCrossChainProof_Serialize CCrossChainProof_Serialize objs = Some body).
    { assert (Hdepths : Forall (fun o => (object_depth o <= n)%nat) objs).
      { apply Forall_forall. intros o Hin.
        pose proof (ChainObjectFacts.object_depth_lt ver objs o Hin). lia. }
      clear Hd. induction objs as [|o objs IHobjs]; [now exists []|].
      inversion Hc; subst. inversion Hdepths; subst.
      destruct (cast_fits_written n o IH) as (_ & b & Hb); [assumption..|].
      destruct IHobjs as (body & Hbody); [assumption..|].
      cbn [Dehydrate_all]. unfold DehydrateChainObject in Hb.
      unfold CCompositeChainObject_Serialize in Hb.
      change (fun this => CCrossChainProof_Serialize this)
        with CCrossChainProof_Serialize in Hb.
      rewrite Hb, Hbody. eexists; reflexivity. }
    destruct Hbody as (body & Hbody). cbn [CCrossChainProof_Serialize].
    rewrite Hbody. eexists; reflexivity.
Qed.

Lemma read_raises_StdException {T} (c : Codec T) st f st' :
  read c st = (Raises f, st') -> f = StdException.
Proof.
  unfold read. destruct (get c (stream st)) as [[x|] s1]; intros H;
    [discriminate | now injection H as <- _].
Qed.

Lemma read_element_keeps_writable u st r st' :
  reader_keeps_writable u ->
  read_element u st = (r, st') ->
  r <> Raises BadCast /\
  forall o, r = Returns (Some o) -> cast_fits Writable o.
Proof.
  intros Hu. unfold read_element, bind.
  destruct (read uint16_codec st) as [[objType|f] st1] eqn:Etag.
  2:{ apply read_raises_StdException in Etag. subst f.
      intros H. injection H as <- <-. split; [discriminate|discriminate]. }
  destruct (chain_object_type objType) as [t|] eqn:Ht.
  2:{ unfold ret. intros H. injection H as <- <-. split; discriminate. }
  pose proof (ChainObjectFacts.chain_object_type_code _ _ Ht) as ->.
  destruct t.
  1:{ unfold ret. intros H. injection H as <- <-. split; discriminate. }
  1-6: match goal with
       | |- context [read ?c ?s] => destruct (read c s) as [[x|f] st2] eqn:E
       end;
       [ unfold ret; intros H; injection H as <- <-; split; [discriminate|];
         intros o Ho; injection Ho as <-;
         unfold cast_fits; cbn; auto
       | apply read_raises_StdException in E; subst f;
         intros H; injection H as <- <-; split; discriminate ].
  all: unfold read_nested, bind, assign, through_stream;
       destruct (u _ st1) as [[obj|f] st2] eqn:E1;
       [ pose proof (proj2 (Hu _ _ _ _ E1) obj eq_refl (Forall_nil _)) as Hobj;
         destruct (Writable_serializes (depth obj) obj (le_n _) Hobj) as (b & ->);
         destruct (u _ (mkState b (log st2))) as [[new_object|f] st3] eqn:E2;
         [ pose proof (proj2 (Hu _ _ _ _ E2) new_object eq_refl (Forall_nil _))
             as Hnew;
           unfold ret; intros H; injection H as <- <-; split; [discriminate|];
           intros o Ho; injection Ho as <-;
           unfold cast_fits; cbn; split; [reflexivity|exact Hnew]
         | destruct (Hu _ _ _ _ E2) as [Hf _];
           intros H; injection H as <- <-; split; [congruence|discriminate] ]
       | destruct (Hu _ _ _ _ E1) as [Hf _];
         intros H; injection H as <- <-; split; [congruence|discriminate] ].
Qed.

Lemma read_elements_keep_writable u n :
  reader_keeps_writable u ->
  forall objs st r st',
    read_elements u n objs st = (r, st') ->
    r <> Raises BadCast /\ r <> Raises StdException /\
    forall error objs',
      r = Returns (error, objs') ->
      (Forall (cast_fits Writable) objs -> Forall (cast_fits Writable) objs') /\
      (exists new, objs' = objs ++ new /\ (length new <= n)%nat).
Proof.
  intros Hu. induction n as [|n IH]; intros objs st r st'; cbn [read_elements].
  - unfold ret. intros H. injection H as <- <-.
    split; [discriminate|]. split; [discriminate|].
    intros error objs' H. injection H as <- <-. split; [auto|].
    exists []. now rewrite app_nil_r.
  - destruct (read_element u st) as [[[pobj|]|f] st1] eqn:E.
    + destruct (read_element_keeps_writable u _ _ _ Hu E) as [_ Ho].
      specialize (Ho pobj eq_refl). intros H.
      destruct (IH _ _ _ _ H) as (Hb & Hs & Hshape).
      split; [exact Hb|]. split; [exact Hs|].
      intros error objs' ->. destruct (Hshape _ _ eq_refl) as (Hw & new & -> & Hlen).
      split.
      * intros Hobjs. apply Hw, Forall_app. split; [assumption|].
        constructor; [exact Ho|constructor].
      * exists (pobj :: new). rewrite <- app_assoc. cbn. split; [reflexivity|lia].
    + intros H. destruct (IH _ _ _ _ H) as (Hb & Hs & Hshape).
      split; [exact Hb|]. split; [exact Hs|].
      intros error objs' ->. destruct (Hshape _ _ eq_refl) as (Hw & new & -> & Hlen).
      split; [exact Hw|]. exists new. split; [reflexivity|lia].
    + destruct (read_element_keeps_writable u _ _ _ Hu E) as [Hf _].
      destruct f; [ | now contradiction Hf | ];
        intros H; injection H as <- <-;
        (split; [discriminate|]); (split; [discriminate|]);
        intros error objs' H; try discriminate.
      injection H as <- <-. split; [auto|]. exists []. rewrite app_nil_r.
      split; [reflexivity|cbn; lia].
Qed.

Lemma Unserialize_body_keeps_writable u :
  reader_keeps_writable u -> reader_keeps_writable (Unserialize_body u).
Proof.
  intros Hu objs st r st'. unfold Unserialize_body, bind.
  destruct (read uint32_codec st) as [[ver|f] st1] eqn:Ever.
  2:{ apply read_raises_StdException in Ever. subst f.
      intros H. injection H as <- <-. split; discriminate. }
  destruct (read varint_int32_codec st1) as [[proofSize|f] st2] eqn:Esize.
  2:{ apply read_raises_StdException in Esize. subst f.
      intros H. injection H as <- <-. split; discriminate. }
  destruct (read_elements u _ objs st2) as [[[error objs']|f] st3] eqn:E;
    destruct (read_elements_keep_writable u _ Hu _ _ _ _ E) as (Hb & Hs & Hshape).
  - destruct (Hshape _ _ eq_refl) as (Hw & _). cbn [fst snd].
    destruct error; unfold printf, LogPrintf, ret; cbn;
      intros H; injection H as <- <-; (split; [discriminate|]);
      intros c Hc; injection Hc as <-; intros Hobjs; apply Writable_unfold;
      [constructor | auto].
  - intros H. injection H as <- <-. split; [congruence|discriminate].
Qed.

Lemma Unserialize_keeps_writable fuel :
  reader_keeps_writable (CCrossChainProof_Unserialize fuel).
Proof.
  induction fuel as [|fuel IH].
  - intros objs st r st' H. cbn in H. injection H as <- <-. split; discriminate.
  - cbn [CCrossChainProof_Unserialize].
    now apply Unserialize_body_keeps_writable.
Qed.

Lemma Dehydrate_all_last (sp sc : CCrossChainProof -> option (list byte)) objs o :
  DehydrateChainObject_with CCrossChainProof sp sc o = None ->
  Dehydrate_all CCrossChainProof sp sc (objs ++ [o]) = None.
Proof.
  intros Ho. induction objs as [|a objs IH]; cbn [app Dehydrate_all].
  - now rewrite Ho.
  - rewrite IH. now destruct (DehydrateChainObject_with _ _ _ a) as [[b ?]|].
Qed.

Lemma mistagged_last_not_writable ver objs o t :
  chain_object_type (objectType o) = Some t ->
  decode_branch t <> Some (type_of (object o)) ->
  ~ Writable (mkCCrossChainProof ver (objs ++ [o])).
Proof.
  intros Ht Hne Hw. apply Writable_unfold, Forall_app in Hw.
  destruct Hw as [_ Hw]. inversion Hw as [|? ? Ho _]; subst.
  unfold cast_fits in Ho. rewrite Ht in Ho. now destruct Ho as [Ho _].
Qed.

(** C2 (the code departs from it): a container to which [operator<<]
    appended a [CBlockHeaderAndProof] or a [CBlockHeaderProof], both
    under tags that have a case, does not make the round trip.  The
    object is stored under the tag of the other header type, so
    [DehydrateChainObject] casts it to a type it is not, and no stream at
    all is read as the stored object or as the container that holds it:
    what the reader returns under either tag is of that tag's type. *)
Theorem appended_header_is_never_read_back (this : CCrossChainProof)
  (headerRefProof : CBlockHeaderAndProof) (headerProof : CBlockHeaderProof) :
  let stored1 := mkCChainObject (type_code CHAINOBJ_HEADER_REF)
                   (ObjBlockHeaderAndProof headerRefProof) in
  let stored2 := mkCChainObject (type_code CHAINOBJ_HEADER)
                   (ObjBlockHeaderProof headerProof) in
  let c1 := append_CBlockHeaderAndProof this headerRefProof in
  let c2 := append_CBlockHeaderProof this headerProof in
  (has_case (objectType stored1) = true /\ has_case (objectType stored2) = true) /\
  (chainObjects c1 = chainObjects this ++ [stored1] /\
   chainObjects c2 = chainObjects this ++ [stored2]) /\
  (DehydrateChainObject stored1 = None /\ DehydrateChainObject stored2 = None) /\
  (CCrossChainProof_Serialize c1 = None /\ CCrossChainProof_Serialize c2 = None) /\
  (forall fuel st o st',
     read_element (CCrossChainProof_Unserialize fuel) st = (Returns (Some o), st') ->
     o <> stored1 /\ o <> stored2) /\
  (forall fuel st c st',
     CCrossChainProof_Unserialize fuel [] st = (Returns c, st') ->
     c <> c1 /\ c <> c2).
Proof.
  intros stored1 stored2 c1 c2.
  split; [split; reflexivity|]. split; [split; reflexivity|].
  split; [split; reflexivity|]. split; [|split].
  - unfold c1, c2, append_CBlockHeaderAndProof, append_CBlockHeaderProof,
      push_back_new. cbn [CCrossChainProof_Serialize].
    now rewrite !Dehydrate_all_last by reflexivity.
  - intros fuel st o st' Hread.
    destruct (ChainObjectFacts.read_element_type _ _ _ _ Hread) as (t & Ht & Hbranch).
    split; intros ->; cbn in Ht; injection Ht as <-; discriminate.
  - intros fuel st c st' Hread.
    pose proof (proj2 (Unserialize_keeps_writable fuel _ _ _ _ Hread) c eq_refl
                  (Forall_nil _)) as Hw.
    split; intros ->; revert Hw;
      unfold c1, c2, append_CBlockHeaderAndProof, append_CBlockHeaderProof,
        push_back_new.
    + apply (mistagged_last_not_writable _ _ stored1 CHAINOBJ_HEADER_REF);
        [reflexivity|discriminate].
    + apply (mistagged_last_not_writable _ _ stored2 CHAINOBJ_HEADER);
        [reflexivity|discriminate].
Qed.


(** X11: a [std::exception] leaves the reader of a container only from
    the read of [version] or of [proofSize]; whatever is thrown while the
    elements are read is caught. *)
Theorem exceptions_leave_from_header_only (fuel : nat)
  (objs : list (CChainObject CCrossChainProof)) (st st' : State) :
  CCrossChainProof_Unserialize (S fuel) objs st = (Raises StdException, st') <->
  read uint32_codec st = (Raises StdException, st') \/
  exists ver st1,
    read uint32_codec st = (Returns ver, st1) /\
    read varint_int32_codec st1 = (Raises StdException, st').
Proof.
  cbn [CCrossChainProof_Unserialize]. unfold Unserialize_body, bind.
  destruct (read uint32_codec st) as [[ver|f] st1] eqn:Ever.
  - destruct (read varint_int32_codec st1) as [[proofSize|f] st2] eqn:Esize.
    + destruct (read_elements _ _ objs st2) as [[[error objs']|f] st3] eqn:E.
      * split.
        -- cbn [fst snd]. destruct error; unfold printf, LogPrintf, ret; cbn;
             discriminate.
        -- intros [H|(v & s1 & H1 & H2)]; [discriminate|].
           injection H1 as <- <-. rewrite Esize in H2. discriminate.
      * destruct (read_elements_keep_writable _ _
                    (Unserialize_keeps_writable fuel) _ _ _ _ E) as (_ & Hs & _).
        split.
        -- intros H. injection H as -> _. now contradiction Hs.
        -- intros [H|(v & s1 & H1 & H2)]; [discriminate|].
           injection H1 as <- <-. rewrite Esize in H2. discriminate.
    + split.
      * intros H. right. exists ver, st1. split; [reflexivity|].
        injection H as -> ->. exact Esize.
      * intros [H|(v & s1 & H1 & H2)]; [discriminate|].
        injection H1 as <- <-. rewrite Esize in H2.
        injection H2 as -> ->. reflexivity.
  - split.
    + intros H. left. injection H as -> ->. reflexivity.
    + intros [H|(v & s1 & H1 & _)]; [|discriminate].
      injection H as -> ->. reflexivity.
Qed.

(** What the reader returns once [version] and [proofSize] are read. *)
Lemma after_header_shape (fuel : nat)
  (objs : list (CChainObject CCrossChainProof)) (st st1 st2 : State)
  (ver proofSize : Z) (r : result CCrossChainProof) (st' : State) :
  read uint32_codec st = (Returns ver, st1) ->
  read varint_int32_codec st1 = (Returns proofSize, st2) ->
  CCrossChainProof_Unserialize (S fuel) objs st = (r, st') ->
  r = Raises OutOfFuel \/
  exists c,
    r = Returns c /\ version c = ver /\
    (chainObjects c = [] \/
     exists new, chainObjects c = objs ++ new /\
                 (length new <= Z.to_nat proofSize)%nat).
Proof.
  intros Hver Hsize. cbn [CCrossChainProof_Unserialize].
  unfold Unserialize_body, bind. rewrite Hver, Hsize.
  destruct (read_elements _ _ objs st2) as [[[error objs']|f] st3] eqn:E;
    destruct (read_elements_keep_writable _ _
                (Unserialize_keeps_writable fuel) _ _ _ _ E) as (Hb & Hs & Hshape).
  - destruct (Hshape _ _ eq_refl) as (_ & new & -> & Hlen). cbn [fst snd].
    destruct error; unfold printf, LogPrintf, ret; cbn;
      intros H; injection H as <- <-; right; eexists; (split; [reflexivity|]);
      (split; [reflexivity|]); cbn [chainObjects].
    + now left.
    + right. now exists new.
  - intros H. injection H as <- <-. left.
    destruct f; [now contradiction Hs | now contradiction Hb | reflexivity].
Qed.

Hypothesis OK : WireOK W.
Hypothesis Sound : WireSound W.

Lemma element_failure_empties fuel this_objects st st1 st2 st3 ver proofSize :
  read uint32_codec st = (Returns ver, st1) ->
  read varint_int32_codec st1 = (Returns proofSize, st2) ->
  element_raises (read_element (CCrossChainProof_Unserialize fuel))
    (Z.to_nat proofSize) st2 st3 ->
  CCrossChainProof_Unserialize (S fuel) this_objects st
  = (Returns (mkCCrossChainProof ver []),
     mkState (stream st3) (log st3 ++ [corrupt_opret; corrupt_opret])).
Proof.
  intros Hver Hsize Hraise.
  destruct (ChainObjectFacts.read_elements_raises _ _ _ _ this_objects Hraise)
    as (objs' & Hloop).
  cbn [CCrossChainProof_Unserialize]. unfold Unserialize_body, bind.
  rewrite Hver, Hsize, Hloop. cbn [fst snd].
  unfold printf, LogPrintf, ret. cbn [stream log].
  now rewrite <- app_assoc.
Qed.

(** X13: when an element fails inside a container that is itself an
    element, only the inner container is emptied: the element of the outer
    container is read as a container without objects, and the outer reader
    goes on from where the inner read threw. *)
Theorem nested_failure_is_contained (fuel : nat) (t : CHAIN_OBJECT_TYPES)
  (st st1 st2 st3 st4 : State) (objType ver proofSize : Z) :
  read uint16_codec st = (Returns objType, st1) ->
  chain_object_type objType = Some t ->
  t = CHAINOBJ_CROSSCHAINPROOF \/ t = CHAINOBJ_COMPOSITEOBJECT ->
  read uint32_codec st1 = (Returns ver, st2) ->
  read varint_int32_codec st2 = (Returns proofSize, st3) ->
  element_raises (read_element (CCrossChainProof_Unserialize fuel))
    (Z.to_nat proofSize) st3 st4 ->
  read_element (CCrossChainProof_Unserialize (S fuel)) st
  = (Returns (Some (mkCChainObject (type_code t)
                      (ObjCrossChainProof (mkCCrossChainProof ver [])))),
     mkState (stream st4) (log st4 ++ [corrupt_opret; corrupt_opret])).
Proof.
  intros Htag Ht Hnested Hver Hsize Hraise.
  pose proof (element_failure_empties fuel [] _ _ _ _ _ _ Hver Hsize Hraise)
    as Hinner.
  assert (Hrange : 0 <= ver < 2 ^ 32).
  { apply ChainObjectFacts.read_Returns in Hver. destruct Hver as [Hver _].
    exact (uint32_sound W Sound _ _ _ Hver). }
  assert (Hempty : Decodable (mkCCrossChainProof ver [])).
  { apply ChainObjectFacts.Decodable_unfold. split; [exact Hrange|].
    split; [cbn [length]; lia | constructor]. }
  destruct (ChainObjectFacts.container_reads_back OK (S fuel)
              (mkCCrossChainProof ver []) ltac:(cbn; lia) Hempty)
    as (b & Hb & Hback).
  assert (Hnest : forall code,
    read_nested (CCrossChainProof_Unserialize (S fuel)) code st1
    = (Returns (Some (mkCChainObject code
                        (ObjCrossChainProof (mkCCrossChainProof ver [])))),
       mkState (stream st4) (log st4 ++ [corrupt_opret; corrupt_opret]))).
  { intros code. unfold read_nested.
    erewrite ChainObjectFacts.bind_Returns by exact Hinner.
    unfold bind, assign, through_stream. rewrite Hb. cbn [log stream].
    specialize (Hback [] [] (log st4 ++ [corrupt_opret; corrupt_opret])).
    rewrite app_nil_r in Hback. unfold DeleteOpRetObjects. rewrite Hback.
    reflexivity. }
  unfold read_element. erewrite ChainObjectFacts.bind_Returns by exact Htag.
  rewrite Ht. pose proof (ChainObjectFacts.chain_object_type_code _ _ Ht) as ->.
  destruct Hnested as [-> | ->]; apply Hnest.
Qed.


Hypothesis Advances : WireAdvances.

Lemma read_no_longer {T} (c : Codec T) st r st' :
  (forall s, (length (snd (get c s)) <= length s)%nat) ->
  read c st = (r, st') ->
  (length (stream st') <= length (stream st))%nat.
Proof.
  intros Hc. unfold read. specialize (Hc (stream st)).
  destruct (get c (stream st)) as [[x|] s1]; intros H; injection H as <- <-;
    exact Hc.
Qed.

Lemma CPriorBlocksCommitment_no_longer s :
  (length (snd (get CPriorBlocksCommitment_codec s)) <= length s)%nat.
Proof.
  cbn [get CPriorBlocksCommitment_codec].
  pose proof (vector_uint256_no_longer Advances s) as H1.
  destruct (get vector_uint256_codec s) as [[priors|] s1]; cbn [snd] in *; [|exact H1].
  pose proof (uint256_no_longer Advances s1) as H2.
  destruct (get uint256_codec s1) as [[pastTypes|] s2]; cbn [snd] in *; lia.
Qed.

Lemma read_element_has_fuel fuel st r st' :
  follows_nesting (CCrossChainProof_Unserialize fuel) fuel ->
  (length (stream st) <= fuel)%nat ->
  read_element (CCrossChainProof_Unserialize fuel) st = (r, st') ->
  r <> Raises OutOfFuel /\ (length (stream st') <= length (stream st))%nat.
Proof.
  intros Hu Hlen. unfold read_element, bind.
  destruct (read uint16_codec st) as [[objType|f] st1] eqn:Etag.
  2:{ pose proof (read_no_longer _ _ _ _ (uint16_no_longer Advances) Etag) as Hshort.
      apply read_raises_StdException in Etag. subst f.
      intros H. injection H as <- <-. split; [discriminate|assumption]. }
  assert (Htag : (length (stream st1) < length (stream st))%nat).
  { apply ChainObjectFacts.read_Returns in Etag. destruct Etag as [Etag _].
    exact (uint16_advances Advances _ _ _ Etag). }
  assert (Hpayload : forall T (c : Codec T)
            (k : T -> option (CChainObject CCrossChainProof)),
    (forall s, (length (snd (get c s)) <= length s)%nat) ->
    (let (r0, s0) := read c st1 in
     match r0 with
     | Returns a => ret (k a) s0
     | Raises f => (Raises f, s0)
     end) = (r, st') ->
    r <> Raises OutOfFuel /\ (length (stream st') <= length (stream st))%nat).
  { intros T c k Hc. destruct (read c st1) as [[x|f] st2] eqn:E;
      pose proof (read_no_longer _ _ _ _ Hc E) as Hshort.
    - unfold ret. intros H. injection H as <- <-. split; [discriminate|lia].
    - apply read_raises_StdException in E. subst f.
      intros H. injection H as <- <-. split; [discriminate|lia]. }
  assert (Hnested : forall code,
    read_nested (CCrossChainProof_Unserialize fuel) code st1 = (r, st') ->
    r <> Raises OutOfFuel /\ (length (stream st') <= length (stream st))%nat).
  { intros code. unfold read_nested, bind.
    destruct (CCrossChainProof_Unserialize fuel
                (chainObjects CCrossChainProof_default) st1)
      as [[c|f] st2] eqn:E1;
      assert (Hst1 : (length (stream st1) < fuel)%nat) by lia;
      destruct (Hu _ _ _ _ Hst1 E1) as [Hf Hl].
    - destruct (ChainObjectFacts.copy_of_decoded OK Sound fuel _ _ _ st2 E1)
        as (bytes & _ & Hcopy).
      unfold CCrossChainProof_copy in Hcopy. unfold assign, DeleteOpRetObjects.
      cbn [chainObjects CCrossChainProof_default]. rewrite Hcopy.
      unfold ret. intros H. injection H as <- <-. split; [discriminate|lia].
    - intros H. injection H as <- <-. split; [congruence|lia]. }
  destruct (chain_object_type objType) as [[]|].
  1, 10: unfold ret; intros H; injection H as <- <-; split; [discriminate|lia].
  1: exact (Hpayload _ _ _ (CBlockHeaderAndProof_no_longer Advances)).
  1: exact (Hpayload _ _ _ (CBlockHeaderProof_no_longer Advances)).
  1: exact (Hpayload _ _ _ (CPartialTransactionProof_no_longer Advances)).
  1: exact (Hpayload _ _ _ (uint256_no_longer Advances)).
  1: exact (Hpayload _ _ _ CPriorBlocksCommitment_no_longer).
  1: exact (Hpayload _ _ _ (CReserveTransfer_no_longer Advances)).
  all: apply Hnested.
Qed.

Lemma read_elements_have_fuel fuel n :
  follows_nesting (CCrossChainProof_Unserialize fuel) fuel ->
  forall objs st r st',
    (length (stream st) <= fuel)%nat ->
    read_elements (CCrossChainProof_Unserialize fuel) n objs st = (r, st') ->
    r <> Raises OutOfFuel /\ (length (stream st') <= length (stream st))%nat.
Proof.
  intros Hu. induction n as [|n IH]; intros objs st r st' Hlen;
    cbn [read_elements].
  - unfold ret. intros H. injection H as <- <-. split; [discriminate|lia].
  - destruct (read_element (CCrossChainProof_Unserialize fuel) st)
      as [[[pobj|]|f] st1] eqn:E;
      destruct (read_element_has_fuel fuel _ _ _ Hu Hlen E) as [Hf Hl];
      assert (Hst1 : (length (stream st1) <= fuel)%nat) by lia.
    + intros H. destruct (IH _ _ _ _ Hst1 H). split; [assumption|lia].
    + intros H. destruct (IH _ _ _ _ Hst1 H). split; [assumption|lia].
    + destruct f; intros H; injection H as <- <-;
        (split; [first [discriminate | congruence] | lia]).
Qed.

Lemma Unserialize_follows_nesting fuel :
  follows_nesting (CCrossChainProof_Unserialize fuel) fuel.
Proof.
  induction fuel as [|fuel IH]; intros objs st r st' Hlen; [lia|].
  cbn [CCrossChainProof_Unserialize]. unfold Unserialize_body, bind.
  destruct (read uint32_codec st) as [[ver|f] st1] eqn:Ever;
    pose proof (read_no_longer _ _ _ _ (uint32_no_longer Advances) Ever) as Hshort1.
  2:{ apply read_raises_StdException in Ever. subst f.
      intros H. injection H as <- <-. split; [discriminate|lia]. }
  destruct (read varint_int32_codec st1) as [[proofSize|f] st2] eqn:Esize;
    pose proof (read_no_longer _ _ _ _ (varint_int32_no_longer Advances) Esize) as Hshort2.
  2:{ apply read_raises_StdException in Esize. subst f.
      intros H. injection H as <- <-. split; [discriminate|lia]. }
  assert (Hst2 : (length (stream st2) <= fuel)%nat) by lia.
  destruct (read_elements _ _ objs st2) as [[[error objs']|f] st3] eqn:E;
    destruct (read_elements_have_fuel fuel _ IH _ _ _ _ Hst2 E) as [Hf Hl].
  - cbn [fst snd]. destruct error; unfold printf, LogPrintf, ret;
      cbn [stream log];
      intros H; injection H as <- <-; (split; [discriminate|cbn [stream]; lia]).
  - intros H. injection H as <- <-. split; [congruence|lia].
Qed.

(** X12: once [version] and [proofSize] are read, the reader returns: it
    does not throw, and a reader allowed as many levels of nesting as the
    stream has bytes does not run out of them.  The container returned
    has the version read, and holds either nothing or the objects it held
    before followed by at most [proofSize] new ones (none when
    [proofSize] is zero or negative). *)
Theorem reader_after_header (fuel : nat)
  (objs : list (CChainObject CCrossChainProof)) (st st1 st2 : State)
  (ver proofSize : Z) :
  read uint32_codec st = (Returns ver, st1) ->
  read varint_int32_codec st1 = (Returns proofSize, st2) ->
  (length (stream st) <= fuel)%nat ->
  exists c st',
    CCrossChainProof_Unserialize (S fuel) objs st = (Returns c, st') /\
    version c = ver /\
    (chainObjects c = [] \/
     exists new, chainObjects c = objs ++ new /\
                 (length new <= Z.to_nat proofSize)%nat).
Proof.
  intros Hver Hsize Hlen.
  destruct (CCrossChainProof_Unserialize (S fuel) objs st) as [r st'] eqn:E.
  assert (Hfuel : (length (stream st) < S fuel)%nat) by lia.
  destruct (Unserialize_follows_nesting (S fuel) _ _ _ _ Hfuel E) as [Hf _].
  destruct (after_header_shape fuel objs _ _ _ _ _ _ _ Hver Hsize E)
    as [->|(c & -> & Hc)]; [now contradiction Hf|].
  exists c, st'. split; [reflexivity|exact Hc].
Qed.

End Reader.

Section Rehydrate.
Context {W : Wire} {MW : MoreWire}.

(** X15: [RehydrateChainObject] returns [NULL] exactly when the read of
    the tag throws or the tag read has no case in the [switch], and the
    stream is then where the read of the tag left it; an object it
    returns carries the tag that was read, and that tag has a case. *)
Theorem Rehydrate_NULL_iff (fuel : nat) (st st' : State) :
  (RehydrateChainObject fuel st = (Returns None, st') <->
   read int16_codec st = (Raises StdException, st') \/
   exists objType,
     read int16_codec st = (Returns objType, st') /\ has_case objType = false) /\
  (forall o,
     RehydrateChainObject fuel st = (Returns (Some o), st') ->
     has_case (objectType o) = true /\
     exists st1, read int16_codec st = (Returns (objectType o), st1)).
Proof.
  assert (Hread : forall f s, read int16_codec st = (Raises f, s) -> f = StdException).
  { unfold read. destruct (get int16_codec (stream st)) as [[v|] s1];
      intros f s H; [discriminate|]. now injection H as <- _. }
  unfold RehydrateChainObject.
  destruct (read int16_codec st) as [[objType|f] st1] eqn:Etag.
  - assert (Hsome : forall T (m : M T) as_object r s,
      chain_object_type objType <> None ->
      rehydrated objType m as_object st1 = (r, s) ->
      r <> Returns None /\
      forall o, r = Returns (Some o) -> objectType o = objType).
    { intros T m as_object r s Ht. unfold rehydrated, bind, ret.
      destruct (m st1) as [[x|f] s1]; intros H; injection H as <- <-.
      - split; [discriminate|]. intros o Ho. injection Ho as <-.
        cbn [objectType]. unfold MachineInt.to_uint16, MachineInt.wrap_unsigned.
        destruct (chain_object_type objType) eqn:E; [|contradiction].
        apply ChainObjectFacts.chain_object_type_code in E. subst objType.
        now destruct c.
      - split; [discriminate|]. intros o Ho. discriminate. }
    unfold has_case.
    destruct (chain_object_type objType) as [[]|] eqn:Et.
    1, 10:
      (split;
       [ split;
         [ intros H; injection H as <-; right; exists objType; now rewrite Et
         | intros [H|(t & H & _)]; [discriminate | now injection H as _ <-] ]
       | intros o H; discriminate ]).
    all:
      (split;
       [ split;
         [ intros H; apply Hsome in H; [|discriminate]; now destruct H as [H _]
         | intros [H|(t & H & Hc)]; [discriminate|];
           injection H as <- _; rewrite Et in Hc; discriminate ]
       | intros o H; apply Hsome in H; [|discriminate];
         destruct H as [_ H]; rewrite (H o eq_refl), Et;
         split; [reflexivity | now exists st1] ]).
  - pose proof (Hread f st1 eq_refl) as ->. split.
    + split.
      * intros H. injection H as <-. now left.
      * intros [H|(t & H & _)]; [now injection H as <- | discriminate].
    + intros o H. discriminate.
Qed.

Hypothesis OK : WireOK W.
Hypothesis int16_uint16 : int16_reads_as_uint16.

Lemma read_tag_written t rest lg :
  read int16_codec (mkState (put uint16_codec (type_code t) ++ rest) lg)
  = (Returns (type_code t), mkState rest lg).
Proof.
  unfold read. cbn [stream log]. rewrite int16_uint16.
  rewrite (uint16_ok W OK (type_code t) rest (ChainObjectFacts.fits_type_code OK t)).
  cbn [fst snd option_map]. now destruct t.
Qed.

Ltac payload_back :=
  repeat first
    [ rewrite <- app_assoc
    | erewrite ChainObjectFacts.bind_Returns by
        (apply ChainObjectFacts.read_put;
         [ first [ apply (uint256_ok W OK)
                 | apply (CBlockHeaderAndProof_ok W OK)
                 | apply (CPartialTransactionProof_ok W OK)
                 | apply (CBlockHeaderProof_ok W OK)
                 | apply (CReserveTransfer_ok W OK)
                 | apply (ChainObjectFacts.CPriorBlocksCommitment_roundtrips OK) ]
         | assumption ]) ].

(** X16: what [DehydrateChainObject] writes for an object that carries a
    supported tag and a payload of that tag's type, [RehydrateChainObject]
    reads back as the same object, stopping where the write stopped; a
    nested container is read back at every depth the reader is allowed to
    follow. *)
Theorem Rehydrate_after_Dehydrate (fuel : nat) (o : CChainObject CCrossChainProof) :
  well_tagged Decodable o -> (object_depth o <= fuel)%nat ->
  exists bytes,
    DehydrateChainObject o = Some (bytes, true) /\
    forall rest lg,
      RehydrateChainObject fuel (mkState (bytes ++ rest) lg)
      = (Returns (Some o), mkState rest lg).
Proof.
  intros Hwt Hd. destruct o as [t obj].
  unfold well_tagged in Hwt. cbn [object objectType] in Hwt.
  destruct obj as [x|x|x|x|x|x|p].
  1-6: destruct Hwt as [-> Hfit]; eexists; split;
       [ reflexivity
       | intros rest lg;
         unfold RehydrateChainObject, written, CChainObject_Serialize,
           CBaseChainObject_Serialize;
         rewrite <- app_assoc, read_tag_written;
         cbv beta iota delta [type_code chain_object_type];
         unfold rehydrated; payload_back; reflexivity ].
  destruct Hwt as [Ht Hp]. cbn in Hd.
  destruct (ChainObjectFacts.container_reads_back OK fuel p Hd Hp)
    as (b & Hser & Hread).
  assert (Hnested : forall code rest lg,
    rehydrated code
      (CCrossChainProof_Unserialize fuel (chainObjects CCrossChainProof_default))
      ObjCrossChainProof (mkState (b ++ rest) lg)
    = (Returns (Some (mkCChainObject (MachineInt.to_uint16 code)
                        (ObjCrossChainProof p))), mkState rest lg)).
  { intros code rest lg. unfold rehydrated.
    erewrite ChainObjectFacts.bind_Returns by apply Hread.
    change (chainObjects CCrossChainProof_default ++ chainObjects p)
      with (chainObjects p).
    now rewrite ChainObjectFacts.CCrossChainProof_eta. }
  destruct Ht as [-> | ->].
  - exists (CChainObject_Serialize (type_code CHAINOBJ_CROSSCHAINPROOF) b). split.
    + unfold DehydrateChainObject. cbn. now rewrite Hser.
    + intros rest lg.
      unfold RehydrateChainObject, CChainObject_Serialize, CBaseChainObject_Serialize.
      rewrite <- app_assoc, read_tag_written.
      cbv beta iota delta [type_code chain_object_type]. apply Hnested.
  - exists (CChainObject_Serialize (type_code CHAINOBJ_COMPOSITEOBJECT) b). split.
    + unfold DehydrateChainObject, CCompositeChainObject_Serialize. cbn.
      now rewrite Hser.
    + intros rest lg.
      unfold RehydrateChainObject, CChainObject_Serialize, CBaseChainObject_Serialize.
      rewrite <- app_assoc, read_tag_written.
      cbv beta iota delta [type_code chain_object_type]. apply Hnested.
Qed.

Hypothesis Sound : WireSound W.
Hypothesis uint16_range : uint16_in_range.

Lemma signed_tag v :
  0 <= v < 2 ^ 16 ->
  chain_object_type (MachineInt.wrap_signed 16 v) = chain_object_type v /\
  (chain_object_type v <> None ->
   MachineInt.wrap_signed 16 v = v /\ MachineInt.to_uint16 v = v).
Proof.
  intros Hv. unfold MachineInt.to_uint16, MachineInt.wrap_unsigned,
    MachineInt.wrap_signed.
  change (2 ^ (16 - 1)) with 32768. change (2 ^ 16) with 65536 in *.
  destruct (Z_lt_le_dec v 32768) as [Hlow|Hhigh].
  - rewrite (Z.mod_small (v + 32768)) by lia. rewrite (Z.mod_small v) by lia.
    replace (v + 32768 - 32768) with v by lia. auto.
  - replace (v + 32768) with ((v - 32768) + 1 * 65536) by lia.
    rewrite Z.mod_add by lia. rewrite (Z.mod_small (v - 32768)) by lia.
    assert (Hnone : chain_object_type v = None).
    { destruct v as [|q|q]; try lia.
      do 4 (destruct q as [q|q|]; try lia; try reflexivity). }
    rewrite Hnone. split; [|congruence].
    destruct (v - 32768 - 32768) as [|q|q] eqn:E; try lia. reflexivity.
Qed.

(** X17: [RehydrateChainObject] decodes an element as the reader of a
    container does: it differs only when the read of the tag throws, where
    it returns [NULL] in place of the exception.  Same object or same
    exception from the payload, same position in the stream, same log. *)
Theorem Rehydrate_is_reader_element (fuel : nat) (st : State) :
  RehydrateChainObject fuel st
  = match read uint16_codec st with
    | (Raises _, st') => (Returns None, st')
    | (Returns _, _) => read_element (CCrossChainProof_Unserialize fuel) st
    end.
Proof.
  assert (Hint : read int16_codec st
                 = match read uint16_codec st with
                   | (Returns v, st') => (Returns (MachineInt.wrap_signed 16 v), st')
                   | (Raises f, st') => (Raises f, st')
                   end).
  { unfold read. rewrite int16_uint16.
    now destruct (get uint16_codec (stream st)) as [[v|] s1]. }
  assert (Hread : read uint16_codec st
                  = match get uint16_codec (stream st) with
                    | (Some v, s1) => (Returns v, mkState s1 (log st))
                    | (None, s1) => (Raises StdException, mkState s1 (log st))
                    end) by reflexivity.
  unfold RehydrateChainObject, read_element, bind. rewrite Hint, Hread.
  destruct (get uint16_codec (stream st)) as [[v|] s1] eqn:Etag; [|reflexivity].
  destruct (signed_tag v (uint16_range _ _ _ Etag)) as [Hsame Hfits].
  rewrite Hsame.
  destruct (chain_object_type v) as [t|] eqn:Et; [|reflexivity].
  destruct (Hfits ltac:(discriminate)) as [-> Hu].
  assert (Hnested :
    rehydrated v
      (CCrossChainProof_Unserialize fuel (chainObjects CCrossChainProof_default))
      ObjCrossChainProof (mkState s1 (log st))
    = read_nested (CCrossChainProof_Unserialize fuel) v (mkState s1 (log st))).
  { unfold rehydrated, read_nested, bind. rewrite Hu.
    destruct (CCrossChainProof_Unserialize fuel
                (chainObjects CCrossChainProof_default) (mkState s1 (log st)))
      as [[c|f] st2] eqn:Eread; [|reflexivity].
    destruct (ChainObjectFacts.copy_of_decoded OK Sound fuel _ _ _ st2 Eread)
      as (bytes & _ & Hcopy).
    unfold CCrossChainProof_copy in Hcopy. unfold assign, DeleteOpRetObjects.
    cbn [chainObjects CCrossChainProof_default]. now rewrite Hcopy. }
  pose proof (ChainObjectFacts.chain_object_type_code _ _ Et) as Hv.
  destruct t; try reflexivity;
    try (unfold rehydrated, bind; rewrite Hu; reflexivity).
  - rewrite <- Hv. exact Hnested.
  - exact Hnested.
Qed.

End Rehydrate.

End MemberFacts.

(* ------------------------------------------------------------------ *)
(** ** The members on the concrete layout *)

Module MoreLayoutFacts.
Import Stream PBaaSMore Layout MoreLayout.
#[local] Existing Instance wire.
#[local] Existing Instance more_wire.

Lemma vector_uint8_roundtrips : roundtrips vector_uint8_codec.
Proof. apply LayoutFacts.vector_roundtrips, LayoutFacts.le_roundtrips. Qed.

Lemma int16_of_uint16 : int16_reads_as_uint16.
Proof.
  intros s. cbn [int16_codec uint16_codec more_wire wire].
  unfold signed_le_codec, le_codec. cbn [get].
  now destruct (le_get 2 s) as [[v|] s'].
Qed.

Lemma uint16_sound : uint16_in_range.
Proof. intros s v s' H. exact (LayoutFacts.le_get_sound 2 s v s' H). Qed.

Lemma le_get_no_longer n s : (length (snd (le_get n s)) <= length s)%nat.
Proof.
  unfold le_get, read_bytes.
  destruct (length s <? n)%nat; cbv beta iota; cbn [snd]; [lia|].
  rewrite length_skipn. lia.
Qed.

Lemma le_get_advances n s v s' :
  le_get (S n) s = (Some v, s') -> (length s' < length s)%nat.
Proof.
  unfold le_get, read_bytes.
  destruct (Nat.ltb_spec (length s) (S n)) as [Hlt|Hge]; [discriminate|].
  intros H. assert (Hs : skipn (S n) s = s') by (injection H as _ Hs; exact Hs).
  rewrite <- Hs, length_skipn. lia.
Qed.

Lemma ReadVarInt_no_longer s : forall n,
  (length (snd (ReadVarInt s n)) <= length s)%nat.
Proof.
  induction s as [|chData s IH]; intros n; cbn [ReadVarInt]; [cbn; lia|].
  destruct (Z.land (Z_of_byte chData) 128 =? 0).
  - cbn [snd length]. lia.
  - specialize (IH (MachineInt.to_int32
                      (MachineInt.to_int32
                         (Z.lor (Z.shiftl n 7) (Z.land (Z_of_byte chData) 127)) + 1))).
    cbn [length]. lia.
Qed.

Lemma ReadCompactSize_no_longer s :
  (length (snd (ReadCompactSize s)) <= length s)%nat.
Proof.
  destruct s as [|chSize s1]; [cbn; lia|].
  assert (Hwide : forall n (least : Z),
    (length (snd (match le_get n s1 with
                  | (Some v, s2) =>
                      if (v <? least)%Z then (None, s2)
                      else if (MAX_SIZE <? v)%Z then (None, s2)
                      else (Some v, s2)
                  | (None, s2) => (None, s2)
                  end)) <= length s1)%nat).
  { intros n least. pose proof (le_get_no_longer n s1) as Hle.
    destruct (le_get n s1) as [[v|] s2]; cbn [snd] in *; [|exact Hle].
    destruct (v <? least); [exact Hle|].
    destruct (MAX_SIZE <? v); exact Hle. }
  cbv beta iota zeta delta [ReadCompactSize]. cbn [length].
  destruct (Z_of_byte chSize <? 253); [cbn [snd]; lia|].
  destruct (Z_of_byte chSize =? 253); [specialize (Hwide 2%nat 253); lia|].
  destruct (Z_of_byte chSize =? 254); [specialize (Hwide 4%nat 0x10000); lia|].
  specialize (Hwide 8%nat 0x100000000). lia.
Qed.

Lemma get_many_no_longer {T} (c : Codec T) n :
  (forall s, (length (snd (get c s)) <= length s)%nat) ->
  forall s, (length (snd (get_many c n s)) <= length s)%nat.
Proof.
  intros Hc. induction n as [|n IH]; intros s; cbn [get_many]; [cbn; lia|].
  pose proof (Hc s) as H1. destruct (get c s) as [[x|] s1]; cbn [snd] in *; [|exact H1].
  pose proof (IH s1) as H2. destruct (get_many c n s1) as [[xs|] s2];
    cbn [snd] in *; lia.
Qed.

Lemma vector_no_longer {T} (c : Codec T) :
  (forall s, (length (snd (get c s)) <= length s)%nat) ->
  forall s, (length (snd (get (vector_codec c) s)) <= length s)%nat.
Proof.
  intros Hc s. cbn [get vector_codec].
  pose proof (ReadCompactSize_no_longer s) as H1.
  destruct (ReadCompactSize s) as [[n|] s1]; cbn [snd] in *; [|exact H1].
  pose proof (get_many_no_longer c (Z.to_nat n) Hc s1). lia.
Qed.

Lemma wire_Advances : WireAdvances.
Proof.
  constructor;
    cbn [uint16_codec uint32_codec varint_int32_codec uint256_codec
         vector_uint256_codec CBlockHeaderAndProof_codec
         CPartialTransactionProof_codec CBlockHeaderProof_codec
         CReserveTransfer_codec wire];
    try (intros s; exact (le_get_no_longer _ s)).
  - intros s v s' H. exact (le_get_advances 1 s v s' H).
  - intros s. exact (ReadVarInt_no_longer s 0).
  - intros s. exact (vector_no_longer (le_codec 32) (le_get_no_longer 32) s).
Qed.

End MoreLayoutFacts.

Module MemberExampleFacts.
Import Stream PBaaS PBaaSMore Layout MoreLayout Examples MoreExamples.
#[local] Existing Instance wire.
#[local] Existing Instance more_wire.

Lemma two_objects_fit : fits COpRetProof_codec two_objects.
Proof.
  cbn. unfold MAX_SIZE.
  repeat match goal with
         | |- _ /\ _ => split
         | |- Forall _ _ => constructor
         end; cbn; lia.
Qed.

(** The two objects on the wire: the index, the two type codes, the two
    hashes. *)
Example two_objects_written :
  put COpRetProof_codec two_objects
  = map byte_of_Z ([0; 0; 0; 0; 2; 1; 4; 2; 5] ++ repeat 0 31 ++ [7] ++ repeat 0 31).
Proof. reflexivity. Qed.

Lemma COpRetProof_roundtrip_witness :
  WireOK wire /\
  roundtrips vector_uint8_codec /\
  fits COpRetProof_codec two_objects /\
  get COpRetProof_codec (put COpRetProof_codec two_objects ++ [x01])
  = (Some two_objects, [x01]).
Proof.
  split; [exact LayoutFacts.wire_OK|].
  split; [exact MoreLayoutFacts.vector_uint8_roundtrips|].
  split; [exact two_objects_fit|].
  exact (@MemberFacts.COpRetProof_roundtrip wire more_wire LayoutFacts.wire_OK
           MoreLayoutFacts.vector_uint8_roundtrips two_objects [x01]
           two_objects_fit).
Defined.

Lemma three_operands_canonical : Forall (canonical_operand 2) three_operands.
Proof.
  constructor; [exact I|]. constructor; [exact I|].
  constructor; [|constructor].
  split; [exact ExampleFacts.outer_proof_Decodable | cbn; lia].
Qed.

Lemma append_all_in_order_witness :
  WireOK wire /\
  Forall (canonical_operand 2) three_operands /\
  exists c,
    append_all 2 inner_proof three_operands (stream_of []) = (Returns c, stream_of []) /\
    version c = version inner_proof /\
    chainObjects c
    = chainObjects inner_proof
      ++ map (fun x => mkCChainObject (type_code (stored_tag x)) (stored_object x))
           three_operands /\
    TypeVector c
    = TypeVector inner_proof ++ map (fun x => type_code (stored_tag x)) three_operands /\
    Empty c = Empty inner_proof && (length three_operands =? 0)%nat.
Proof.
  split; [exact LayoutFacts.wire_OK|].
  split; [exact three_operands_canonical|].
  exact (@MemberFacts.append_all_in_order wire LayoutFacts.wire_OK
           2 inner_proof three_operands (stream_of []) three_operands_canonical).
Defined.

(** An operand that is not such a container is not stored as it is: the
    copy of a container that holds a default-constructed object is read
    from a stream that announces one element and has none, so what is
    appended is an empty container, and two lines are logged. *)
Example append_copies_its_operand :
  append_CCrossChainProof 1 inner_proof holds_default_object (stream_of [])
  = (Returns (mkCCrossChainProof 1
       [proof_root 7;
        mkCChainObject (type_code CHAINOBJ_CROSSCHAINPROOF)
          (ObjCrossChainProof (mkCCrossChainProof 1 []))]),
     mkState [] [corrupt_opret; corrupt_opret]).
Proof. reflexivity. Qed.



Lemma truncated_stream_header :
  read uint32_codec truncated_stream
  = (Returns 1, stream_of ([2; 4; 0] ++ repeat 7 32 ++ [4; 0; 1; 2; 3])) /\
  read varint_int32_codec (stream_of ([2; 4; 0] ++ repeat 7 32 ++ [4; 0; 1; 2; 3]))
  = (Returns 2, truncated_elements).
Proof. split; reflexivity. Qed.

Lemma truncated_stream_read :
  CCrossChainProof_Unserialize 1 [proof_root 5] truncated_stream
  = (Returns (mkCCrossChainProof 1 []),
     mkState (stream truncated_at_throw) [corrupt_opret; corrupt_opret]).
Proof. reflexivity. Qed.

Lemma truncated_stream_length : (length (stream truncated_stream) <= 44)%nat.
Proof. cbn. lia. Qed.

Lemma reader_after_header_witness :
  WireOK wire /\ WireSound wire /\ WireAdvances /\
  read uint32_codec truncated_stream
  = (Returns 1, stream_of ([2; 4; 0] ++ repeat 7 32 ++ [4; 0; 1; 2; 3])) /\
  read varint_int32_codec (stream_of ([2; 4; 0] ++ repeat 7 32 ++ [4; 0; 1; 2; 3]))
  = (Returns 2, truncated_elements) /\
  (length (stream truncated_stream) <= 44)%nat /\
  exists c st',
    CCrossChainProof_Unserialize 45 [proof_root 5] truncated_stream
    = (Returns c, st') /\
    version c = 1 /\
    (chainObjects c = [] \/
     exists new, chainObjects c = [proof_root 5] ++ new /\
                 (length new <= Z.to_nat 2)%nat).
Proof.
  split; [exact LayoutFacts.wire_OK|].
  split; [exact LayoutFacts.wire_Sound|].
  split; [exact MoreLayoutFacts.wire_Advances|].
  split; [exact (proj1 truncated_stream_header)|].
  split; [exact (proj2 truncated_stream_header)|].
  split; [exact truncated_stream_length|].
  exact (@MemberFacts.reader_after_header wire
           LayoutFacts.wire_OK LayoutFacts.wire_Sound MoreLayoutFacts.wire_Advances
           44 [proof_root 5] truncated_stream _ truncated_elements 1 2
           (proj1 truncated_stream_header) (proj2 truncated_stream_header)
           truncated_stream_length).
Defined.

(** In [nested_truncated_element] the only element of the nested
    container throws. *)
Lemma nested_element_raises :
  element_raises (read_element (CCrossChainProof_Unserialize 0))
    (Z.to_nat 1) (stream_of [4; 0; 1; 2; 3]) (stream_of [1; 2; 3]).
Proof. apply raises_here. reflexivity. Qed.

Lemma nested_truncated_header :
  read uint16_codec nested_truncated_element
  = (Returns 8, stream_of [1; 0; 0; 0; 1; 4; 0; 1; 2; 3]) /\
  read uint32_codec (stream_of [1; 0; 0; 0; 1; 4; 0; 1; 2; 3])
  = (Returns 1, stream_of [1; 4; 0; 1; 2; 3]) /\
  read varint_int32_codec (stream_of [1; 4; 0; 1; 2; 3])
  = (Returns 1, stream_of [4; 0; 1; 2; 3]).
Proof. repeat split; reflexivity. Qed.

Lemma nested_failure_is_contained_witness :
  WireOK wire /\ WireSound wire /\
  read uint16_codec nested_truncated_element
  = (Returns 8, stream_of [1; 0; 0; 0; 1; 4; 0; 1; 2; 3]) /\
  chain_object_type 8 = Some CHAINOBJ_CROSSCHAINPROOF /\
  read uint32_codec (stream_of [1; 0; 0; 0; 1; 4; 0; 1; 2; 3])
  = (Returns 1, stream_of [1; 4; 0; 1; 2; 3]) /\
  read varint_int32_codec (stream_of [1; 4; 0; 1; 2; 3])
  = (Returns 1, stream_of [4; 0; 1; 2; 3]) /\
  element_raises (read_element (CCrossChainProof_Unserialize 0))
    (Z.to_nat 1) (stream_of [4; 0; 1; 2; 3]) (stream_of [1; 2; 3]) /\
  read_element (CCrossChainProof_Unserialize 1) nested_truncated_element
  = (Returns (Some (mkCChainObject (type_code CHAINOBJ_CROSSCHAINPROOF)
                      (ObjCrossChainProof (mkCCrossChainProof 1 [])))),
     mkState (stream (stream_of [1; 2; 3]))
       (log (stream_of [1; 2; 3]) ++ [corrupt_opret; corrupt_opret])).
Proof.
  destruct nested_truncated_header as (Htag & Hver & Hsize).
  split; [exact LayoutFacts.wire_OK|].
  split; [exact LayoutFacts.wire_Sound|].
  split; [exact Htag|].
  split; [reflexivity|].
  split; [exact Hver|].
  split; [exact Hsize|].
  split; [exact nested_element_raises|].
  exact (@MemberFacts.nested_failure_is_contained wire
           LayoutFacts.wire_OK LayoutFacts.wire_Sound
           0 CHAINOBJ_CROSSCHAINPROOF nested_truncated_element _ _ _ _ 8 1 1
           Htag eq_refl (or_introl eq_refl) Hver Hsize nested_element_raises).
Defined.


Lemma nested_object_depth : (object_depth nested_object <= 1)%nat.
Proof. cbn. lia. Qed.

Lemma Rehydrate_after_Dehydrate_witness :
  WireOK wire /\ int16_reads_as_uint16 /\
  well_tagged Decodable nested_object /\
  (object_depth nested_object <= 1)%nat /\
  exists bytes,
    DehydrateChainObject nested_object = Some (bytes, true) /\
    forall rest lg,
      RehydrateChainObject 1 (mkState (bytes ++ rest) lg)
      = (Returns (Some nested_object), mkState rest lg).
Proof.
  split; [exact LayoutFacts.wire_OK|].
  split; [exact MoreLayoutFacts.int16_of_uint16|].
  split; [exact ExampleFacts.nested_object_well_tagged|].
  split; [exact nested_object_depth|].
  exact (@MemberFacts.Rehydrate_after_Dehydrate wire more_wire
           LayoutFacts.wire_OK MoreLayoutFacts.int16_of_uint16
           1 nested_object ExampleFacts.nested_object_well_tagged
           nested_object_depth).
Defined.

(** On [nested_truncated_element] both read the nested container as an
    empty one. *)
Example Rehydrate_nested_truncated :
  RehydrateChainObject 1 nested_truncated_element
  = (Returns (Some (mkCChainObject (type_code CHAINOBJ_CROSSCHAINPROOF)
                      (ObjCrossChainProof (mkCCrossChainProof 1 [])))),
     mkState (stream (stream_of [1; 2; 3])) [corrupt_opret; corrupt_opret]).
Proof. reflexivity. Qed.

(** Where only one byte of the tag is left, the reader throws and
    [RehydrateChainObject] returns [NULL]. *)
Example Rehydrate_truncated_tag :
  RehydrateChainObject 1 (stream_of [4]) = (Returns None, stream_of [4]) /\
  read_element (CCrossChainProof_Unserialize 1) (stream_of [4])
  = (Raises StdException, stream_of [4]).
Proof. split; reflexivity. Qed.

Lemma Rehydrate_is_reader_element_witness :
  WireOK wire /\ int16_reads_as_uint16 /\ WireSound wire /\ uint16_in_range /\
  RehydrateChainObject 1 nested_truncated_element
  = match read uint16_codec nested_truncated_element with
    | (Raises _, st') => (Returns None, st')
    | (Returns _, _) =>
        read_element (CCrossChainProof_Unserialize 1) nested_truncated_element
    end.
Proof.
  split; [exact LayoutFacts.wire_OK|].
  split; [exact MoreLayoutFacts.int16_of_uint16|].
  split; [exact LayoutFacts.wire_Sound|].
  split; [exact MoreLayoutFacts.uint16_sound|].
  exact (@MemberFacts.Rehydrate_is_reader_element wire more_wire
           LayoutFacts.wire_OK MoreLayoutFacts.int16_of_uint16
           LayoutFacts.wire_Sound MoreLayoutFacts.uint16_sound
           1 nested_truncated_element).
Defined.

End MemberExampleFacts.
